(** * A shallow embedding of the [rubik] cube model and controller

    The development follows [src/rubik/model.py] and
    [src/rubik/controller.py].  Python objects live in an explicit store:
    a [Piece] is a mutable object reached through a reference, the cube's
    [_pieces] dictionary maps positions to references, and every method
    is a computation in a state-and-exception monad over that store, so
    that what a raised exception leaves behind is part of the model. *)

From Stdlib Require Import ZArith List Bool String Ascii Lia.
From stdpp Require Import base tactics option list strings.
Import ListNotations.
Open Scope string_scope.
Open Scope list_scope.
Open Scope Z_scope.

(** ** [config]: the constants the model imports *)

Module config.

(** The axis names.  [Position.__getattr__] looks them up in
    [ATTR_MAP = {'x': 0, 'y': 1, 'z': 2}], so they are the three
    strings ['x'], ['y'], ['z']; an enumeration stands for them. *)
Inductive Axis : Set := x | y | z.

(** Modelled from the spec: [config.py] is not among the sources; the
    six color identifiers it defines are "six fixed values (e.g., RED,
    ORANGE, WHITE, YELLOW, GREEN, BLUE)", pairwise distinct and
    distinct from [None]. *)
Inductive Color : Set := ORANGE | RED | YELLOW | WHITE | GREEN | BLUE.

End config.

(** ** [class Position(tuple)] *)

Module Position.

Definition t : Type := Z * Z * Z.

(** [ATTR_MAP] *)
Definition ATTR_MAP (attr : config.Axis) : nat :=
  match attr with config.x => 0 | config.y => 1 | config.z => 2 end%nat.

(** [self[i]] on a triple. *)
Definition item (self : t) (i : nat) : Z :=
  let '(a, b, c) := self in
  match i with O => a | S O => b | _ => c end.

(** [__getattr__]: [self[self.ATTR_MAP[attr]]]. *)
Definition __getattr__ (self : t) (attr : config.Axis) : Z :=
  item self (ATTR_MAP attr).

Definition eqb (p q : t) : bool :=
  let '(a, b, c) := p in
  let '(a', b', c') := q in
  (a =? a') && (b =? b') && (c =? c').

End Position.

(** ** [class Piece] *)

Module Piece.

(** The three attributes [self.x, self.y, self.z]; [None] is an
    absent label. *)
Record t : Set := mk {
  x : option config.Color;
  y : option config.Color;
  z : option config.Color
}.

(** [__init__]: [self.x, self.y, self.z = colors]. *)
Definition __init__
  (colors : option config.Color * option config.Color * option config.Color)
  : t :=
  let '(cx, cy, cz) := colors in mk cx cy cz.

(** [rotate]: the new attribute values of a piece rotated around
    [axis]. *)
Definition rotate (axis : config.Axis) (self : t) : t :=
  match axis with
  | config.x => mk (x self) (z self) (y self)
  | config.y => mk (z self) (y self) (x self)
  | config.z => mk (y self) (x self) (z self)
  end.

End Piece.

(** ** Python dictionaries

    A [dict] keeps its keys in insertion order; assigning to a key that
    is present replaces the value where it stands, assigning to a new
    key appends.  [_make_rotation] iterates one dictionary while it
    fills another, so the order is part of the model. *)

Module PyDict.

Section Dict.
Context {V : Type}.

Local Abbreviation t := (list (Position.t * V)).

(** [d[k] = v] *)
Fixpoint setitem (d : t) (k : Position.t) (v : V) : t :=
  match d with
  | [] => [(k, v)]
  | (k', v') :: d' =>
      if Position.eqb k' k then (k', v) :: d'
      else (k', v') :: setitem d' k v
  end.

(** [d[k]], [None] standing for [KeyError]. *)
Fixpoint getitem (d : t) (k : Position.t) : option V :=
  match d with
  | [] => None
  | (k', v') :: d' => if Position.eqb k' k then Some v' else getitem d' k
  end.

(** [d.keys()] and [d.values()] as lists. *)
Definition keys (d : t) : list Position.t := d.*1.
Definition values (d : t) : list V := d.*2.

End Dict.

(** A dictionary from positions to [V], in insertion order. *)
Abbreviation t V := (list (Position.t * V)) (only parsing).

End PyDict.

(** ** The store *)

(** A reference to a [Piece] object: its index in the store. *)
Abbreviation Ref := nat (only parsing).

(** The attributes of a [Rubik] instance. *)
Record RubikObj : Type := mkRubik {
  _size : Z;
  _coord_limit : Z;
  _pieces : PyDict.t Ref
}.

(** The two logger methods the controller calls. *)
Inductive Level : Set := INFO | ERROR.

(** Everything the program can reach: the [Piece] objects, the one cube
    of the session, and the messages handed to the logger. *)
Record World : Type := mkWorld {
  heap : list Piece.t;
  cube : RubikObj;
  logged : list (Level * string)
}.

Inductive PyExn : Set :=
  AttributeError | TypeError | ValueError | UnboundLocalError | KeyError.

#[global] Instance PyExn_eq_dec : EqDecision PyExn.
Proof. solve_decision. Defined.

Inductive Outcome (A : Type) : Type :=
| Ok (a : A)
| Raise (e : PyExn).
Arguments Ok {A} a.
Arguments Raise {A} e.

(** A computation runs on a world and leaves a world, also when it
    raises: Python undoes nothing. *)
Definition M (A : Type) : Type := World -> Outcome A * World.

Definition ret {A} (a : A) : M A := fun w => (Ok a, w).

Definition bind {A B} (m : M A) (k : A -> M B) : M B :=
  fun w =>
    match m w with
    | (Ok a, w') => k a w'
    | (Raise e, w') => (Raise e, w')
    end.

Definition raise {A} (e : PyExn) : M A := fun w => (Raise e, w).

(** [try: m except e: h] *)
Definition try_except {A} (m : M A) (e : PyExn) (h : M A) : M A :=
  fun w =>
    match m w with
    | (Ok a, w') => (Ok a, w')
    | (Raise e', w') =>
        if decide (e' = e) then h w' else (Raise e', w')
    end.

Declare Scope py_scope.
Delimit Scope py_scope with py.
Notation "v <- m ;; k" := (bind m (fun v => k))
  (at level 100, m at next level, right associativity) : py_scope.
Notation "m ;; k" := (bind m (fun _ => k))
  (at level 100, right associativity) : py_scope.
Open Scope py_scope.

(** [for a in xs: s = body a s], with the loop-carried local [s]. *)
Fixpoint for_in {A S} (xs : list A) (body : A -> S -> M S) (s : S) : M S :=
  match xs with
  | [] => ret s
  | a :: xs' => s' <- body a s ;; for_in xs' body s'
  end.

(** [range(a, b)] *)
Definition py_range (a b : Z) : list Z := seqZ a (b - a).

Definition self_ : M RubikObj := fun w => (Ok (cube w), w).

Definition set_self (c : RubikObj) : M unit :=
  fun w => (Ok tt, mkWorld (heap w) c (logged w)).

(** [Piece(colors)]: a new object, and the reference to it. *)
Definition new_Piece
  (colors : option config.Color * option config.Color * option config.Color)
  : M Ref :=
  fun w =>
    (Ok (length (heap w)),
     mkWorld (heap w ++ [Piece.__init__ colors]) (cube w) (logged w)).

(** [piece.rotate(axis)] on the object behind [piece]. *)
Definition Piece_rotate (piece : Ref) (axis : config.Axis) : M unit :=
  fun w =>
    (Ok tt, mkWorld (alter (Piece.rotate axis) piece (heap w)) (cube w) (logged w)).

(** [self._logger.info(msg)], [self._logger.error(msg)] *)
Definition log_line (level : Level) (msg : string) : M unit :=
  fun w => (Ok tt, mkWorld (heap w) (cube w) (logged w ++ [(level, msg)])).

(** ** [class Rubik] *)

Module Rubik.

Definition setattr_size (v : Z) : M unit :=
  self <- self_ ;;
  set_self (mkRubik v (_coord_limit self) (_pieces self)).

Definition setattr_coord_limit (v : Z) : M unit :=
  self <- self_ ;;
  set_self (mkRubik (_size self) v (_pieces self)).

Definition setattr_pieces (v : PyDict.t Ref) : M unit :=
  self <- self_ ;;
  set_self (mkRubik (_size self) (_coord_limit self) v).

(** The three properties. *)
Definition coord_limit : M Z := self <- self_ ;; ret (_coord_limit self).
Definition size : M Z := self <- self_ ;; ret (_size self).
Definition pieces : M (PyDict.t Ref) := self <- self_ ;; ret (_pieces self).

(** [__getitem__]: [self.pieces[position]]. *)
Definition __getitem__ (position : Position.t) : M Ref :=
  d <- pieces ;;
  match PyDict.getitem d position with
  | Some piece => ret piece
  | None => raise KeyError
  end.

(** One [if ... elif ...] of [_get_init_piece_color]. *)
Definition shell_color (c limit : Z) (hi lo : config.Color)
  : option config.Color :=
  if c =? limit then Some hi
  else if c =? - limit then Some lo
  else None.

Definition _get_init_piece_color (position : Position.t)
  : M (option config.Color * option config.Color * option config.Color) :=
  limit <- coord_limit ;;
  let color_x :=
    shell_color (Position.__getattr__ position config.x) limit
                config.ORANGE config.RED in
  let color_y :=
    shell_color (Position.__getattr__ position config.y) limit
                config.YELLOW config.WHITE in
  let color_z :=
    shell_color (Position.__getattr__ position config.z) limit
                config.GREEN config.BLUE in
  ret (color_x, color_y, color_z).

Definition _generate_init_pieces : M unit :=
  limit <- coord_limit ;;
  let coordinate_range := py_range (- limit) (limit + 1) in
  for_in coordinate_range (fun x _ =>
    for_in coordinate_range (fun y _ =>
      for_in coordinate_range (fun z _ =>
        let position : Position.t := (x, y, z) in
        colors <- _get_init_piece_color position ;;
        piece <- new_Piece colors ;;
        d <- pieces ;;
        setattr_pieces (PyDict.setitem d position piece)) tt) tt) tt.

Definition __init__ (size : Z) : M unit :=
  setattr_size size ;;
  self <- self_ ;;
  setattr_coord_limit (_size self / 2) ;;
  setattr_pieces [] ;;
  _generate_init_pieces.

(** [l.index(v)], [None] standing for [ValueError]. *)
Fixpoint index (l : list Z) (v : Z) : option nat :=
  match l with
  | [] => None
  | a :: l' => if a =? v then Some O else option_map S (index l' v)
  end.

Definition triple_eqb (a b : Z * Z * Z) : bool := Position.eqb a b.

(** The [if direction == ... elif ...] chain; [None] when no branch
    binds [new_position]. *)
Definition new_position_for (direction : Z * Z * Z) (position : Position.t)
  : option Position.t :=
  let '(x, y, z) := position in
  if triple_eqb direction (1, 0, 0) then Some (x, z, - y)
  else if triple_eqb direction (-1, 0, 0) then Some (x, - z, y)
  else if triple_eqb direction (0, 1, 0) then Some (- z, y, x)
  else if triple_eqb direction (0, -1, 0) then Some (z, y, - x)
  else if triple_eqb direction (0, 0, 1) then Some (y, - x, z)
  else if triple_eqb direction (0, 0, -1) then Some (- y, x, z)
  else None.

(** [(-1)**inverse] *)
Definition minus_one_pow (inverse : bool) : Z := if inverse then -1 else 1.

(** The body of the loop of [_make_rotation].  [getattr(config, axis)]
    is [axis] again, the constant of that name. *)
Definition rotation_step (axis : config.Axis) (sign : Z)
  (rotation : Z * Z * Z) (inverse : bool)
  (item : Position.t * Ref) (new_pieces : PyDict.t Ref)
  : M (PyDict.t Ref) :=
  let '(position, piece) := item in
  limit <- coord_limit ;;
  if Position.__getattr__ position axis =? sign * limit then
    let '(rx, ry, rz) := rotation in
    let direction :=
      (rx * minus_one_pow inverse, ry * minus_one_pow inverse,
       rz * minus_one_pow inverse) in
    match new_position_for direction position with
    | Some new_position =>
        let new_pieces := PyDict.setitem new_pieces new_position piece in
        Piece_rotate piece axis ;;
        ret new_pieces
    | None => raise UnboundLocalError
    end
  else ret (PyDict.setitem new_pieces position piece).

Definition _make_rotation (rotation : Z * Z * Z) (inverse : bool) : M unit :=
  let '(rx, ry, rz) := rotation in
  match index [Z.abs rx; Z.abs ry; Z.abs rz] 1 with
  | None => raise ValueError
  | Some i =>
      let axis := nth i [config.x; config.y; config.z] config.z in
      let sign := rx + ry + rz in
      items <- pieces ;;
      new_pieces <- for_in items (rotation_step axis sign rotation inverse) [] ;;
      setattr_pieces new_pieces
  end.

Definition R : M unit := _make_rotation (1, 0, 0) false.
Definition Ri : M unit := _make_rotation (1, 0, 0) true.
Definition R2 : M unit := R ;; R.

Definition L : M unit := _make_rotation (-1, 0, 0) false.
Definition Li : M unit := _make_rotation (-1, 0, 0) true.
Definition L2 : M unit := L ;; L.

Definition F : M unit := _make_rotation (0, 0, 1) false.
Definition Fi : M unit := _make_rotation (0, 0, 1) true.
Definition F2 : M unit := F ;; F.

Definition B : M unit := _make_rotation (0, 0, -1) false.
Definition Bi : M unit := _make_rotation (0, 0, -1) true.
Definition B2 : M unit := B ;; B.

Definition U : M unit := _make_rotation (0, 1, 0) false.
Definition Ui : M unit := _make_rotation (0, 1, 0) true.
Definition U2 : M unit := U ;; U.

Definition D : M unit := _make_rotation (0, -1, 0) false.
Definition Di : M unit := _make_rotation (0, -1, 0) true.
Definition D2 : M unit := D ;; D.

End Rubik.

(** ** Attribute lookup on the cube

    [getattr(self._cube, move)()] finds whatever attribute of the
    instance carries the name, a move or not, and calls it without
    arguments. *)

Inductive Attr : Type :=
| Method0 (f : M unit)   (* callable without further arguments *)
| MethodArgs             (* a method with required parameters *)
| Value.                 (* an int, dict, str or None *)

(** The names [model.py] gives a [Rubik] instance: the attributes set
    in [__init__], the methods and the properties of the class. *)
Definition Rubik_attrs : list (string * Attr) :=
  [ ("_size", Value); ("_coord_limit", Value); ("_pieces", Value);
    ("__init__", MethodArgs); ("__getitem__", MethodArgs);
    ("_get_init_piece_color", MethodArgs);
    ("_generate_init_pieces", Method0 Rubik._generate_init_pieces);
    ("_make_rotation", MethodArgs);
    ("coord_limit", Value); ("size", Value); ("pieces", Value);
    ("R", Method0 Rubik.R); ("Ri", Method0 Rubik.Ri); ("R2", Method0 Rubik.R2);
    ("L", Method0 Rubik.L); ("Li", Method0 Rubik.Li); ("L2", Method0 Rubik.L2);
    ("F", Method0 Rubik.F); ("Fi", Method0 Rubik.Fi); ("F2", Method0 Rubik.F2);
    ("B", Method0 Rubik.B); ("Bi", Method0 Rubik.Bi); ("B2", Method0 Rubik.B2);
    ("U", Method0 Rubik.U); ("Ui", Method0 Rubik.Ui); ("U2", Method0 Rubik.U2);
    ("D", Method0 Rubik.D); ("Di", Method0 Rubik.Di); ("D2", Method0 Rubik.D2) ].

(** The names every instance inherits from [object] (CPython 3), with
    what a call without arguments meets: those that accept it compute a
    value from the instance and change nothing. *)
Definition object_attrs : list (string * Attr) :=
  [ ("__class__", MethodArgs); ("__delattr__", MethodArgs);
    ("__dict__", Value); ("__dir__", Method0 (ret tt));
    ("__doc__", Value); ("__eq__", MethodArgs); ("__format__", MethodArgs);
    ("__ge__", MethodArgs); ("__getattribute__", MethodArgs);
    ("__getstate__", Method0 (ret tt)); ("__gt__", MethodArgs);
    ("__hash__", Method0 (ret tt)); ("__init_subclass__", Method0 (ret tt));
    ("__le__", MethodArgs); ("__lt__", MethodArgs); ("__module__", Value);
    ("__ne__", MethodArgs); ("__new__", MethodArgs);
    ("__reduce__", Method0 (ret tt)); ("__reduce_ex__", MethodArgs);
    ("__repr__", Method0 (ret tt)); ("__setattr__", MethodArgs);
    ("__sizeof__", Method0 (ret tt)); ("__str__", Method0 (ret tt));
    ("__subclasshook__", Method0 (ret tt)); ("__weakref__", Value) ].

Fixpoint assoc (name : string) (table : list (string * Attr)) : option Attr :=
  match table with
  | [] => None
  | (n, a) :: table' => if String.eqb n name then Some a else assoc name table'
  end.

(** [getattr(cube, name)] *)
Definition getattr (name : string) : M Attr :=
  match assoc name (Rubik_attrs ++ object_attrs) with
  | Some a => ret a
  | None => raise AttributeError
  end.

(** [a()] *)
Definition call0 (a : Attr) : M unit :=
  match a with
  | Method0 f => f
  | MethodArgs => raise TypeError
  | Value => raise TypeError
  end.

(** [str.split()]: the maximal runs of characters that are not white
    space.  A string is the sequence of its code points, all below 256
    here; the white space among them is what [str.isspace] accepts
    there: 9 to 13, 28 to 32, U+0085 and U+00A0. *)
Definition isspace (c : ascii) : bool :=
  let n := nat_of_ascii c in
  ((9 <=? n) && (n <=? 13) || (28 <=? n) && (n <=? 32)
   || (n =? 133) || (n =? 160))%nat.

Fixpoint split_from (s : string) (word : string) : list string :=
  match s with
  | EmptyString => if String.eqb word "" then [] else [word]
  | String c s' =>
      if isspace c then
        if String.eqb word "" then split_from s' ""
        else word :: split_from s' ""
      else split_from s' (String.append word (String c EmptyString))
  end.

Definition split (s : string) : list string := split_from s "".

(** ** [class Controller] *)

Module Controller.

(** [self._cube] is the cube of the world; the view and the logger
    set-up of [__init__] reach no state of the model. *)

Definition apply_notation (notation : string) : M unit :=
  for_in (split notation)
         (fun move _ => a <- getattr move ;; call0 a) tt.

Definition chess_pattern : M unit :=
  apply_notation "R2 L2 B2 F2 U2 D2".

Definition make_move_callback (move : string) : M bool :=
  try_except
    (log_line INFO (String.append "Calling instruction: " move) ;;
     a <- getattr move ;;
     call0 a ;;
     ret true)
    AttributeError
    (log_line ERROR (String.append "Invalid instruction: " move) ;;
     ret false).

End Controller.

(** The store before anything is built: no piece, and an instance whose
    attributes [__init__] has yet to assign. *)
Definition empty_world : World := mkWorld [] (mkRubik 0 0 []) [].

(** [Rubik(size)] *)
Definition new_cube (size : Z) : Outcome unit * World :=
  Rubik.__init__ size empty_world.


#[global] Instance Level_eq_dec : EqDecision Level.
Proof. solve_decision. Defined.
#[global] Instance Color_eq_dec : EqDecision config.Color.
Proof. solve_decision. Defined.
#[global] Instance Piece_eq_dec : EqDecision Piece.t.
Proof. solve_decision. Defined.
#[global] Instance RubikObj_eq_dec : EqDecision RubikObj.
Proof. solve_decision. Defined.
#[global] Instance World_eq_dec : EqDecision World.
Proof. solve_decision. Defined.


(** ** The eighteen named moves *)

Inductive Face : Set := fR | fL | fU | fD | fF | fB.

Inductive Turn : Set := quarter | inverse | double.

Definition Move : Set := Face * Turn.

(** The method of [Rubik] a move names. *)
Definition method (m : Move) : M unit :=
  match m with
  | (fR, quarter) => Rubik.R | (fR, inverse) => Rubik.Ri | (fR, double) => Rubik.R2
  | (fL, quarter) => Rubik.L | (fL, inverse) => Rubik.Li | (fL, double) => Rubik.L2
  | (fU, quarter) => Rubik.U | (fU, inverse) => Rubik.Ui | (fU, double) => Rubik.U2
  | (fD, quarter) => Rubik.D | (fD, inverse) => Rubik.Di | (fD, double) => Rubik.D2
  | (fF, quarter) => Rubik.F | (fF, inverse) => Rubik.Fi | (fF, double) => Rubik.F2
  | (fB, quarter) => Rubik.B | (fB, inverse) => Rubik.Bi | (fB, double) => Rubik.B2
  end.

(** Its name, the token that dispatches to it. *)
Definition name (m : Move) : string :=
  String.append
    match fst m with
    | fR => "R" | fL => "L" | fU => "U" | fD => "D" | fF => "F" | fB => "B"
    end
    match snd m with quarter => "" | inverse => "i" | double => "2" end.

Definition all_moves : list Move :=
  f ← [fR; fL; fU; fD; fF; fB]; t ← [quarter; inverse; double]; [(f, t)].

(** A token is a move name when it is one of the eighteen. *)
Definition is_move_name (token : string) : bool :=
  existsb (fun m => String.eqb (name m) token) all_moves.

Fixpoint apply_moves (ms : list Move) : M unit :=
  match ms with
  | [] => ret tt
  | m :: ms' => method m ;; apply_moves ms'
  end.

(** The states a cube of the given size goes through: as built, and
    after each named move. *)
Inductive reachable (size : Z) : World -> Prop :=
| reach_new w : new_cube size = (Ok tt, w) -> reachable size w
| reach_move w m w' :
    reachable size w -> method m w = (Ok tt, w') -> reachable size w'.

Definition odd_positive (size : Z) : Prop := 0 < size /\ Z.odd size = true.

(** [size // 2] *)
Definition limit_of (size : Z) : Z := size / 2.

(** Membership in [[-limit, limit]^3]. *)
Definition in_cube (limit : Z) (p : Position.t) : bool :=
  let '(x, y, z) := p in
  (- limit <=? x) && (x <=? limit) && (- limit <=? y) && (y <=? limit)
  && (- limit <=? z) && (z <=? limit).

(** How many entries of a dictionary carry the key [p]. *)
Definition entries_at (d : PyDict.t Ref) (p : Position.t) : nat :=
  length (filter (fun e => Position.eqb (fst e) p = true) d).

(** The piece object stored at a position, if any. *)
Definition piece_at (w : World) (p : Position.t) : option Piece.t :=
  r ← PyDict.getitem (_pieces (cube w)) p; heap w !! r.

(** ** What a quarter turn does, as a function *)

Definition vec (f : Face) : Z * Z * Z :=
  match f with
  | fR => (1, 0, 0) | fL => (-1, 0, 0)
  | fU => (0, 1, 0) | fD => (0, -1, 0)
  | fF => (0, 0, 1) | fB => (0, 0, -1)
  end.

Definition axis_of (f : Face) : config.Axis :=
  match f with
  | fR | fL => config.x
  | fU | fD => config.y
  | fF | fB => config.z
  end.

Definition sign_of (f : Face) : Z :=
  match f with fR | fU | fF => 1 | fL | fD | fB => -1 end.

(** Where the turn of face [f] (reversed when [inv]) sends a position
    of its slice. *)
Definition rot (f : Face) (inv : bool) (p : Position.t) : Position.t :=
  let '(x, y, z) := p in
  match f, inv with
  | fR, false | fL, true => (x, z, - y)
  | fL, false | fR, true => (x, - z, y)
  | fU, false | fD, true => (- z, y, x)
  | fD, false | fU, true => (z, y, - x)
  | fF, false | fB, true => (y, - x, z)
  | fB, false | fF, true => (- y, x, z)
  end.

Section Slice.
Variables (axis : config.Axis) (c : Z) (rho : Position.t -> Position.t).

Definition selected (p : Position.t) : bool :=
  Position.__getattr__ p axis =? c.

Definition rekey (p : Position.t) : Position.t :=
  if selected p then rho p else p.

(** The dictionary the loop fills, from [acc]. *)
Definition rebuild (acc d : PyDict.t Ref) : PyDict.t Ref :=
  foldl (fun acc e => PyDict.setitem acc (rekey (fst e)) (snd e)) acc d.

(** The same entries in the same order, the keys of the slice moved. *)
Definition turn_dict (d : PyDict.t Ref) : PyDict.t Ref :=
  (fun e => (rekey (fst e), snd e)) <$> d.

(** The store once every piece of the slice has been rotated. *)
Definition turn_heap (d : PyDict.t Ref) (h : list Piece.t) : list Piece.t :=
  foldl (fun h e =>
           if selected (fst e) then alter (Piece.rotate axis) (snd e) h else h)
        h d.
End Slice.

(** The world after the quarter turn of face [f], reversed when [inv]. *)
Definition turn (f : Face) (inv : bool) (w : World) : World :=
  let c := sign_of f * _coord_limit (cube w) in
  mkWorld
    (turn_heap (axis_of f) c (_pieces (cube w)) (heap w))
    (mkRubik (_size (cube w)) (_coord_limit (cube w))
             (turn_dict (axis_of f) c (rot f inv) (_pieces (cube w))))
    (logged w).


(** The world after a named move. *)
Definition move_effect (m : Move) (w : World) : World :=
  match m with
  | (f, quarter) => turn f false w
  | (f, inverse) => turn f true w
  | (f, double) => turn f false (turn f false w)
  end.

(** ** The cube as built *)

(** The labels [_get_init_piece_color] gives the piece of a position. *)
Definition init_piece (limit : Z) (p : Position.t) : Piece.t :=
  let '(x, y, z) := p in
  Piece.mk (Rubik.shell_color x limit config.ORANGE config.RED)
           (Rubik.shell_color y limit config.YELLOW config.WHITE)
           (Rubik.shell_color z limit config.GREEN config.BLUE).

(** One pass through the innermost body of [_generate_init_pieces]. *)
Definition place (p : Position.t) (w : World) : World :=
  mkWorld
    (heap w ++ [init_piece (_coord_limit (cube w)) p])
    (mkRubik (_size (cube w)) (_coord_limit (cube w))
             (PyDict.setitem (_pieces (cube w)) p (length (heap w))))
    (logged w).

(** The positions in the order the three loops visit them. *)
Definition cube_positions (limit : Z) : list Position.t :=
  let coordinate_range := py_range (- limit) (limit + 1) in
  x ← coordinate_range; y ← coordinate_range; z ← coordinate_range;
  [(x, y, z)].

(** The world [Rubik(size)] leaves. *)
Definition built (size : Z) : World :=
  let ps := cube_positions (limit_of size) in
  mkWorld (init_piece (limit_of size) <$> ps)
          (mkRubik size (limit_of size) (zip ps (seq 0 (length ps))))
          [].

(** A quarter turn in either direction: one of the twelve moves without
    the suffix [2]. *)
Definition quarter_turn (m : Move) : Prop :=
  snd m = quarter \/ snd m = inverse.

(** The rule of the solved coloring on one axis: [hi] on the face at
    [+limit], [lo] on the face at [-limit], no label in between.  On a
    cube of size 1 the limit is 0, the two faces share their coordinate,
    and the first clause decides. *)
Definition shell_rule (c limit : Z) (hi lo : config.Color)
  (label : option config.Color) : Prop :=
  (c = limit -> label = Some hi) /\
  (c = - limit -> limit <> 0 -> label = Some lo) /\
  (c <> limit -> c <> - limit -> label = None).

(** The rule as the specification words it, each clause on its own:
    [hi] if the coordinate is [+limit], [lo] if it is [-limit], absent
    otherwise. *)
Definition stated_rule (c limit : Z) (hi lo : config.Color)
  (label : option config.Color) : Prop :=
  (c = limit -> label = Some hi) /\
  (c = - limit -> label = Some lo) /\
  (c <> limit -> c <> - limit -> label = None).

(** ** The pieces of the size-3 cube *)

(** How many coordinates of a position are 0: none for a corner, one
    for an edge, two for a face center, three for the cube center. *)
Definition zero_coords (p : Position.t) : nat :=
  let '(x, y, z) := p in
  ((if Z.eqb x 0 then 1 else 0) + (if Z.eqb y 0 then 1 else 0)
   + (if Z.eqb z 0 then 1 else 0))%nat.

(** The slot opposite to a position through the center of the cube. *)
Definition opposite (p : Position.t) : Position.t :=
  let '(x, y, z) := p in (- x, - y, - z).

(** Where the chess pattern takes the piece of a slot: an edge to the
    opposite edge, any other piece nowhere. *)
Definition chess_image (p : Position.t) : Position.t :=
  if Nat.eqb (zero_coords p) 1 then opposite p else p.

(** [R U Ri Ui] *)
Definition commutator : list Move :=
  [(fR, quarter); (fU, quarter); (fR, inverse); (fU, inverse)].

(** The tokens of a notation, applied in order: the loop of
    [apply_notation]. *)
Definition apply_tokens (tokens : list string) : M unit :=
  for_in tokens (fun move _ => a <- getattr move ;; call0 a) tt.

(** ** Further vocabulary *)


(** Two pieces carry the same labels, in whatever order. *)
Definition same_colors (pc pc' : Piece.t) : Prop :=
  [Piece.x pc; Piece.y pc; Piece.z pc]
    ≡ₚ [Piece.x pc'; Piece.y pc'; Piece.z pc'].

(** The notation of a sequence of moves: their names, one blank in
    between. *)
Fixpoint joined (ms : list Move) : string :=
  match ms with
  | [] => ""
  | [m] => name m
  | m :: ms' => String.append (name m) (String " " (joined ms'))
  end.

(** A position no turn takes anywhere else: strictly inside the cube,
    or on at most one axis (a face center, the cube center, the core
    between them). *)
Definition still (limit : Z) (p : Position.t) : bool :=
  let '(x, y, z) := p in
  ((Z.abs x <? limit) && (Z.abs y <? limit) && (Z.abs z <? limit))
  || (2 <=? zero_coords p)%nat.

(** A notation of white space only, the empty one included. *)
Fixpoint blank (s : string) : bool :=
  match s with
  | EmptyString => true
  | String c s' => isspace c && blank s'
  end.

(** The same pieces and cube, another log. *)
Definition with_log (w : World) (lg : list (Level * string)) : World :=
  mkWorld (heap w) (cube w) lg.

(** What a call without arguments of an attribute can do. *)
Definition returns_or_refuses (a : Attr) : Prop :=
  match a with
  | Method0 f => forall w, exists w', f w = (Ok tt, w')
  | MethodArgs | Value => True
  end.

(** The [direction] of the loop of [_make_rotation]: the rotation
    vector, reversed when [inverse]. *)
Definition direction_of (rotation : Z * Z * Z) (inverse : bool) : Z * Z * Z :=
  let '(rx, ry, rz) := rotation in
  (rx * Rubik.minus_one_pow inverse, ry * Rubik.minus_one_pow inverse,
   rz * Rubik.minus_one_pow inverse).

(** ** [view.py]: the terminal view

    The side identifiers and [config.BLACK] belong to [config.py], which
    is not among the sources.  The six sides are parameters, compared
    with [==] as the code does; a cell of the printed matrix records
    whether it holds [config.BLACK] or the label a piece put there. *)

Class Sides (Side : Type) : Type := {
  Side_eq_dec :: EqDecision Side;
  FRONT : Side; BACK : Side; UP : Side; DOWN : Side;
  LEFT : Side; RIGHT : Side
}.

(** The six identifiers are six values. *)
Definition distinct_sides `{Sides Side} : Prop :=
  NoDup [FRONT; BACK; UP; DOWN; LEFT; RIGHT].

Inductive Cell : Set :=
| BLACK
| Shown (label : option config.Color).

(** What the views can raise.  [Dangling] is no exception of Python: it
    stands for a reference to no object, which a dictionary of Python
    cannot hold. *)
Inductive ViewExn : Set := IndexError | Unbound | Dangling.

(** [l[i]] as an index into a list of length [n]: negative indices
    count from the end, and [None] stands for [IndexError]. *)
Definition py_index (n : nat) (i : Z) : option nat :=
  if (0 <=? i) && (i <? Z.of_nat n) then Some (Z.to_nat i)
  else if (- Z.of_nat n <=? i) && (i <? 0) then Some (Z.to_nat (Z.of_nat n + i))
  else None.

(** [char_matrix[row][col] = v] *)
Definition set_cell (m : list (list Cell)) (row col : Z) (v : Cell)
  : option (list (list Cell)) :=
  i ← py_index (length m) row;
  line ← m !! i;
  j ← py_index (length line) col;
  Some (<[i := <[j := v]> line]> m).

(** [char_matrix[row][col]] *)
Definition get_cell (m : list (list Cell)) (row col : Z) : option Cell :=
  i ← py_index (length m) row;
  line ← m !! i;
  j ← py_index (length line) col;
  line !! j.

(** Sequencing for code that may raise. *)
Definition and_then {A B} (r : ViewExn + A) (k : A -> ViewExn + B)
  : ViewExn + B :=
  match r with
  | inl e => inl e
  | inr a => k a
  end.

Notation "v <~ r ;; k" := (and_then r (fun v => k))
  (at level 100, r at next level, right associativity) : py_scope.

Module Cli.
Section Cli.
Context {Side : Type} {sides : Sides Side}.

(** [_get_piece_position_in_matrix]: six [if]s in a row, each assigning
    [start_x] and [start_y]; [None] when none has bound them. *)
Definition _get_piece_position_in_matrix
  (w : World) (side : Side) (x y : Z) : option (Z * Z) :=
  let size := _size (cube w) in
  let start : option (Z * Z) := None in
  let start := if decide (side = FRONT) then Some (size, size) else start in
  let start := if decide (side = BACK) then Some (size, size * 3) else start in
  let start := if decide (side = UP) then Some (size, 0) else start in
  let start := if decide (side = DOWN) then Some (size, size * 2) else start in
  let start := if decide (side = LEFT) then Some (0, size) else start in
  let start := if decide (side = RIGHT) then Some (size * 2, size) else start in
  match start with
  | Some (start_x, start_y) =>
      Some (start_x + x + _coord_limit (cube w),
            start_y + y + _coord_limit (cube w))
  | None => None
  end.

(** The empty matrix of [refresh_cube]: [size * 4] rows of [size * 3]
    cells. *)
Definition empty_matrix (w : World) : list (list Cell) :=
  (fun _ => (fun _ => BLACK) <$> py_range 0 (_size (cube w) * 3))
    <$> py_range 0 (_size (cube w) * 4).

(** One [if] of the loop of [refresh_cube] with its two statements. *)
Definition paint (w : World) (cond : bool) (side : Side) (x y : Z)
  (label : option config.Color) (char_matrix : list (list Cell))
  : ViewExn + list (list Cell) :=
  if cond then
    match _get_piece_position_in_matrix w side x y with
    | None => inl Unbound
    | Some (col, row) =>
        match set_cell char_matrix row col (Shown label) with
        | Some char_matrix' => inr char_matrix'
        | None => inl IndexError
        end
    end
  else inr char_matrix.

(** The body of the loop of [refresh_cube] for one item. *)
Definition refresh_step (w : World) (char_matrix : list (list Cell))
  (item : Position.t * Ref) : ViewExn + list (list Cell) :=
  let '((x, y, z), piece) := item in
  let limit := _coord_limit (cube w) in
  match heap w !! piece with
  | None => inl Dangling
  | Some pc =>
      m <~ paint w (z =? limit) FRONT x (- y) (Piece.z pc) char_matrix ;;
      m <~ paint w (z =? - limit) BACK x y (Piece.z pc) m ;;
      m <~ paint w (y =? limit) UP x z (Piece.y pc) m ;;
      m <~ paint w (y =? - limit) DOWN x (- z) (Piece.y pc) m ;;
      m <~ paint w (x =? - limit) LEFT z (- y) (Piece.x pc) m ;;
      paint w (x =? limit) RIGHT (- z) (- y) (Piece.x pc) m
  end.

(** [refresh_cube]: the matrix it prints, row by row. *)
Definition refresh_cube (w : World) : ViewExn + list (list Cell) :=
  foldl (fun acc item => m <~ acc ;; refresh_step w m item)
        (inr (empty_matrix w)) (_pieces (cube w)).

End Cli.
End Cli.

(** ** The printed matrix, cell by cell *)

(** A matrix of [rows] lines of [cols] cells. *)
Definition shape (rows cols : nat) (m : list (list Cell)) : Prop :=
  length m = rows /\ Forall (fun line => length line = cols) m.

(** The cell in line [i], column [j], counted from 0. *)
Definition cell_at (m : list (list Cell)) (i j : nat) : option Cell :=
  line ← m !! i; line !! j.

(** An assignment [char_matrix[row][col] = v]. *)
Definition Write : Type := Z * Z * Cell.

(** The assignments of one pass through the loop of [refresh_cube], in
    their order, for the piece [pc] at [(x, y, z)]. *)
Definition writes_of (size limit : Z) (p : Position.t) (pc : Piece.t)
  : list Write :=
  let '(x, y, z) := p in
  (if z =? limit
   then [(size + - y + limit, size + x + limit, Shown (Piece.z pc))] else [])
  ++ (if z =? - limit
      then [(size * 3 + y + limit, size + x + limit, Shown (Piece.z pc))]
      else [])
  ++ (if y =? limit
      then [(0 + z + limit, size + x + limit, Shown (Piece.y pc))] else [])
  ++ (if y =? - limit
      then [(size * 2 + - z + limit, size + x + limit, Shown (Piece.y pc))]
      else [])
  ++ (if x =? - limit
      then [(size + - y + limit, 0 + z + limit, Shown (Piece.x pc))] else [])
  ++ (if x =? limit
      then [(size + - y + limit, size * 2 + - z + limit, Shown (Piece.x pc))]
      else []).

(** Assignments made one after the other, until one raises. *)
Definition apply_writes (m : list (list Cell)) (ws : list Write)
  : ViewExn + list (list Cell) :=
  foldl (fun acc wr =>
           m <~ acc ;;
           match set_cell m (fst (fst wr)) (snd (fst wr)) (snd wr) with
           | Some m' => inr m'
           | None => inl IndexError
           end)
        (inr m) ws.

(** All the assignments of [refresh_cube] on a world. *)
Definition all_writes (w : World) : list Write :=
  e ← _pieces (cube w);
  match heap w !! snd e with
  | Some pc => writes_of (_size (cube w)) (_coord_limit (cube w)) (fst e) pc
  | None => []
  end.

(** A write inside a matrix of the given shape. *)
Definition inside (rows cols : nat) (wr : Write) : Prop :=
  0 <= fst (fst wr) < Z.of_nat rows /\ 0 <= snd (fst wr) < Z.of_nat cols.

(** Six side identifiers to run the views with. *)
Definition numbered_sides : Sides nat :=
  {| FRONT := 0%nat; BACK := 1%nat; UP := 2%nat; DOWN := 3%nat;
     LEFT := 4%nat; RIGHT := 5%nat |}.

(** ** [view.py]: the window view

    The canvas of Tk is the list of the rectangles created on it, the
    oldest first.  [_make_move_cb] is the callback [start] receives. *)

Inductive GuiExn : Set :=
| NameError
| Py (e : PyExn)
| NoObject.    (* a reference to no object: Python has none *)

Record Rect : Set := mkRect {
  rect_x0 : Z; rect_y0 : Z; rect_x1 : Z; rect_y1 : Z;
  fill : string
}.

Module Gui.

(** [TILE_SIZE] *)
Definition TILE_SIZE : Z := 80.

(** [COLOR_MAP[label]], [None] standing for [KeyError]. *)
Definition COLOR_MAP (label : option config.Color) : option string :=
  match label with
  | Some config.RED => Some "red"
  | Some config.GREEN => Some "green"
  | Some config.BLUE => Some "blue"
  | Some config.ORANGE => Some "orange"
  | Some config.YELLOW => Some "yellow"
  | Some config.WHITE => Some "white"
  | None => None
  end.

Section Gui.
Context {Side : Type} {sides : Sides Side}.

(** The attributes of the view that its handlers read and assign. *)
Record t : Type := mk {
  _last_tile : option (Z * Z);
  _side : Side;
  _canvas : list Rect
}.

(** A handler runs on the view and the world and leaves both, also
    when it raises. *)
Definition G (A : Type) : Type := t -> World -> (GuiExn + A) * t * World.

Definition gret {A} (a : A) : G A := fun g w => (inr a, g, w).

Definition gbind {A B} (m : G A) (k : A -> G B) : G B :=
  fun g w =>
    match m g w with
    | (inr a, g', w') => k a g' w'
    | (inl e, g', w') => (inl e, g', w')
    end.

Definition graise {A} (e : GuiExn) : G A := fun g w => (inl e, g, w).

(** A method of the model or the controller, called from the view. *)
Definition call {A} (m : M A) : G A :=
  fun g w =>
    match m w with
    | (Ok a, w') => (inr a, g, w')
    | (Raise e, w') => (inl (Py e), g, w')
    end.

Definition self_view : G t := fun g w => (inr g, g, w).

Definition set_last_tile (v : option (Z * Z)) : G unit :=
  fun g w => (inr tt, mk v (_side g) (_canvas g), w).

Definition set_side (v : Side) : G unit :=
  fun g w => (inr tt, mk (_last_tile g) v (_canvas g), w).

(** [self._canvas.create_rectangle(x0, y0, x1, y1, fill=color)] *)
Definition create_rectangle (x0 y0 x1 y1 : Z) (color : string) : G unit :=
  fun g w =>
    (inr tt,
     mk (_last_tile g) (_side g) (_canvas g ++ [mkRect x0 y0 x1 y1 color]),
     w).

(** The first tile of a row of the search that contains the point:
    the inner loop of [_get_tile_at_position] with its [return]. *)
Definition tile_hit (x y tile_x tile_y : Z) : bool :=
  (tile_x * TILE_SIZE <? x) && (x <? tile_x * TILE_SIZE + TILE_SIZE)
  && (tile_y * TILE_SIZE <? y) && (y <? tile_y * TILE_SIZE + TILE_SIZE).

(** [for a in xs: ... return b]: the first value returned, [None] when
    the loop runs to its end. *)
Fixpoint first_return {A B} (xs : list A) (body : A -> option B) : option B :=
  match xs with
  | [] => None
  | a :: xs' =>
      match body a with
      | Some b => Some b
      | None => first_return xs' body
      end
  end.

Definition _get_tile_at_position (x y : Z) : G (option (Z * Z)) :=
  gbind (call Rubik.size) (fun size =>
  gret (first_return (py_range 0 size) (fun tile_x =>
          first_return (py_range 0 size) (fun tile_y =>
            if tile_hit x y tile_x tile_y then Some (tile_x, tile_y)
            else None)))).

Definition _on_mouse_down (event_x event_y : Z) : G unit :=
  gbind (_get_tile_at_position event_x event_y) set_last_tile.

(** [_draw_rect] *)
Definition _draw_rect (x y : Z) (color : string) : G unit :=
  gbind (call Rubik.coord_limit) (fun limit =>
  let x := x + limit in
  gbind (call Rubik.coord_limit) (fun limit =>
  let y := y + limit in
  create_rectangle (x * TILE_SIZE) (y * TILE_SIZE)
                   (x * TILE_SIZE + TILE_SIZE) (y * TILE_SIZE + TILE_SIZE)
                   color)).

(** One [if ...: self._draw_rect(...); continue] of [refresh_cube]:
    [true] when the branch was taken. *)
Definition draw_if (cond : bool) (x y : Z) (label : option config.Color)
  : G bool :=
  if cond then
    match COLOR_MAP label with
    | Some color => gbind (_draw_rect x y color) (fun _ => gret true)
    | None => graise (Py KeyError)
    end
  else gret false.

(** Branches tried in order until one is taken. *)
Fixpoint first_taken (branches : list (G bool)) : G unit :=
  match branches with
  | [] => gret tt
  | b :: branches' =>
      gbind b (fun taken => if taken then gret tt else first_taken branches')
  end.

(** The body of the loop of [refresh_cube] for one item. *)
Definition refresh_step (item : Position.t * Ref) : G unit :=
  let '((x, y, z), piece) := item in
  fun g w =>
    match heap w !! piece with
    | None => (inl NoObject, g, w)
    | Some pc =>
        let side := _side g in
        let limit := _coord_limit (cube w) in
        first_taken
          [ draw_if (bool_decide (side = FRONT) && (z =? limit))
                    x (- y) (Piece.z pc);
            draw_if (bool_decide (side = BACK) && (z =? - limit))
                    (- x) (- y) (Piece.z pc);
            draw_if (bool_decide (side = UP) && (y =? limit))
                    x z (Piece.y pc);
            draw_if (bool_decide (side = DOWN) && (y =? - limit))
                    x (- z) (Piece.y pc);
            draw_if (bool_decide (side = LEFT) && (x =? - limit))
                    z (- y) (Piece.x pc);
            draw_if (bool_decide (side = RIGHT) && (x =? limit))
                    (- z) (- y) (Piece.x pc) ] g w
    end.

Fixpoint for_each {A} (xs : list A) (body : A -> G unit) : G unit :=
  match xs with
  | [] => gret tt
  | a :: xs' => gbind (body a) (fun _ => for_each xs' body)
  end.

Definition refresh_cube : G unit :=
  gbind (call Rubik.pieces) (fun items => for_each items refresh_step).

Definition _on_change_side (side : Side) : G unit :=
  gbind (set_side side) (fun _ => refresh_cube).

(** [tile == (a, b)] and [tile in [...]], for a tile or [None]. *)
Definition tile_is (tile : option (Z * Z)) (a b : Z) : bool :=
  bool_decide (tile = Some (a, b)).

Definition tile_in (tile : option (Z * Z)) (tiles : list (Z * Z)) : bool :=
  existsb (fun v => bool_decide (tile = Some v)) tiles.

Section Handlers.
(** [self._make_move_cb] *)
Variable _make_move_cb : string -> M bool.

(** [if self._side in (...): self._make_move_cb(move)] *)
Definition side_move (among : list Side) (move : string) : G unit :=
  gbind self_view (fun self =>
  if existsb (fun v => bool_decide (_side self = v)) among
  then gbind (call (_make_move_cb move)) (fun _ => gret tt)
  else gret tt).

Definition then_ (a b : G unit) : G unit := gbind a (fun _ => b).

(** The chain of [if ... elif ...] of [_on_mouse_up]. *)
Definition drag (last this_tile : option (Z * Z)) : G unit :=
  if tile_is last 0 0 && tile_in this_tile [(1, 0); (2, 0)]
     || tile_is last 1 0 && tile_is this_tile 2 0 then
    then_ (side_move [FRONT; BACK; LEFT; RIGHT] "Ui")
   (then_ (side_move [UP] "Bi") (side_move [DOWN] "Fi"))
  else if tile_is last 2 0 && tile_in this_tile [(1, 0); (0, 0)]
          || tile_is last 1 0 && tile_is this_tile 0 0 then
    then_ (side_move [FRONT; BACK; LEFT; RIGHT] "U")
   (then_ (side_move [UP] "B") (side_move [DOWN] "F"))
  else if tile_is last 0 0 && tile_in this_tile [(0, 1); (0, 2)]
          || tile_is last 0 1 && tile_is this_tile 0 2 then
    then_ (side_move [FRONT; UP; BACK; DOWN] "L")
   (then_ (side_move [LEFT] "B") (side_move [RIGHT] "F"))
  else if tile_is last 0 2 && tile_in this_tile [(0, 1); (0, 0)]
          || tile_is last 0 1 && tile_is this_tile 0 0 then
    then_ (side_move [FRONT; UP; BACK; DOWN] "Li")
   (then_ (side_move [LEFT] "Bi") (side_move [RIGHT] "Fi"))
  else if tile_is last 0 2 && tile_in this_tile [(1, 2); (2, 2)]
          || tile_is last 1 2 && tile_is this_tile 2 2 then
    then_ (side_move [FRONT; LEFT; RIGHT; BACK] "D")
   (then_ (side_move [UP] "F") (side_move [DOWN] "B"))
  else if tile_is last 2 2 && tile_in this_tile [(1, 2); (0, 2)]
          || tile_is last 1 2 && tile_is this_tile 0 2 then
    then_ (side_move [FRONT; LEFT; RIGHT; BACK] "Di")
   (then_ (side_move [UP] "Fi") (side_move [DOWN] "Bi"))
  else if tile_is last 2 0 && tile_in this_tile [(2, 1); (2, 2)]
          || tile_is last 2 1 && tile_is this_tile 2 2 then
    then_ (side_move [FRONT; UP; DOWN] "Ri")
   (then_ (side_move [BACK] "Li")
   (then_ (side_move [LEFT] "Fi") (side_move [RIGHT] "Bi")))
  else if tile_is last 2 2 && tile_in this_tile [(2, 1); (2, 0)] then
    then_ (side_move [FRONT; UP; DOWN] "R")
   (then_ (side_move [BACK] "L")
   (then_ (side_move [LEFT] "F") (side_move [RIGHT] "B")))
  else if tile_is last 2 1 then
    (* [this_tile == (2, o)]: the name [o] is bound nowhere *)
    graise NameError
  else gret tt.

Definition _on_mouse_up (event_x event_y : Z) : G unit :=
  gbind self_view (fun self =>
  match _last_tile self with
  | None => gret tt
  | Some _ =>
      gbind (_get_tile_at_position event_x event_y) (fun this_tile =>
      gbind self_view (fun self =>
      then_ (drag (_last_tile self) this_tile)
     (then_ refresh_cube (set_last_tile None))))
  end).

End Handlers.

End Gui.
End Gui.


(** The square of 80 by 80 of the tile [(tile_x, tile_y)]. *)
Definition square (tile_x tile_y : Z) (color : string) : Rect :=
  mkRect (tile_x * 80) (tile_y * 80) (tile_x * 80 + 80) (tile_y * 80 + 80)
         color.

#[global] Instance Face_eq_dec : EqDecision Face.
Proof. solve_decision. Defined.

(** The six branches of [Gui.refresh_cube] as a table over the faces:
    the side that shows the face, the layer it selects, the tile of a
    position before the shift by the limit, the label it draws. *)
Definition side_of `{Sides Side} (f : Face) : Side :=
  match f with
  | fF => FRONT | fB => BACK | fU => UP | fD => DOWN | fL => LEFT | fR => RIGHT
  end.

Definition on_face (limit : Z) (f : Face) (p : Position.t) : bool :=
  let '(x, y, z) := p in
  match f with
  | fF => z =? limit | fB => z =? - limit
  | fU => y =? limit | fD => y =? - limit
  | fL => x =? - limit | fR => x =? limit
  end.

Definition tile_on (f : Face) (p : Position.t) : Z * Z :=
  let '(x, y, z) := p in
  match f with
  | fF => (x, - y) | fB => (- x, - y)
  | fU => (x, z) | fD => (x, - z)
  | fL => (z, - y) | fR => (- z, - y)
  end.

Definition label_on (f : Face) (pc : Piece.t) : option config.Color :=
  match f with
  | fF | fB => Piece.z pc
  | fU | fD => Piece.y pc
  | fL | fR => Piece.x pc
  end.

(** What one item of the dictionary adds to the canvas of a view of
    the face [f]. *)
Definition drawn (limit : Z) (f : Face) (hp : list Piece.t)
           (item : Position.t * Ref) : list Rect :=
  if on_face limit f (fst item) then
    match hp !! snd item with
    | Some pc =>
        match Gui.COLOR_MAP (label_on f pc) with
        | Some color =>
            [square (fst (tile_on f (fst item)) + limit)
                    (snd (tile_on f (fst item)) + limit) color]
        | None => []
        end
    | None => []
    end
  else [].

(** The view with more rectangles on its canvas. *)
Definition add_rects {Side} (g : Gui.t (Side := Side)) (rs : list Rect)
  : Gui.t (Side := Side) :=
  Gui.mk (Gui._last_tile g) (Gui._side g) (Gui._canvas g ++ rs).

(** The point of a face shown on a tile, before the shift. *)
Definition position_on (limit : Z) (f : Face) (t : Z * Z) : Position.t :=
  let '(u, v) := t in
  match f with
  | fF => (u, - v, limit) | fB => (- u, - v, - limit)
  | fU => (u, limit, v) | fD => (u, - limit, - v)
  | fL => (- limit, - v, u) | fR => (limit, - v, - u)
  end.

(** The tiles of the canvas, row by row of the search of
    [_get_tile_at_position]. *)
Definition tiles (size : Z) : list (Z * Z) :=
  (fun i => (i / size, i mod size)) <$> seqZ 0 (size * size).

(** The world [make_move_callback] leaves after the move [m]: the move
    made, one more line in the log. *)
Definition moved (m : Move) (w : World) : World :=
  with_log (move_effect m w)
    (logged w ++ [(INFO, String.append "Calling instruction: " (name m))]).

(** What a gesture may do to the world: nothing, or one single turn. *)
Definition turned (w w' : World) : Prop :=
  w' = w \/ exists m, snd m <> double /\ w' = moved m w.

(** A run of [if self._side in (...): self._make_move_cb(move)], each
    with the faces whose sides it names and the move it asks for. *)
Fixpoint side_moves `{Sides Side} (cb : string -> M bool)
         (branches : list (list Face * Move)) : Gui.G (Side := Side) unit :=
  match branches with
  | [] => Gui.gret tt
  | b :: branches' =>
      match branches' with
      | [] => Gui.side_move cb (side_of <$> fst b) (name (snd b))
      | _ :: _ =>
          Gui.then_ (Gui.side_move cb (side_of <$> fst b) (name (snd b)))
                    (side_moves cb branches')
      end
  end.

(** ** Well-formed worlds *)

(** A coordinate on the outer shell of a cube with the given limit. *)
Definition on_shell (limit c : Z) : Prop := c = limit \/ c = - limit.

(** A label is present exactly on the shell, on each axis. *)
Definition shell_labels (limit : Z) (p : Position.t) (pc : Piece.t) : Prop :=
  let '(x, y, z) := p in
  (is_Some (Piece.x pc) <-> on_shell limit x) /\
  (is_Some (Piece.y pc) <-> on_shell limit y) /\
  (is_Some (Piece.z pc) <-> on_shell limit z).

Record well_formed (size : Z) (w : World) : Prop := mk_wf {
  wf_size : _size (cube w) = size;
  wf_limit : _coord_limit (cube w) = limit_of size;
  wf_keys : NoDup (PyDict.keys (_pieces (cube w)));
  wf_range : forall p,
    p ∈ PyDict.keys (_pieces (cube w)) <-> in_cube (limit_of size) p = true;
  wf_refs : NoDup (PyDict.values (_pieces (cube w)));
  wf_shell : forall p r,
    (p, r) ∈ _pieces (cube w) ->
    exists pc, heap w !! r = Some pc /\ shell_labels (limit_of size) p pc
}.

(** * Properties *)

(** ** Positions and dictionaries *)

Lemma Position_eqb_eq p q : Position.eqb p q = true <-> p = q.
Proof.
  destruct p as [[a b] c], q as [[a' b'] c']; simpl.
  rewrite !andb_true_iff, !Z.eqb_eq. split.
  - intros [[-> ->] ->]; reflexivity.
  - intros [= -> -> ->]; auto.
Qed.

Lemma Position_eqb_refl p : Position.eqb p p = true.
Proof. apply Position_eqb_eq; reflexivity. Qed.

Lemma Position_eqb_neq p q : p <> q -> Position.eqb p q = false.
Proof.
  intros Hne. destruct (Position.eqb p q) eqn:E; [|reflexivity].
  apply Position_eqb_eq in E. contradiction.
Qed.

Lemma setitem_fresh (d : PyDict.t Ref) k v :
  k ∉ PyDict.keys d -> PyDict.setitem d k v = d ++ [(k, v)].
Proof.
  induction d as [|[k' v'] d IH]; simpl; intros Hk; [reflexivity|].
  unfold PyDict.keys in Hk. simpl in Hk.
  apply not_elem_of_cons in Hk as [Hne Hk].
  rewrite Position_eqb_neq by congruence.
  f_equal. apply IH, Hk.
Qed.

Lemma getitem_elem_of (d : PyDict.t Ref) k v :
  NoDup (PyDict.keys d) -> (k, v) ∈ d -> PyDict.getitem d k = Some v.
Proof.
  induction d as [|[k' v'] d IH]; simpl; intros Hnd Hin.
  - inversion Hin.
  - unfold PyDict.keys in Hnd. simpl in Hnd.
    apply NoDup_cons in Hnd as [Hk' Hnd].
    apply elem_of_cons in Hin as [[= <- <-]|Hin].
    + rewrite Position_eqb_refl; reflexivity.
    + rewrite Position_eqb_neq; [apply IH; assumption|].
      intros ->. apply Hk'. apply (list_elem_of_fmap_2 fst _ _ Hin).
Qed.

Lemma getitem_Some (d : PyDict.t Ref) k v :
  PyDict.getitem d k = Some v -> (k, v) ∈ d.
Proof.
  induction d as [|[k' v'] d IH]; simpl; [discriminate|].
  destruct (Position.eqb k' k) eqn:E.
  - apply Position_eqb_eq in E as ->. intros [= ->]. left.
  - intros H. right. apply IH, H.
Qed.

(** ** The loop of [_make_rotation] *)

Ltac face_cases f inv p :=
  destruct f, inv; destruct p as [[?x ?y] ?z]; simpl in *.

Lemma coord_limit_run w :
  Rubik.coord_limit w = (Ok (_coord_limit (cube w)), w).
Proof. reflexivity. Qed.

Lemma pieces_run w : Rubik.pieces w = (Ok (_pieces (cube w)), w).
Proof. reflexivity. Qed.

Lemma rotation_step_spec f inv p r acc w :
  Rubik.rotation_step (axis_of f) (sign_of f) (vec f) inv (p, r) acc w =
  let c := sign_of f * _coord_limit (cube w) in
  (Ok (PyDict.setitem acc (rekey (axis_of f) c (rot f inv) p) r),
   mkWorld
     (if selected (axis_of f) c p
      then alter (Piece.rotate (axis_of f)) r (heap w) else heap w)
     (cube w) (logged w)).
Proof.
  unfold Rubik.rotation_step, rekey, selected.
  unfold bind at 1. rewrite coord_limit_run. cbv zeta.
  destruct (Position.__getattr__ p (axis_of f)
            =? sign_of f * _coord_limit (cube w)) eqn:E.
  - destruct f, inv; destruct p as [[x y] z]; reflexivity.
  - destruct w; reflexivity.
Qed.

Lemma for_in_rotation_step f inv items : forall acc w,
  for_in items (Rubik.rotation_step (axis_of f) (sign_of f) (vec f) inv) acc w =
  let c := sign_of f * _coord_limit (cube w) in
  (Ok (rebuild (axis_of f) c (rot f inv) acc items),
   mkWorld (turn_heap (axis_of f) c items (heap w)) (cube w) (logged w)).
Proof.
  induction items as [|[p r] items IH]; intros acc w.
  - destruct w; reflexivity.
  - cbn [for_in]. unfold bind at 1. rewrite rotation_step_spec.
    cbv beta iota zeta. rewrite IH. reflexivity.
Qed.

(** A quarter turn never raises; it leaves the dictionary the loop
    filled and the store the loop rotated. *)
Lemma make_rotation_vec f inv w :
  Rubik._make_rotation (vec f) inv w =
  let c := sign_of f * _coord_limit (cube w) in
  (Ok tt,
   mkWorld
     (turn_heap (axis_of f) c (_pieces (cube w)) (heap w))
     (mkRubik (_size (cube w)) (_coord_limit (cube w))
              (rebuild (axis_of f) c (rot f inv) [] (_pieces (cube w))))
     (logged w)).
Proof.
  assert (Hshape : Rubik._make_rotation (vec f) inv =
    (items <- Rubik.pieces ;;
     new_pieces <- for_in items
       (Rubik.rotation_step (axis_of f) (sign_of f) (vec f) inv) [] ;;
     Rubik.setattr_pieces new_pieces)) by (destruct f; reflexivity).
  rewrite Hshape.
  unfold bind at 1. rewrite pieces_run. cbv beta iota.
  unfold bind at 1. rewrite for_in_rotation_step. reflexivity.
Qed.

Lemma rebuild_cons axis c rho acc e d :
  rebuild axis c rho acc (e :: d) =
  rebuild axis c rho (PyDict.setitem acc (rekey axis c rho (fst e)) (snd e)) d.
Proof. reflexivity. Qed.

Lemma rebuild_app axis c rho d : forall acc,
  NoDup (PyDict.keys acc ++ (rekey axis c rho <$> PyDict.keys d)) ->
  rebuild axis c rho acc d = acc ++ turn_dict axis c rho d.
Proof.
  induction d as [|[p r] d IH]; intros acc Hnd.
  - simpl. rewrite app_nil_r. reflexivity.
  - rewrite rebuild_cons. cbn [fst snd].
    unfold PyDict.keys in Hnd. cbn [fmap list_fmap fst] in Hnd.
    assert (Hfresh : rekey axis c rho p ∉ PyDict.keys acc).
    { apply NoDup_app in Hnd as (_ & Hdisj & _).
      intros Hin. apply (Hdisj _ Hin). left. }
    rewrite (setitem_fresh _ _ _ Hfresh).
    rewrite IH.
    + rewrite <- app_assoc. reflexivity.
    + unfold PyDict.keys. rewrite fmap_app. cbn [fmap list_fmap fst].
      rewrite <- app_assoc. exact Hnd.
Qed.

Lemma rebuild_turn_dict axis c rho d :
  Inj (=) (=) (rekey axis c rho) ->
  NoDup (PyDict.keys d) ->
  rebuild axis c rho [] d = turn_dict axis c rho d.
Proof.
  intros Hinj Hnd. rewrite rebuild_app; [reflexivity|].
  simpl. apply NoDup_fmap_2; assumption.
Qed.

(** ** The geometry of a quarter turn *)

Lemma rot_keeps_axis f inv p :
  Position.__getattr__ (rot f inv p) (axis_of f) =
  Position.__getattr__ p (axis_of f).
Proof. face_cases f inv p; reflexivity. Qed.

Lemma selected_rot f inv c p :
  selected (axis_of f) c (rot f inv p) = selected (axis_of f) c p.
Proof. unfold selected. rewrite rot_keeps_axis. reflexivity. Qed.

Lemma selected_rekey f inv c p :
  selected (axis_of f) c (rekey (axis_of f) c (rot f inv) p) =
  selected (axis_of f) c p.
Proof.
  unfold rekey. destruct (selected (axis_of f) c p) eqn:E; [|exact E].
  rewrite selected_rot. exact E.
Qed.

Lemma rot_back f inv p : rot f (negb inv) (rot f inv p) = p.
Proof. face_cases f inv p; f_equal; try f_equal; lia. Qed.

Lemma rot_four f inv p : rot f inv (rot f inv (rot f inv (rot f inv p))) = p.
Proof. face_cases f inv p; f_equal; try f_equal; lia. Qed.

Lemma rot_in_cube f inv l p : in_cube l (rot f inv p) = in_cube l p.
Proof.
  apply eq_true_iff_eq. face_cases f inv p;
    rewrite !andb_true_iff, !Z.leb_le; lia.
Qed.

Lemma rekey_back f inv c p :
  rekey (axis_of f) c (rot f (negb inv)) (rekey (axis_of f) c (rot f inv) p) = p.
Proof.
  unfold rekey at 1. rewrite selected_rekey. unfold rekey.
  destruct (selected (axis_of f) c p); [apply rot_back|reflexivity].
Qed.

Lemma rekey_inj f inv c : Inj (=) (=) (rekey (axis_of f) c (rot f inv)).
Proof.
  intros p q Heq.
  rewrite <- (rekey_back f inv c p), <- (rekey_back f inv c q).
  rewrite Heq. reflexivity.
Qed.

Lemma rekey_selected axis c rho p :
  selected axis c p = true -> rekey axis c rho p = rho p.
Proof. unfold rekey. intros ->. reflexivity. Qed.

Lemma rekey_unselected axis c rho p :
  selected axis c p = false -> rekey axis c rho p = p.
Proof. unfold rekey. intros ->. reflexivity. Qed.

Lemma rekey_four f inv c p :
  let k := rekey (axis_of f) c (rot f inv) in k (k (k (k p))) = p.
Proof.
  cbv zeta. destruct (selected (axis_of f) c p) eqn:E.
  - rewrite !rekey_selected
      by (rewrite ?selected_rekey, ?selected_rot; exact E).
    apply rot_four.
  - rewrite !rekey_unselected by (rewrite ?selected_rekey; exact E).
    reflexivity.
Qed.

Lemma rekey_in_cube f inv c l p :
  in_cube l (rekey (axis_of f) c (rot f inv) p) = in_cube l p.
Proof.
  unfold rekey. destruct (selected (axis_of f) c p);
    [apply rot_in_cube|reflexivity].
Qed.

(** On a dictionary without duplicate keys a quarter turn is [turn]. *)
Lemma make_rotation_turn f inv w :
  NoDup (PyDict.keys (_pieces (cube w))) ->
  Rubik._make_rotation (vec f) inv w = (Ok tt, turn f inv w).
Proof.
  intros Hnd. rewrite make_rotation_vec. cbv zeta. unfold turn.
  rewrite rebuild_turn_dict; [reflexivity|apply rekey_inj|exact Hnd].
Qed.

(** ** The store under a quarter turn *)

Lemma rotate_rotate axis pc : Piece.rotate axis (Piece.rotate axis pc) = pc.
Proof. destruct axis, pc; reflexivity. Qed.

Lemma alter_rotate_twice axis (r : Ref) (h : list Piece.t) :
  alter (Piece.rotate axis) r (alter (Piece.rotate axis) r h) = h.
Proof.
  rewrite list_alter_alter_eq. apply list_alter_id.
  intros pc. apply rotate_rotate.
Qed.

Lemma alter_rotate_swap axis (r r' : Ref) (h : list Piece.t) :
  alter (Piece.rotate axis) r (alter (Piece.rotate axis) r' h) =
  alter (Piece.rotate axis) r' (alter (Piece.rotate axis) r h).
Proof.
  destruct (decide (r = r')) as [->|Hne]; [reflexivity|].
  apply list_alter_alter_ne. exact Hne.
Qed.

Lemma turn_heap_cons axis c e d h :
  turn_heap axis c (e :: d) h =
  turn_heap axis c d
    (if selected axis c (fst e)
     then alter (Piece.rotate axis) (snd e) h else h).
Proof. reflexivity. Qed.

Lemma turn_heap_alter axis c d : forall (r : Ref) (h : list Piece.t),
  turn_heap axis c d (alter (Piece.rotate axis) r h) =
  alter (Piece.rotate axis) r (turn_heap axis c d h).
Proof.
  induction d as [|e d IH]; intros r h; [reflexivity|].
  rewrite !turn_heap_cons. destruct (selected axis c (fst e)).
  - rewrite alter_rotate_swap. apply IH.
  - apply IH.
Qed.

(** Rotating the pieces of a slice twice leaves every object as it
    was: [Piece.rotate] exchanges two labels. *)
Lemma turn_heap_twice axis c d : forall h,
  turn_heap axis c d (turn_heap axis c d h) = h.
Proof.
  induction d as [|e d IH]; intros h; [reflexivity|].
  rewrite !turn_heap_cons. destruct (selected axis c (fst e)).
  - rewrite turn_heap_alter, <- (turn_heap_alter _ _ _ _ (turn_heap _ _ _ _)).
    rewrite <- turn_heap_alter, alter_rotate_twice. apply IH.
  - apply IH.
Qed.

(** The pieces of the slice are the same objects after the turn. *)
Lemma turn_heap_turn_dict f inv c d : forall h,
  turn_heap (axis_of f) c (turn_dict (axis_of f) c (rot f inv) d) h =
  turn_heap (axis_of f) c d h.
Proof.
  induction d as [|e d IH]; intros h; [reflexivity|].
  cbn [turn_dict fmap list_fmap]. fold (turn_dict (axis_of f) c (rot f inv) d).
  rewrite !turn_heap_cons. cbn [fst snd].
  rewrite selected_rekey. apply IH.
Qed.

Lemma turn_heap_lookup_other axis c d : forall h r,
  r ∉ PyDict.values d -> turn_heap axis c d h !! r = h !! r.
Proof.
  induction d as [|[p' r'] d IH]; intros h r Hr; [reflexivity|].
  unfold PyDict.values in Hr. cbn [fmap list_fmap snd] in Hr.
  apply not_elem_of_cons in Hr as [Hne Hr].
  rewrite turn_heap_cons. cbn [fst snd].
  rewrite IH by exact Hr.
  destruct (selected axis c p'); [|reflexivity].
  apply list_lookup_alter_ne. congruence.
Qed.

Lemma turn_heap_lookup axis c d : forall h p r,
  NoDup (PyDict.values d) -> (p, r) ∈ d ->
  turn_heap axis c d h !! r =
  (if selected axis c p then Piece.rotate axis else id) <$> h !! r.
Proof.
  induction d as [|[p' r'] d IH]; intros h p r Hnd Hin.
  - inversion Hin.
  - unfold PyDict.values in Hnd. cbn [fmap list_fmap snd] in Hnd.
    apply NoDup_cons in Hnd as [Hr' Hnd].
    rewrite turn_heap_cons. cbn [fst snd].
    apply elem_of_cons in Hin as [[= -> ->]|Hin].
    + rewrite turn_heap_lookup_other by exact Hr'.
      destruct (selected axis c p').
      * apply list_lookup_alter_eq.
      * destruct (h !! r'); reflexivity.
    + assert (Hne : r' <> r).
      { intros ->. apply Hr'. apply (list_elem_of_fmap_2 snd _ _ Hin). }
      rewrite (IH _ p r Hnd Hin).
      destruct (selected axis c p'); [|reflexivity].
      rewrite list_lookup_alter_ne by exact Hne. reflexivity.
Qed.

(** ** Quarter turns keep a world well formed *)

Lemma keys_turn_dict axis c rho d :
  PyDict.keys (turn_dict axis c rho d) = rekey axis c rho <$> PyDict.keys d.
Proof.
  unfold PyDict.keys, turn_dict. rewrite <- !list_fmap_compose.
  reflexivity.
Qed.

Lemma values_turn_dict axis c rho d :
  PyDict.values (turn_dict axis c rho d) = PyDict.values d.
Proof.
  unfold PyDict.values, turn_dict. rewrite <- list_fmap_compose.
  reflexivity.
Qed.

Lemma elem_of_turn_dict axis c rho d p' r :
  (p', r) ∈ turn_dict axis c rho d <->
  exists p, p' = rekey axis c rho p /\ (p, r) ∈ d.
Proof.
  unfold turn_dict. rewrite list_elem_of_fmap. split.
  - intros ([p r0] & [= -> ->] & Hin). exists p. split; [reflexivity|exact Hin].
  - intros (p & -> & Hin). exists (p, r). split; [reflexivity|exact Hin].
Qed.

Lemma on_shell_opp l c : on_shell l (- c) <-> on_shell l c.
Proof. unfold on_shell. lia. Qed.

Lemma rot_shell_labels f inv l p pc :
  shell_labels l p pc ->
  shell_labels l (rot f inv p) (Piece.rotate (axis_of f) pc).
Proof.
  destruct pc as [lx ly lz]. destruct p as [[x y] z].
  intros (Hx & Hy & Hz).
  destruct f, inv; cbn [rot shell_labels axis_of Piece.rotate Piece.x Piece.y
                        Piece.z] in *;
    rewrite ?on_shell_opp; auto.
Qed.

Lemma turn_well_formed size f inv w :
  well_formed size w -> well_formed size (turn f inv w).
Proof.
  intros [Hsize Hlimit Hkeys Hrange Hrefs Hshell].
  constructor; cbn [turn cube heap _size _coord_limit _pieces].
  - exact Hsize.
  - exact Hlimit.
  - rewrite keys_turn_dict. apply NoDup_fmap_2; [apply rekey_inj|exact Hkeys].
  - intros p. rewrite keys_turn_dict, list_elem_of_fmap. split.
    + intros (q & -> & Hq). rewrite rekey_in_cube. apply Hrange, Hq.
    + intros Hp.
      exists (rekey (axis_of f) (sign_of f * _coord_limit (cube w))
                    (rot f (negb inv)) p).
      split.
      * pose proof (rekey_back f (negb inv)
                      (sign_of f * _coord_limit (cube w)) p) as Hb.
        rewrite negb_involutive in Hb. symmetry. exact Hb.
      * apply Hrange. rewrite rekey_in_cube. exact Hp.
  - rewrite values_turn_dict. exact Hrefs.
  - intros p' r Hin. apply elem_of_turn_dict in Hin as (p & -> & Hin).
    destruct (Hshell p r Hin) as (pc & Hpc & Hlab).
    rewrite (turn_heap_lookup _ _ _ _ p r Hrefs Hin), Hpc.
    unfold rekey.
    destruct (selected (axis_of f) (sign_of f * _coord_limit (cube w)) p).
    + eexists. split; [reflexivity|]. apply rot_shell_labels, Hlab.
    + eexists. split; [reflexivity|]. exact Hlab.
Qed.

(** ** The eighteen moves as functions *)

Lemma method_quarter f : method (f, quarter) = Rubik._make_rotation (vec f) false.
Proof. destruct f; reflexivity. Qed.

Lemma method_inverse f : method (f, inverse) = Rubik._make_rotation (vec f) true.
Proof. destruct f; reflexivity. Qed.

Lemma method_double f :
  method (f, double) = (method (f, quarter) ;; method (f, quarter)).
Proof. destruct f; reflexivity. Qed.

Lemma move_effect_well_formed size m w :
  well_formed size w -> well_formed size (move_effect m w).
Proof.
  intros Hwf. destruct m as [f []]; cbn [move_effect];
    repeat apply turn_well_formed; exact Hwf.
Qed.

(** No named move raises on a well-formed world. *)
Lemma method_effect size m w :
  well_formed size w -> method m w = (Ok tt, move_effect m w).
Proof.
  intros Hwf. destruct m as [f []]; cbn [move_effect].
  - rewrite method_quarter. apply make_rotation_turn, (wf_keys _ _ Hwf).
  - rewrite method_inverse. apply make_rotation_turn, (wf_keys _ _ Hwf).
  - rewrite method_double. unfold bind. rewrite method_quarter.
    rewrite (make_rotation_turn f false w (wf_keys _ _ Hwf)).
    apply make_rotation_turn.
    exact (wf_keys _ _ (turn_well_formed size f false w Hwf)).
Qed.

(** ** Construction *)

Lemma for_in_unit {A} (body : A -> unit -> M unit) (g : A -> World -> World)
      (xs : list A) :
  (forall a w, body a tt w = (Ok tt, g a w)) ->
  forall w, for_in xs body tt w = (Ok tt, foldl (fun w a => g a w) w xs).
Proof.
  intros Hbody. induction xs as [|a xs IH]; intros w; [reflexivity|].
  cbn [for_in foldl]. unfold bind. rewrite Hbody. apply IH.
Qed.

Lemma foldl_bind {A B} (g : World -> B -> World) (k : A -> list B) xs :
  forall w, foldl g w (xs ≫= k) = foldl (fun w a => foldl g w (k a)) w xs.
Proof.
  induction xs as [|a xs IH]; intros w; [reflexivity|].
  rewrite bind_cons, foldl_app. cbn [foldl]. apply IH.
Qed.

Lemma place_body p w :
  (colors <- Rubik._get_init_piece_color p ;;
   piece <- new_Piece colors ;;
   d <- Rubik.pieces ;;
   Rubik.setattr_pieces (PyDict.setitem d p piece)) w = (Ok tt, place p w).
Proof. destruct p as [[x y] z]. reflexivity. Qed.

(** The three nested loops place one piece per position, in order. *)
Lemma generate_init_pieces_run w :
  Rubik._generate_init_pieces w =
  (Ok tt, foldl (fun w p => place p w) w
                (cube_positions (_coord_limit (cube w)))).
Proof.
  unfold Rubik._generate_init_pieces. unfold bind at 1.
  rewrite coord_limit_run. cbv beta iota zeta.
  set (rng := py_range (- _coord_limit (cube w)) (_coord_limit (cube w) + 1)).
  unfold cube_positions. fold rng. cbv zeta.
  rewrite (for_in_unit _
    (fun x w => foldl (fun w p => place p w) w
                  (y ← rng; z ← rng; [(x, y, z)]))).
  - rewrite foldl_bind. reflexivity.
  - intros x w1.
    rewrite (for_in_unit _
      (fun y w => foldl (fun w p => place p w) w (z ← rng; [(x, y, z)]))).
    + rewrite foldl_bind. reflexivity.
    + intros y w2.
      rewrite (for_in_unit _ (fun z w => place (x, y, z) w)).
      * rewrite foldl_bind. reflexivity.
      * intros z w3. apply place_body.
Qed.

Lemma foldl_place ps : forall w,
  NoDup (PyDict.keys (_pieces (cube w)) ++ ps) ->
  foldl (fun w p => place p w) w ps =
  mkWorld
    (heap w ++ (init_piece (_coord_limit (cube w)) <$> ps))
    (mkRubik (_size (cube w)) (_coord_limit (cube w))
             (_pieces (cube w) ++ zip ps (seq (length (heap w)) (length ps))))
    (logged w).
Proof.
  induction ps as [|p ps IH]; intros w Hnd.
  - cbn. rewrite !app_nil_r. destruct w as [h [s l d] lg]; reflexivity.
  - cbn [foldl]. rewrite IH.
    + unfold place; cbn [heap cube logged _size _coord_limit _pieces].
      assert (Hfresh : p ∉ PyDict.keys (_pieces (cube w))).
      { apply NoDup_app in Hnd as (_ & Hdisj & _).
        intros Hin. apply (Hdisj _ Hin). left. }
      rewrite (setitem_fresh _ _ _ Hfresh).
      rewrite length_app, Nat.add_1_r, <- !app_assoc. reflexivity.
    + unfold place; cbn [heap cube logged _size _coord_limit _pieces].
      assert (Hfresh : p ∉ PyDict.keys (_pieces (cube w))).
      { apply NoDup_app in Hnd as (_ & Hdisj & _).
        intros Hin. apply (Hdisj _ Hin). left. }
      rewrite (setitem_fresh _ _ _ Hfresh).
      unfold PyDict.keys. rewrite fmap_app, <- app_assoc. exact Hnd.
Qed.

Lemma elem_of_cube_positions l p :
  p ∈ cube_positions l <-> in_cube l p = true.
Proof.
  destruct p as [[x y] z]. unfold cube_positions, py_range, in_cube.
  cbv zeta. rewrite !andb_true_iff, !Z.leb_le. split.
  - intros (x' & (y' & (z' & Hp & Hz)%list_elem_of_bind & Hy)%list_elem_of_bind
            & Hx)%list_elem_of_bind.
    apply list_elem_of_singleton in Hp. injection Hp as -> -> ->.
    apply elem_of_seqZ in Hx, Hy, Hz. lia.
  - intros Hr. apply list_elem_of_bind. exists x. split.
    2:{ apply elem_of_seqZ. lia. }
    apply list_elem_of_bind. exists y. split.
    2:{ apply elem_of_seqZ. lia. }
    apply list_elem_of_bind. exists z. split.
    2:{ apply elem_of_seqZ. lia. }
    apply list_elem_of_singleton. reflexivity.
Qed.

Lemma NoDup_cube_positions l : NoDup (cube_positions l).
Proof.
  unfold cube_positions, py_range. cbv zeta.
  apply NoDup_bind; [| |apply NoDup_seqZ].
  - intros x1 x2 p _ _
      (y1 & (z1 & H1 & _)%list_elem_of_bind & _)%list_elem_of_bind
      (y2 & (z2 & H2 & _)%list_elem_of_bind & _)%list_elem_of_bind.
    apply list_elem_of_singleton in H1, H2. congruence.
  - intros x _. apply NoDup_bind; [| |apply NoDup_seqZ].
    + intros y1 y2 p _ _ (z1 & H1 & _)%list_elem_of_bind
                         (z2 & H2 & _)%list_elem_of_bind.
      apply list_elem_of_singleton in H1, H2. congruence.
    + intros y _. apply NoDup_bind; [| |apply NoDup_seqZ].
      * intros z1 z2 p _ _ H1 H2.
        apply list_elem_of_singleton in H1, H2. congruence.
      * intros z _. apply NoDup_singleton.
Qed.

(** [Rubik(size)] raises for no size, and leaves [built size]. *)
Lemma new_cube_built size : new_cube size = (Ok tt, built size).
Proof.
  assert (Hattrs : new_cube size =
    Rubik._generate_init_pieces
      (mkWorld [] (mkRubik size (size / 2) []) [])) by reflexivity.
  rewrite Hattrs. unfold built.
  rewrite generate_init_pieces_run.
  cbn [cube _coord_limit]. fold (limit_of size).
  rewrite foldl_place.
  - reflexivity.
  - cbn. apply NoDup_cube_positions.
Qed.

Lemma built_entry size p r :
  (p, r) ∈ _pieces (cube (built size)) ->
  heap (built size) !! r = Some (init_piece (limit_of size) p).
Proof.
  cbn [built cube heap _pieces].
  intros (i & Hi)%list_elem_of_lookup.
  apply lookup_zip_Some in Hi as [Hp Hr].
  apply lookup_seq in Hr as [-> _]. cbn [Nat.add].
  rewrite list_lookup_fmap, Hp. reflexivity.
Qed.

Lemma built_keys size :
  PyDict.keys (_pieces (cube (built size))) = cube_positions (limit_of size).
Proof.
  cbn [built cube _pieces]. unfold PyDict.keys.
  apply fst_zip. rewrite length_seq. reflexivity.
Qed.

Lemma built_values size :
  PyDict.values (_pieces (cube (built size))) =
  seq 0 (length (cube_positions (limit_of size))).
Proof.
  cbn [built cube _pieces]. unfold PyDict.values.
  apply snd_zip. rewrite length_seq. reflexivity.
Qed.

Lemma shell_color_is_Some c l hi lo :
  is_Some (Rubik.shell_color c l hi lo) <-> on_shell l c.
Proof.
  unfold Rubik.shell_color, on_shell.
  destruct (Z.eqb_spec c l) as [->|Hne].
  - split; [auto|]. intros _. eexists; reflexivity.
  - destruct (Z.eqb_spec c (- l)) as [->|Hne'].
    + split; [auto|]. intros _. eexists; reflexivity.
    + split; [intros [? [=]]|]. intros [?|?]; contradiction.
Qed.

Lemma init_piece_shell_labels l p : shell_labels l p (init_piece l p).
Proof.
  destruct p as [[x y] z]. cbn [shell_labels init_piece Piece.x Piece.y Piece.z].
  rewrite !shell_color_is_Some. auto.
Qed.

Lemma built_well_formed size : well_formed size (built size).
Proof.
  constructor.
  - reflexivity.
  - reflexivity.
  - rewrite built_keys. apply NoDup_cube_positions.
  - intros p. rewrite built_keys. apply elem_of_cube_positions.
  - rewrite built_values. apply NoDup_seq.
  - intros p r Hin. eexists. split; [apply built_entry, Hin|].
    apply init_piece_shell_labels.
Qed.

(** ** Reachable worlds *)

Lemma reachable_well_formed size w : reachable size w -> well_formed size w.
Proof.
  induction 1 as [w Hnew|w m w' _ IH Hm].
  - rewrite new_cube_built in Hnew. injection Hnew as <-.
    apply built_well_formed.
  - rewrite (method_effect size m w IH) in Hm. injection Hm as <-.
    apply move_effect_well_formed, IH.
Qed.

Lemma reachable_built size : reachable size (built size).
Proof. apply reach_new, new_cube_built. Qed.

(** From a reachable world every named move returns, into a reachable
    world. *)
Lemma reachable_move size w m :
  reachable size w ->
  method m w = (Ok tt, move_effect m w) /\ reachable size (move_effect m w).
Proof.
  intros Hr.
  pose proof (method_effect size m w (reachable_well_formed _ _ Hr)) as Hm.
  split; [exact Hm|]. exact (reach_move size w m _ Hr Hm).
Qed.

Lemma apply_moves_reachable size ms : forall w,
  reachable size w ->
  exists w', apply_moves ms w = (Ok tt, w') /\ reachable size w'.
Proof.
  induction ms as [|m ms IH]; intros w Hr.
  - exists w. split; [reflexivity|exact Hr].
  - destruct (reachable_move size w m Hr) as [Hm Hr'].
    destruct (IH _ Hr') as (w' & Hrun & Hr'').
    exists w'. split; [|exact Hr''].
    cbn [apply_moves]. unfold bind. rewrite Hm. exact Hrun.
Qed.

(** Every reachable world is what some sequence of moves leaves. *)
Lemma reachable_by_moves size w :
  reachable size w ->
  exists ms, apply_moves ms (built size) = (Ok tt, w).
Proof.
  induction 1 as [w Hnew|w m w' Hr (ms & Hms) Hm].
  - exists []. rewrite new_cube_built in Hnew. injection Hnew as <-.
    reflexivity.
  - exists (ms ++ [m]). revert Hms. generalize (built size).
    induction ms as [|m0 ms IHms]; intros w0 Hms.
    + injection Hms as ->. cbn [app apply_moves]. unfold bind.
      rewrite Hm. reflexivity.
    + cbn [app apply_moves] in *. unfold bind in *.
      destruct (method m0 w0) as [[[]|e] w1]; [|discriminate].
      apply IHms, Hms.
Qed.

Lemma entries_at_keys d p :
  NoDup (PyDict.keys d) ->
  entries_at d p = if decide (p ∈ PyDict.keys d) then 1%nat else 0%nat.
Proof.
  unfold entries_at, PyDict.keys.
  induction d as [|[k v] d IH]; intros Hnd; [reflexivity|].
  rewrite fmap_cons in *. cbn [fst] in *.
  apply NoDup_cons in Hnd as [Hk Hnd].
  rewrite filter_cons. cbn [fst]. specialize (IH Hnd).
  destruct (decide (Position.eqb k p = true)) as [Heq|Hne].
  - apply Position_eqb_eq in Heq as ->. cbn [length]. rewrite IH.
    rewrite decide_False by exact Hk.
    rewrite decide_True by left. reflexivity.
  - rewrite IH.
    assert (Hkp : k <> p).
    { intros ->. apply Hne, Position_eqb_refl. }
    destruct (decide (p ∈ d.*1)) as [Hin|Hnin].
    + rewrite decide_True by (right; exact Hin). reflexivity.
    + rewrite decide_False; [reflexivity|].
      intros [?|?]%elem_of_cons; [congruence|contradiction].
Qed.

(** ** Four quarter turns, and a turn followed by its reverse *)

Lemma turn_dict_cons axis c rho e d :
  turn_dict axis c rho (e :: d) =
  (rekey axis c rho (fst e), snd e) :: turn_dict axis c rho d.
Proof. reflexivity. Qed.

Lemma turn_dict_four f inv c d :
  let t := turn_dict (axis_of f) c (rot f inv) in t (t (t (t d))) = d.
Proof.
  cbv zeta. induction d as [|[p r] d IH]; [reflexivity|].
  rewrite !turn_dict_cons. cbn [fst snd].
  rewrite (rekey_four f inv c p), IH. reflexivity.
Qed.

Lemma turn_dict_back f inv c d :
  turn_dict (axis_of f) c (rot f (negb inv))
            (turn_dict (axis_of f) c (rot f inv) d) = d.
Proof.
  induction d as [|[p r] d IH]; [reflexivity|].
  rewrite !turn_dict_cons. cbn [fst snd].
  rewrite rekey_back, IH. reflexivity.
Qed.

Lemma turn_four f inv w :
  turn f inv (turn f inv (turn f inv (turn f inv w))) = w.
Proof.
  unfold turn. cbn [cube heap logged _size _coord_limit _pieces].
  rewrite !turn_heap_turn_dict, !turn_heap_twice.
  rewrite (turn_dict_four f inv).
  destruct w as [h [s l d] lg]. reflexivity.
Qed.

Lemma turn_back f inv w : turn f (negb inv) (turn f inv w) = w.
Proof.
  unfold turn. cbn [cube heap logged _size _coord_limit _pieces].
  rewrite turn_heap_turn_dict, turn_heap_twice, turn_dict_back.
  destruct w as [h [s l d] lg]. reflexivity.
Qed.

(** ** The first turn of the solved size-3 cube *)

(** [R()] takes the corner of [(1, -1, 1)], object 20, to [(1, 1, 1)]
    and exchanges its y and z labels; the opposite layer stays. *)
Example R_on_solved :
  exists w,
    Rubik.R (built 3) = (Ok tt, w) /\
    PyDict.getitem (_pieces (cube (built 3))) (1, -1, 1) = Some 20%nat /\
    PyDict.getitem (_pieces (cube w)) (1, 1, 1) = Some 20%nat /\
    heap (built 3) !! 20%nat =
      Some (Piece.mk (Some config.ORANGE) (Some config.WHITE)
                     (Some config.GREEN)) /\
    heap w !! 20%nat =
      Some (Piece.mk (Some config.ORANGE) (Some config.GREEN)
                     (Some config.WHITE)) /\
    piece_at w (-1, 1, 1) = piece_at (built 3) (-1, 1, 1).
Proof.
  eexists. split; [vm_compute; reflexivity|].
  repeat split; vm_compute; reflexivity.
Qed.

(** * The claims *)

(** C1.  For a cube built with an odd positive size, every finite
    sequence of named moves runs to the end without raising, and in the
    world it leaves the dictionary has no key twice and holds exactly
    one entry for each position of [[-limit, limit]^3] and none for any
    other position, where [limit = size // 2]. *)
Theorem positions_fill_the_cube (size : Z) (ms : list Move) :
  odd_positive size ->
  exists w,
    (Rubik.__init__ size ;; apply_moves ms) empty_world = (Ok tt, w) /\
    NoDup (PyDict.keys (_pieces (cube w))) /\
    forall p,
      entries_at (_pieces (cube w)) p =
      if in_cube (size / 2) p then 1%nat else 0%nat.
Proof.
  intros _.
  destruct (apply_moves_reachable size ms _ (reachable_built size))
    as (w & Hrun & Hr).
  exists w. split.
  - unfold bind. fold (new_cube size). rewrite new_cube_built. exact Hrun.
  - pose proof (reachable_well_formed _ _ Hr) as Hwf.
    split; [exact (wf_keys _ _ Hwf)|].
    intros p. rewrite (entries_at_keys _ _ (wf_keys _ _ Hwf)).
    pose proof (wf_range _ _ Hwf p) as Hp. fold (limit_of size).
    destruct (in_cube (limit_of size) p).
    + rewrite decide_True; [reflexivity|]. apply Hp. reflexivity.
    + rewrite decide_False; [reflexivity|].
      intros Hin. apply Hp in Hin. discriminate.
Qed.

Lemma positions_fill_the_cube_witness :
  exists w,
    (Rubik.__init__ 3 ;; apply_moves [(fR, quarter); (fU, double)])
      empty_world = (Ok tt, w) /\
    NoDup (PyDict.keys (_pieces (cube w))) /\
    forall p,
      entries_at (_pieces (cube w)) p =
      if in_cube (3 / 2) p then 1%nat else 0%nat.
Proof.
  apply (positions_fill_the_cube 3 [(fR, quarter); (fU, double)]).
  split; [lia|reflexivity].
Defined.

(** C2.  In every reachable world of a cube of odd positive size, the
    same quarter turn (R, L, U, D, F, B or one of their inverses) made
    four times in a row returns, and the world it leaves is the world
    it started from: the same dictionary, entry for entry, and the same
    labels on every piece object. *)
Theorem quarter_turn_four_times (size : Z) (w : World) (m : Move) :
  odd_positive size ->
  reachable size w ->
  quarter_turn m ->
  (method m ;; method m ;; method m ;; method m) w = (Ok tt, w).
Proof.
  intros _ Hr Hq.
  pose proof (reachable_well_formed _ _ Hr) as Hwf.
  assert (H1 := move_effect_well_formed size m _ Hwf).
  assert (H2 := move_effect_well_formed size m _ H1).
  assert (H3 := move_effect_well_formed size m _ H2).
  unfold bind.
  rewrite (method_effect size m _ Hwf), (method_effect size m _ H1),
    (method_effect size m _ H2), (method_effect size m _ H3).
  f_equal. destruct m as [f t].
  destruct Hq as [Hq|Hq]; cbn [snd] in Hq; subst t; cbn [move_effect];
    apply turn_four.
Qed.

Lemma quarter_turn_four_times_witness :
  (method (fU, inverse) ;; method (fU, inverse) ;;
   method (fU, inverse) ;; method (fU, inverse)) (move_effect (fR, quarter) (built 3)) =
  (Ok tt, move_effect (fR, quarter) (built 3)).
Proof.
  apply (quarter_turn_four_times 3 _ (fU, inverse)).
  - split; [lia|reflexivity].
  - apply (reach_move 3 (built 3) (fR, quarter)).
    + apply reach_new. vm_compute. reflexivity.
    + vm_compute. reflexivity.
  - right. reflexivity.
Defined.

(** C3.  In every reachable world of a cube of odd positive size, a
    quarter turn followed by its inverse (R then Ri, and likewise for
    L, U, D, F, B) returns and leaves the world exactly as it was. *)
Theorem quarter_then_inverse (size : Z) (w : World) (f : Face) :
  odd_positive size ->
  reachable size w ->
  (method (f, quarter) ;; method (f, inverse)) w = (Ok tt, w).
Proof.
  intros _ Hr.
  pose proof (reachable_well_formed _ _ Hr) as Hwf.
  assert (H1 := move_effect_well_formed size (f, quarter) _ Hwf).
  unfold bind.
  rewrite (method_effect size _ _ Hwf), (method_effect size _ _ H1).
  f_equal. cbn [move_effect]. apply (turn_back f false).
Qed.

Lemma quarter_then_inverse_witness :
  (method (fF, quarter) ;; method (fF, inverse))
    (move_effect (fR, quarter) (built 3)) =
  (Ok tt, move_effect (fR, quarter) (built 3)).
Proof.
  apply (quarter_then_inverse 3 _ fF).
  - split; [lia|reflexivity].
  - apply (reach_move 3 (built 3) (fR, quarter)).
    + apply reach_new. vm_compute. reflexivity.
    + vm_compute. reflexivity.
Defined.

(** C4.  In every reachable world of a cube of odd positive size, for
    every entry of the dictionary the piece object exists, and its x
    label is present exactly when the x coordinate of the position it
    occupies is [+limit] or [-limit]; likewise for y and z. *)
Theorem labels_present_on_the_shell (size : Z) (w : World)
        (x y z : Z) (r : Ref) :
  odd_positive size ->
  reachable size w ->
  ((x, y, z), r) ∈ _pieces (cube w) ->
  exists pc,
    heap w !! r = Some pc /\
    (is_Some (Piece.x pc) <-> x = size / 2 \/ x = - (size / 2)) /\
    (is_Some (Piece.y pc) <-> y = size / 2 \/ y = - (size / 2)) /\
    (is_Some (Piece.z pc) <-> z = size / 2 \/ z = - (size / 2)).
Proof.
  intros _ Hr Hin.
  pose proof (reachable_well_formed _ _ Hr) as Hwf.
  destruct (wf_shell _ _ Hwf _ _ Hin) as (pc & Hpc & Hlab).
  exists pc. split; [exact Hpc|]. exact Hlab.
Qed.

Lemma labels_present_on_the_shell_witness :
  exists pc,
    heap (move_effect (fR, quarter) (built 3)) !! 26%nat = Some pc /\
    (is_Some (Piece.x pc) <-> 1 = 3 / 2 \/ 1 = - (3 / 2)) /\
    (is_Some (Piece.y pc) <-> 1 = 3 / 2 \/ 1 = - (3 / 2)) /\
    (is_Some (Piece.z pc) <-> -1 = 3 / 2 \/ -1 = - (3 / 2)).
Proof.
  apply (labels_present_on_the_shell 3 (move_effect (fR, quarter) (built 3))
           1 1 (-1) 26%nat).
  - split; [lia|reflexivity].
  - apply (reach_move 3 (built 3) (fR, quarter)).
    + apply reach_new. vm_compute. reflexivity.
    + vm_compute. reflexivity.
  - apply (list_elem_of_lookup_2 _ 26%nat). vm_compute. reflexivity.
Defined.

Lemma built_piece_at size p :
  in_cube (limit_of size) p = true ->
  piece_at (built size) p = Some (init_piece (limit_of size) p).
Proof.
  intros Hp. pose proof (built_well_formed size) as Hwf.
  apply (wf_range _ _ Hwf) in Hp.
  apply list_elem_of_fmap in Hp as ([p' r] & -> & Hin). cbn [fst].
  unfold piece_at.
  rewrite (getitem_elem_of _ _ _ (wf_keys _ _ Hwf) Hin).
  cbn [mbind option_bind]. apply built_entry, Hin.
Qed.

Lemma shell_color_rule c l hi lo :
  shell_rule c l hi lo (Rubik.shell_color c l hi lo).
Proof.
  unfold shell_rule, Rubik.shell_color.
  destruct (Z.eqb_spec c l) as [->|Hne].
  - split; [reflexivity|]. split; [intros; lia|intros; congruence].
  - destruct (Z.eqb_spec c (- l)) as [->|Hne'].
    + split; [intros; congruence|]. split; [reflexivity|intros; congruence].
    + split; [intros; congruence|]. split; [intros; congruence|reflexivity].
Qed.

(** C5, as stated, fails at size 1, which is odd and positive: the
    limit is 0, the one piece is at [(0, 0, 0)], where [x = -limit]
    holds, and its x label is ORANGE, not RED; likewise its y label is
    YELLOW and its z label GREEN.  The clauses of the code are an
    [if ... elif], and the first one decides. *)
Lemma solved_coloring_fails_at_size_one :
  odd_positive 1 /\
  in_cube (1 / 2) (0, 0, 0) = true /\
  exists w pc,
    new_cube 1 = (Ok tt, w) /\
    piece_at w (0, 0, 0) = Some pc /\
    0 = - (1 / 2) /\
    Piece.x pc = Some config.ORANGE /\
    Piece.y pc = Some config.YELLOW /\
    Piece.z pc = Some config.GREEN /\
    ~ stated_rule 0 (1 / 2) config.ORANGE config.RED (Piece.x pc) /\
    ~ stated_rule 0 (1 / 2) config.YELLOW config.WHITE (Piece.y pc) /\
    ~ stated_rule 0 (1 / 2) config.GREEN config.BLUE (Piece.z pc).
Proof.
  split; [split; [lia|reflexivity]|]. split; [reflexivity|].
  exists (built 1), (init_piece (limit_of 1) (0, 0, 0)).
  split; [apply new_cube_built|].
  split; [vm_compute; reflexivity|].
  split; [reflexivity|].
  repeat split; try reflexivity;
    intros (_ & Hlo & _); specialize (Hlo eq_refl); discriminate Hlo.
Qed.

(** C5, amended.  Building a cube of odd positive size returns, and the
    piece then stored at a position [(x, y, z)] of the cube has x label
    ORANGE for [x = +limit], RED for [x = -limit] when the limit is not
    0, none otherwise; y label YELLOW, WHITE or none; z label GREEN,
    BLUE or none, by the same rule.  At size 1 the limit is 0 and the
    first clause gives the one piece ORANGE, YELLOW and GREEN. *)
Theorem solved_coloring (size x y z : Z) :
  odd_positive size ->
  in_cube (size / 2) (x, y, z) = true ->
  exists w pc,
    new_cube size = (Ok tt, w) /\
    piece_at w (x, y, z) = Some pc /\
    shell_rule x (size / 2) config.ORANGE config.RED (Piece.x pc) /\
    shell_rule y (size / 2) config.YELLOW config.WHITE (Piece.y pc) /\
    shell_rule z (size / 2) config.GREEN config.BLUE (Piece.z pc).
Proof.
  intros _ Hp. exists (built size), (init_piece (limit_of size) (x, y, z)).
  split; [apply new_cube_built|].
  split; [apply built_piece_at, Hp|].
  cbn [init_piece Piece.x Piece.y Piece.z]. fold (limit_of size).
  auto using shell_color_rule.
Qed.

Lemma solved_coloring_witness :
  exists w pc,
    new_cube 3 = (Ok tt, w) /\
    piece_at w (1, -1, 0) = Some pc /\
    shell_rule 1 (3 / 2) config.ORANGE config.RED (Piece.x pc) /\
    shell_rule (-1) (3 / 2) config.YELLOW config.WHITE (Piece.y pc) /\
    shell_rule 0 (3 / 2) config.GREEN config.BLUE (Piece.z pc).
Proof.
  apply (solved_coloring 3 1 (-1) 0).
  - split; [lia|reflexivity].
  - reflexivity.
Defined.

(** ** Dispatch by name *)

(** A closed decidable statement, settled by running its decision. *)
Ltac by_evaluation :=
  match goal with
  | |- ?a <> ?b =>
      apply (bool_decide_eq_false_1 (a = b)); vm_compute; reflexivity
  | |- ?P => apply (bool_decide_unpack P); vm_compute; exact I
  end.

Lemma getattr_move m : getattr (name m) = ret (Method0 (method m)).
Proof. destruct m as [[] []]; reflexivity. Qed.

Lemma is_move_name_spec token :
  is_move_name token = true <-> exists m, name m = token.
Proof.
  unfold is_move_name. rewrite existsb_exists. split.
  - intros (m & _ & Hm). exists m. apply String.eqb_eq, Hm.
  - intros (m & <-). exists m. split; [|apply String.eqb_refl].
    destruct m as [[] []]; vm_compute; tauto.
Qed.

Lemma apply_notation_tokens notation :
  Controller.apply_notation notation = apply_tokens (split notation).
Proof. reflexivity. Qed.

(** The names of moves, in a row, are the moves in that order. *)
Lemma apply_tokens_moves ms : forall w,
  apply_tokens (name <$> ms) w = apply_moves ms w.
Proof.
  unfold apply_tokens. induction ms as [|m ms IH]; intros w; [reflexivity|].
  rewrite fmap_cons. cbn [for_in apply_moves].
  unfold bind at 1. unfold bind at 1. rewrite getattr_move.
  unfold ret at 1. cbn [call0]. unfold bind.
  destruct (method m w) as [[[]|e] w1]; [apply IH|reflexivity].
Qed.

Example split_chess_pattern :
  split "R2 L2 B2 F2 U2 D2" = name <$> [(fR, double); (fL, double);
    (fB, double); (fF, double); (fU, double); (fD, double)].
Proof. reflexivity. Qed.

Example split_white_space :
  split (String.append " R" (String (ascii_of_nat 9) "U  Ri ")) =
  ["R"; "U"; "Ri"].
Proof. reflexivity. Qed.

(** A token that names no attribute of the cube is refused by
    [make_move_callback]: it answers [False], and neither the cube nor
    any piece has changed. *)
Lemma unknown_attribute_refused token w :
  assoc token (Rubik_attrs ++ object_attrs) = None ->
  exists w',
    Controller.make_move_callback token w = (Ok false, w') /\
    heap w' = heap w /\ cube w' = cube w.
Proof.
  intros Hnone.
  unfold Controller.make_move_callback, try_except.
  unfold bind at 1. unfold log_line at 1. cbv beta iota.
  unfold bind at 1. unfold getattr. rewrite Hnone.
  unfold raise. cbv beta iota.
  destruct (decide (AttributeError = AttributeError)) as [_|Hne];
    [|contradiction].
  eexists. split; [reflexivity|]. split; reflexivity.
Qed.

(** [apply_notation] stops at the first token that names no attribute:
    the moves before it have been made and stay made, the tokens after
    it are not looked at. *)
Lemma apply_tokens_stops size w w' ms bad rest :
  reachable size w ->
  assoc bad (Rubik_attrs ++ object_attrs) = None ->
  apply_moves ms w = (Ok tt, w') ->
  apply_tokens ((name <$> ms) ++ bad :: rest) w = (Raise AttributeError, w').
Proof.
  intros Hr Hbad. revert w Hr. unfold apply_tokens.
  induction ms as [|m ms IH]; intros w Hr Hms.
  - injection Hms as ->. cbn [fmap list_fmap app for_in].
    unfold bind, getattr. rewrite Hbad. reflexivity.
  - destruct (reachable_move size w m Hr) as [Hm Hr'].
    cbn [apply_moves] in Hms. unfold bind in Hms. rewrite Hm in Hms.
    rewrite fmap_cons. cbn [app for_in].
    unfold bind at 1. unfold bind at 1. rewrite getattr_move.
    unfold ret at 1. cbn [call0]. rewrite Hm.
    apply (IH _ Hr' Hms).
Qed.

Lemma apply_notation_stops_example :
  Controller.apply_notation "R U Q F" (built 3) =
  (Raise AttributeError,
   move_effect (fU, quarter) (move_effect (fR, quarter) (built 3))).
Proof. vm_compute. reflexivity. Qed.

(** A token that finds a value or a method with parameters makes the
    call raise [TypeError], which [make_move_callback] does not catch;
    the cube is as it was. *)
Lemma make_move_callback_size :
  exists w',
    Controller.make_move_callback "size"
      (move_effect (fR, quarter) (built 3)) = (Raise TypeError, w') /\
    heap w' = heap (move_effect (fR, quarter) (built 3)) /\
    cube w' = cube (move_effect (fR, quarter) (built 3)).
Proof.
  eexists. split; [vm_compute; reflexivity|].
  split; vm_compute; reflexivity.
Qed.

(** C6.  The token [_generate_init_pieces] is none of the eighteen move
    names, yet [make_move_callback] finds the method of that name, calls
    it and answers [True]: on the size-3 cube after [R()] the call
    replaces every piece, and the slot [(1, 1, 1)], which held the
    orange-green-white corner (object 20), holds a new
    orange-yellow-green one (object 53). *)
Theorem dispatch_reaches_generate_init_pieces :
  exists w w',
    (Rubik.__init__ 3 ;; Rubik.R) empty_world = (Ok tt, w) /\
    is_move_name "_generate_init_pieces" = false /\
    Controller.make_move_callback "_generate_init_pieces" w = (Ok true, w') /\
    piece_at w (1, 1, 1) =
      Some (Piece.mk (Some config.ORANGE) (Some config.GREEN)
                     (Some config.WHITE)) /\
    piece_at w' (1, 1, 1) =
      Some (Piece.mk (Some config.ORANGE) (Some config.YELLOW)
                     (Some config.GREEN)) /\
    PyDict.getitem (_pieces (cube w)) (1, 1, 1) = Some 20%nat /\
    PyDict.getitem (_pieces (cube w')) (1, 1, 1) = Some 53%nat.
Proof.
  eexists. eexists. split; [vm_compute; reflexivity|].
  split; [vm_compute; reflexivity|].
  split; [vm_compute; reflexivity|].
  repeat split; vm_compute; reflexivity.
Qed.

(** The token ["Q"] names nothing and is refused, on every world. *)
Lemma make_move_callback_Q w :
  exists w',
    Controller.make_move_callback "Q" w = (Ok false, w') /\
    heap w' = heap w /\ cube w' = cube w.
Proof. apply unknown_attribute_refused. reflexivity. Qed.

(** ** The chess pattern *)

(** C7, as stated, fails: after [chess_pattern()] on the solved size-3
    cube the corner piece of [(1, 1, 1)] is the object it was before,
    in the slot it was in; and a corner is neither a face center nor
    the cube center. *)
Lemma chess_pattern_keeps_corner :
  exists w w',
    new_cube 3 = (Ok tt, w) /\
    Controller.chess_pattern w = (Ok tt, w') /\
    zero_coords (1, 1, 1) = 0%nat /\
    PyDict.getitem (_pieces (cube w)) (1, 1, 1) = Some 26%nat /\
    PyDict.getitem (_pieces (cube w')) (1, 1, 1) = Some 26%nat.
Proof.
  eexists. eexists. split; [vm_compute; reflexivity|].
  split; [vm_compute; reflexivity|].
  repeat split; vm_compute; reflexivity.
Qed.

(** C7, amended.  On the solved size-3 cube [chess_pattern()] returns
    and is [R2 L2 B2 F2 U2 D2] in that order; it changes the labels of
    no piece; the piece of every slot [p] is afterwards at
    [chess_image p]: the twelve edge pieces at the opposite edge slot,
    and the eight corners, the six face centers and the cube center
    where they were. *)
Theorem chess_pattern_swaps_opposite_edges :
  exists w w',
    new_cube 3 = (Ok tt, w) /\
    Controller.chess_pattern w = (Ok tt, w') /\
    apply_moves [(fR, double); (fL, double); (fB, double);
                 (fF, double); (fU, double); (fD, double)] w
      = (Ok tt, w') /\
    heap w' = heap w /\
    Forall (fun p =>
              PyDict.getitem (_pieces (cube w')) (chess_image p) =
              PyDict.getitem (_pieces (cube w)) p)
           (cube_positions 1).
Proof.
  eexists. eexists. split; [vm_compute; reflexivity|].
  split; [vm_compute; reflexivity|].
  split; [vm_compute; reflexivity|].
  split; [vm_compute; reflexivity|].
  by_evaluation.
Qed.

(** ** The commutator *)

(** C8, as stated, fails: three rounds of [R U Ri Ui] on the solved
    size-3 cube leave the corner of [(1, -1, 1)] in the slot
    [(1, 1, 1)], and the cube is not the solved one. *)
Lemma commutator_three_times_not_solved :
  exists w w',
    new_cube 3 = (Ok tt, w) /\
    apply_moves (commutator ++ commutator ++ commutator) w = (Ok tt, w') /\
    w' <> w /\
    piece_at w (1, 1, 1) =
      Some (Piece.mk (Some config.ORANGE) (Some config.YELLOW)
                     (Some config.GREEN)) /\
    piece_at w' (1, 1, 1) =
      Some (Piece.mk (Some config.GREEN) (Some config.WHITE)
                     (Some config.ORANGE)).
Proof.
  eexists. eexists. split; [vm_compute; reflexivity|].
  split; [vm_compute; reflexivity|].
  split; [by_evaluation|].
  split; vm_compute; reflexivity.
Qed.

(** C8, amended.  Six rounds of [R U Ri Ui], twenty-four moves, take
    the solved size-3 cube back to the solved state: every piece at its
    initial position with its initial labels. *)
Theorem commutator_six_times_solved :
  exists w,
    new_cube 3 = (Ok tt, w) /\
    apply_moves (commutator ++ commutator ++ commutator
                 ++ commutator ++ commutator ++ commutator) w
    = (Ok tt, w).
Proof. eexists. split; vm_compute; reflexivity. Qed.

(** ** Construction never fails *)

(** C9, as stated, fails: the sizes 0, -3 and 2 are not odd positive,
    and [Rubik(size)] returns for each of them, with 1, 0 and 27
    pieces. *)
Lemma construction_accepts_any_size :
  fst (new_cube 0) = Ok tt /\ fst (new_cube (-3)) = Ok tt /\
  fst (new_cube 2) = Ok tt /\
  length (_pieces (cube (snd (new_cube 0)))) = 1%nat /\
  length (_pieces (cube (snd (new_cube (-3))))) = 0%nat /\
  length (_pieces (cube (snd (new_cube 2)))) = 27%nat.
Proof. repeat split; vm_compute; reflexivity. Qed.

(** C9, amended.  [Rubik(size)] checks nothing and returns for every
    integer [size]; the cube it leaves has that size, the limit
    [size // 2], and exactly one piece for each position of
    [[-limit, limit]^3], none elsewhere (no piece at all when the limit
    is negative). *)
Theorem construction_is_total (size : Z) :
  exists w,
    new_cube size = (Ok tt, w) /\
    _size (cube w) = size /\
    _coord_limit (cube w) = size / 2 /\
    forall p,
      entries_at (_pieces (cube w)) p =
      if in_cube (size / 2) p then 1%nat else 0%nat.
Proof.
  exists (built size). split; [apply new_cube_built|].
  pose proof (built_well_formed size) as Hwf.
  split; [reflexivity|]. split; [reflexivity|].
  intros p. rewrite (entries_at_keys _ _ (wf_keys _ _ Hwf)).
  pose proof (wf_range _ _ Hwf p) as Hp. fold (limit_of size).
  destruct (in_cube (limit_of size) p).
  - rewrite decide_True; [reflexivity|]. apply Hp. reflexivity.
  - rewrite decide_False; [reflexivity|].
    intros Hin. apply Hp in Hin. discriminate.
Qed.

(** ** Notations with a token that is no move *)

(** C10.  [apply_notation("R _generate_init_pieces")] on the solved
    size-3 cube: the second token is none of the eighteen move names,
    yet the call does not fail at it.  It returns, and what it leaves
    is a freshly generated solved cube: the [R] made before it, which
    had changed the piece of [(1, 1, 1)], has not stayed. *)
Theorem apply_notation_runs_generate_init_pieces :
  exists w wR w',
    new_cube 3 = (Ok tt, w) /\
    split "R _generate_init_pieces" = ["R"; "_generate_init_pieces"] /\
    is_move_name "_generate_init_pieces" = false /\
    Controller.apply_notation "R" w = (Ok tt, wR) /\
    Controller.apply_notation "R _generate_init_pieces" w = (Ok tt, w') /\
    Forall (fun p => piece_at w' p = piece_at w p) (cube_positions 1) /\
    piece_at wR (1, 1, 1) <> piece_at w (1, 1, 1).
Proof.
  eexists. eexists. eexists. split; [vm_compute; reflexivity|].
  split; [vm_compute; reflexivity|].
  split; [vm_compute; reflexivity|].
  split; [vm_compute; reflexivity|].
  split; [vm_compute; reflexivity|].
  split; by_evaluation.
Qed.

(** * Further properties of the model *)

(** ** How turns compose *)

Lemma turn_forth f inv w : turn f inv (turn f (negb inv) w) = w.
Proof.
  pose proof (turn_back f (negb inv) w) as H.
  rewrite negb_involutive in H. exact H.
Qed.

Lemma turn_three f inv w :
  turn f inv (turn f inv (turn f inv w)) = turn f (negb inv) w.
Proof.
  rewrite <- (turn_forth f inv w) at 1. apply turn_four.
Qed.

Lemma turn_twice_reversed f inv w :
  turn f inv (turn f inv w) = turn f (negb inv) (turn f (negb inv) w).
Proof.
  rewrite <- (turn_forth f inv w) at 1.
  rewrite <- (turn_forth f inv (turn f (negb inv) w)) at 1.
  rewrite turn_three. rewrite turn_back. reflexivity.
Qed.

(** Running two named moves on a reachable world. *)
Lemma two_moves size w m1 m2 :
  reachable size w ->
  (method m1 ;; method m2) w = (Ok tt, move_effect m2 (move_effect m1 w)).
Proof.
  intros Hr. destruct (reachable_move size w m1 Hr) as [H1 Hr1].
  destruct (reachable_move size _ m2 Hr1) as [H2 _].
  unfold bind. rewrite H1. exact H2.
Qed.

(** X1.  In every reachable world a double turn made twice returns and
    leaves the world exactly as it was, for each of the six faces. *)
Theorem double_turn_twice (size : Z) (w : World) (f : Face) :
  reachable size w ->
  (method (f, double) ;; method (f, double)) w = (Ok tt, w).
Proof.
  intros Hr. rewrite (two_moves size w _ _ Hr). f_equal.
  cbn [move_effect]. apply turn_four.
Qed.

Lemma double_turn_twice_witness :
  (method (fB, double) ;; method (fB, double))
    (move_effect (fR, quarter) (built 3)) =
  (Ok tt, move_effect (fR, quarter) (built 3)).
Proof.
  apply (double_turn_twice 3 _ fB).
  apply (reach_move 3 (built 3) (fR, quarter)).
  - apply reach_new. vm_compute. reflexivity.
  - vm_compute. reflexivity.
Defined.

(** X2.  In every reachable world an inverse turn followed by the
    quarter turn of the same face (Ri then R, and so on) returns and
    leaves the world exactly as it was. *)
Theorem inverse_then_quarter (size : Z) (w : World) (f : Face) :
  reachable size w ->
  (method (f, inverse) ;; method (f, quarter)) w = (Ok tt, w).
Proof.
  intros Hr. rewrite (two_moves size w _ _ Hr). f_equal.
  cbn [move_effect]. apply (turn_back f true).
Qed.

Lemma inverse_then_quarter_witness :
  (method (fD, inverse) ;; method (fD, quarter))
    (move_effect (fR, quarter) (built 3)) =
  (Ok tt, move_effect (fR, quarter) (built 3)).
Proof.
  apply (inverse_then_quarter 3 _ fD).
  apply (reach_move 3 (built 3) (fR, quarter)).
  - apply reach_new. vm_compute. reflexivity.
  - vm_compute. reflexivity.
Defined.

(** X3.  In every reachable world three quarter turns of a face leave
    what its inverse turn leaves, and its double turn leaves what two
    inverse turns leave. *)
Theorem three_quarters_are_the_inverse (size : Z) (w : World) (f : Face) :
  reachable size w ->
  (method (f, quarter) ;; method (f, quarter) ;; method (f, quarter)) w
    = method (f, inverse) w /\
  method (f, double) w = (method (f, inverse) ;; method (f, inverse)) w.
Proof.
  intros Hr. split.
  - destruct (reachable_move size w (f, quarter) Hr) as [H1 Hr1].
    unfold bind at 1. rewrite H1.
    rewrite (two_moves size _ _ _ Hr1).
    rewrite (proj1 (reachable_move size w (f, inverse) Hr)).
    f_equal. cbn [move_effect]. apply (turn_three f false).
  - rewrite (two_moves size w _ _ Hr).
    rewrite (proj1 (reachable_move size w (f, double) Hr)).
    f_equal. cbn [move_effect]. apply (turn_twice_reversed f false).
Qed.

Lemma three_quarters_are_the_inverse_witness :
  (method (fU, quarter) ;; method (fU, quarter) ;; method (fU, quarter))
    (built 3) = method (fU, inverse) (built 3) /\
  method (fU, double) (built 3) =
    (method (fU, inverse) ;; method (fU, inverse)) (built 3).
Proof.
  apply (three_quarters_are_the_inverse 3 (built 3) fU).
  apply reach_new. vm_compute. reflexivity.
Defined.

(** ** Turns of facing layers *)














(** ** Looking a position up *)

Lemma getitem_None (d : PyDict.t Ref) k :
  PyDict.getitem d k = None <-> k ∉ PyDict.keys d.
Proof.
  unfold PyDict.keys. induction d as [|[k' v'] d IH]; cbn [PyDict.getitem].
  - split; [intros _ Hin; inversion Hin|reflexivity].
  - rewrite fmap_cons. cbn [fst]. rewrite not_elem_of_cons.
    destruct (Position.eqb k' k) eqn:E.
    + apply Position_eqb_eq in E as ->. split; [discriminate|].
      intros [Hne _]. contradiction.
    + rewrite IH. split; [|tauto]. intros Hk. split; [|exact Hk].
      intros ->. rewrite Position_eqb_refl in E. discriminate.
Qed.

Lemma getitem_rekeyed (k : Position.t -> Position.t) (d : PyDict.t Ref) p :
  Inj (=) (=) k ->
  PyDict.getitem ((fun e => (k (fst e), snd e)) <$> d) (k p) =
  PyDict.getitem d p.
Proof.
  intros Hk. induction d as [|[p' r'] d IH]; [reflexivity|].
  rewrite fmap_cons. cbn [PyDict.getitem fst snd].
  destruct (Position.eqb p' p) eqn:E.
  - apply Position_eqb_eq in E as ->. rewrite Position_eqb_refl. reflexivity.
  - rewrite Position_eqb_neq; [exact IH|].
    intros Heq. apply Hk in Heq. subst p'.
    rewrite Position_eqb_refl in E. discriminate.
Qed.

(** X5.  In every reachable world [cube[position]] returns the piece of
    every position of [[-limit, limit]^3], an object of the store, and
    raises [KeyError] for every other position; the world is the same
    afterwards. *)
Theorem getitem_inside_and_outside (size : Z) (w : World) (p : Position.t) :
  reachable size w ->
  if in_cube (size / 2) p
  then exists r pc,
         Rubik.__getitem__ p w = (Ok r, w) /\ heap w !! r = Some pc
  else Rubik.__getitem__ p w = (Raise KeyError, w).
Proof.
  intros Hr. pose proof (reachable_well_formed _ _ Hr) as Hwf.
  pose proof (wf_range _ _ Hwf p) as Hp. fold (limit_of size).
  unfold Rubik.__getitem__, bind. rewrite pieces_run.
  destruct (in_cube (limit_of size) p).
  - assert (Hin : p ∈ PyDict.keys (_pieces (cube w))) by (apply Hp; reflexivity).
    apply list_elem_of_fmap in Hin as ([p' r] & -> & Hin). cbn [fst].
    rewrite (getitem_elem_of _ _ _ (wf_keys _ _ Hwf) Hin).
    destruct (wf_shell _ _ Hwf _ _ Hin) as (pc & Hpc & _).
    exists r, pc. split; [reflexivity|exact Hpc].
  - assert (Hout : PyDict.getitem (_pieces (cube w)) p = None).
    { apply getitem_None. intros Hin. apply Hp in Hin. discriminate. }
    rewrite Hout. reflexivity.
Qed.

Lemma getitem_inside_and_outside_witness :
  (if in_cube (3 / 2) (1, 0, -1)
   then exists r pc,
          Rubik.__getitem__ (1, 0, -1) (built 3) = (Ok r, built 3) /\
          heap (built 3) !! r = Some pc
   else Rubik.__getitem__ (1, 0, -1) (built 3) = (Raise KeyError, built 3)) /\
  (if in_cube (3 / 2) (2, 0, 0)
   then exists r pc,
          Rubik.__getitem__ (2, 0, 0) (built 3) = (Ok r, built 3) /\
          heap (built 3) !! r = Some pc
   else Rubik.__getitem__ (2, 0, 0) (built 3) = (Raise KeyError, built 3)).
Proof.
  split.
  - apply (getitem_inside_and_outside 3 (built 3) (1, 0, -1)).
    apply reach_new. vm_compute. reflexivity.
  - apply (getitem_inside_and_outside 3 (built 3) (2, 0, 0)).
    apply reach_new. vm_compute. reflexivity.
Defined.

(** ** A quarter turn, position by position *)

Lemma turn_lookup size f inv w p :
  well_formed size w ->
  let c := sign_of f * limit_of size in
  PyDict.getitem (_pieces (cube (turn f inv w)))
                 (rekey (axis_of f) c (rot f inv) p) =
    PyDict.getitem (_pieces (cube w)) p /\
  piece_at (turn f inv w) (rekey (axis_of f) c (rot f inv) p) =
    (if selected (axis_of f) c p then Piece.rotate (axis_of f) else id)
      <$> piece_at w p.
Proof.
  intros Hwf. cbv zeta.
  assert (Hget :
    PyDict.getitem (_pieces (cube (turn f inv w)))
      (rekey (axis_of f) (sign_of f * limit_of size) (rot f inv) p) =
    PyDict.getitem (_pieces (cube w)) p).
  { unfold turn. cbn [cube _pieces]. rewrite (wf_limit _ _ Hwf).
    unfold turn_dict. apply getitem_rekeyed, rekey_inj. }
  split; [exact Hget|].
  unfold piece_at. rewrite Hget.
  destruct (PyDict.getitem (_pieces (cube w)) p) as [r|] eqn:Hr;
    [|reflexivity].
  cbn [mbind option_bind]. unfold turn. cbn [heap].
  rewrite (wf_limit _ _ Hwf).
  apply (turn_heap_lookup _ _ _ _ p r (wf_refs _ _ Hwf)).
  apply getitem_Some, Hr.
Qed.

(** X6.  A quarter turn, position by position.  In every reachable
    world the turn of face [f] (reversed when [inv]) returns; the piece
    of a position [p] of the turned layer is afterwards at [rot f inv p],
    the same object with the two labels off the axis exchanged; the
    piece of any other position is where it was, with the labels it
    had. *)
Theorem quarter_turn_by_position
        (size : Z) (w : World) (f : Face) (inv : bool) (p : Position.t) :
  reachable size w ->
  exists w',
    method (f, if inv then inverse else quarter) w = (Ok tt, w') /\
    if Position.__getattr__ p (axis_of f) =? sign_of f * (size / 2)
    then PyDict.getitem (_pieces (cube w')) (rot f inv p) =
           PyDict.getitem (_pieces (cube w)) p /\
         piece_at w' (rot f inv p) =
           Piece.rotate (axis_of f) <$> piece_at w p
    else PyDict.getitem (_pieces (cube w')) p =
           PyDict.getitem (_pieces (cube w)) p /\
         piece_at w' p = piece_at w p.
Proof.
  intros Hr. pose proof (reachable_well_formed _ _ Hr) as Hwf.
  exists (turn f inv w). split.
  - rewrite (proj1 (reachable_move size w _ Hr)). destruct inv; reflexivity.
  - destruct (turn_lookup size f inv w p Hwf) as [Hget Hpc].
    unfold rekey, selected in Hget, Hpc. fold (limit_of size).
    destruct (Position.__getattr__ p (axis_of f) =? sign_of f * limit_of size).
    + split; [exact Hget|exact Hpc].
    + split; [exact Hget|]. rewrite Hpc.
      destruct (piece_at w p); reflexivity.
Qed.

Lemma quarter_turn_by_position_witness :
  exists w',
    method (fR, if false then inverse else quarter) (built 3) = (Ok tt, w') /\
    if Position.__getattr__ (1, -1, 1) (axis_of fR) =? sign_of fR * (3 / 2)
    then PyDict.getitem (_pieces (cube w')) (rot fR false (1, -1, 1)) =
           PyDict.getitem (_pieces (cube (built 3))) (1, -1, 1) /\
         piece_at w' (rot fR false (1, -1, 1)) =
           Piece.rotate (axis_of fR) <$> piece_at (built 3) (1, -1, 1)
    else PyDict.getitem (_pieces (cube w')) (1, -1, 1) =
           PyDict.getitem (_pieces (cube (built 3))) (1, -1, 1) /\
         piece_at w' (1, -1, 1) = piece_at (built 3) (1, -1, 1).
Proof.
  apply (quarter_turn_by_position 3 (built 3) fR false (1, -1, 1)).
  apply reach_new. vm_compute. reflexivity.
Defined.

(** ** The positions no move reaches *)

Lemma piece_at_shell_labels size w p pc :
  well_formed size w ->
  piece_at w p = Some pc -> shell_labels (limit_of size) p pc.
Proof.
  intros Hwf. unfold piece_at.
  destruct (PyDict.getitem (_pieces (cube w)) p) as [r|] eqn:Hr;
    [|discriminate].
  cbn [mbind option_bind]. intros Hpc.
  destruct (wf_shell _ _ Hwf p r (getitem_Some _ _ _ Hr)) as (pc' & Hpc' & Hl).
  congruence.
Qed.

Lemma not_on_shell_None l (lab : option config.Color) :
  0 < l -> (is_Some lab <-> on_shell l 0) -> lab = None.
Proof.
  intros Hl Hiff. destruct lab as [c|]; [|reflexivity].
  assert (Hs : on_shell l 0) by (apply Hiff; eexists; reflexivity).
  unfold on_shell in Hs. lia.
Qed.

Lemma still_selected_fixed f inv l p pc :
  0 < l ->
  still l p = true ->
  selected (axis_of f) (sign_of f * l) p = true ->
  shell_labels l p pc ->
  rot f inv p = p /\ Piece.rotate (axis_of f) pc = pc.
Proof.
  intros Hl Hstill Hsel Hlab.
  destruct p as [[x y] z], pc as [lx ly lz].
  unfold still, zero_coords in Hstill. unfold selected in Hsel.
  cbn [shell_labels Piece.x Piece.y Piece.z] in Hlab.
  destruct Hlab as (Hx & Hy & Hz).
  apply Z.eqb_eq in Hsel.
  apply orb_true_iff in Hstill as [Hin|Hzero].
  - rewrite !andb_true_iff, !Z.ltb_lt in Hin.
    destruct f; cbn in Hsel; lia.
  - apply Nat.leb_le in Hzero.
    destruct (Z.eqb_spec x 0), (Z.eqb_spec y 0), (Z.eqb_spec z 0);
      cbn in Hzero; try lia; subst;
      destruct f; cbn in Hsel; try lia;
      try rewrite (not_on_shell_None l lx Hl Hx);
      try rewrite (not_on_shell_None l ly Hl Hy);
      try rewrite (not_on_shell_None l lz Hl Hz);
      destruct inv; split; reflexivity.
Qed.

Lemma turn_still size f inv w p :
  well_formed size w ->
  0 < limit_of size ->
  still (limit_of size) p = true ->
  PyDict.getitem (_pieces (cube (turn f inv w))) p =
    PyDict.getitem (_pieces (cube w)) p /\
  piece_at (turn f inv w) p = piece_at w p.
Proof.
  intros Hwf Hl Hstill.
  destruct (turn_lookup size f inv w p Hwf) as [Hget Hpc].
  unfold rekey in Hget, Hpc.
  destruct (selected (axis_of f) (sign_of f * limit_of size) p) eqn:Hsel.
  - destruct (piece_at w p) as [pc|] eqn:Hat.
    + destruct (still_selected_fixed f inv _ p pc Hl Hstill Hsel
                  (piece_at_shell_labels _ _ _ _ Hwf Hat)) as [Hrot Hpiece].
      rewrite Hrot in Hget, Hpc. split; [exact Hget|].
      rewrite Hpc. cbn. rewrite Hpiece. reflexivity.
    + assert (Hnone : PyDict.getitem (_pieces (cube w)) p = None).
      { unfold piece_at in Hat.
        destruct (PyDict.getitem (_pieces (cube w)) p) as [r|] eqn:Hr;
          [|reflexivity].
        destruct (wf_shell _ _ Hwf p r (getitem_Some _ _ _ Hr))
          as (pc & Hpc' & _).
        cbn [mbind option_bind] in Hat. congruence. }
      assert (Hout : p ∉ PyDict.keys (_pieces (cube (turn f inv w)))).
      { intros Hin. apply (wf_range _ _ (turn_well_formed _ f inv _ Hwf)) in Hin.
        apply (wf_range _ _ Hwf) in Hin. apply getitem_None in Hnone.
        contradiction. }
      apply getitem_None in Hout. unfold piece_at.
      rewrite Hout, Hnone. split; reflexivity.
  - split; [exact Hget|]. rewrite Hpc.
    destruct (piece_at w p); reflexivity.
Qed.

Lemma move_effect_still size m w p :
  well_formed size w ->
  0 < limit_of size ->
  still (limit_of size) p = true ->
  PyDict.getitem (_pieces (cube (move_effect m w))) p =
    PyDict.getitem (_pieces (cube w)) p /\
  piece_at (move_effect m w) p = piece_at w p.
Proof.
  intros Hwf Hl Hstill. destruct m as [f []]; cbn [move_effect].
  - apply (turn_still size); assumption.
  - apply (turn_still size); assumption.
  - destruct (turn_still size f false _ p
                (turn_well_formed size f false w Hwf) Hl Hstill) as [G2 P2].
    destruct (turn_still size f false w p Hwf Hl Hstill) as [G1 P1].
    split; congruence.
Qed.

(** X7.  On a cube of size 2 or more no move reaches the positions off
    the turned layers: in every reachable world the piece strictly
    inside the cube, and the piece of every position with two or three
    coordinates 0 (the face centers, the cube center), is the object
    built there, with the labels it was built with. *)
Theorem still_positions_keep_their_piece
        (size : Z) (w : World) (p : Position.t) :
  1 < size ->
  reachable size w ->
  still (size / 2) p = true ->
  exists w0,
    new_cube size = (Ok tt, w0) /\
    PyDict.getitem (_pieces (cube w)) p =
      PyDict.getitem (_pieces (cube w0)) p /\
    piece_at w p = piece_at w0 p.
Proof.
  intros Hsize Hr Hstill. exists (built size).
  split; [apply new_cube_built|].
  assert (Hl : 0 < limit_of size).
  { unfold limit_of. apply Z.div_str_pos. lia. }
  fold (limit_of size) in Hstill.
  induction Hr as [w Hnew|w m w' Hr IH Hm].
  - rewrite new_cube_built in Hnew. injection Hnew as <-.
    split; reflexivity.
  - pose proof (reachable_well_formed _ _ Hr) as Hwf.
    rewrite (method_effect size m w Hwf) in Hm. injection Hm as <-.
    destruct (move_effect_still size m w p Hwf Hl Hstill) as [G P].
    destruct IH as [G0 P0]. split; congruence.
Qed.

Lemma still_positions_keep_their_piece_witness :
  exists w0,
    new_cube 3 = (Ok tt, w0) /\
    PyDict.getitem (_pieces (cube (move_effect (fR, quarter) (built 3))))
                   (1, 0, 0) =
      PyDict.getitem (_pieces (cube w0)) (1, 0, 0) /\
    piece_at (move_effect (fR, quarter) (built 3)) (1, 0, 0) =
      piece_at w0 (1, 0, 0).
Proof.
  apply (still_positions_keep_their_piece 3 _ (1, 0, 0)).
  - lia.
  - apply (reach_move 3 (built 3) (fR, quarter)).
    + apply reach_new. vm_compute. reflexivity.
    + vm_compute. reflexivity.
  - reflexivity.
Defined.

(** ** The pieces are the ones built *)

Lemma length_turn_heap axis c d : forall h,
  length (turn_heap axis c d h) = length h.
Proof.
  induction d as [|e d IH]; intros h; [reflexivity|].
  rewrite turn_heap_cons, IH.
  destruct (selected axis c (fst e)); [apply length_alter|reflexivity].
Qed.

Lemma turn_same_pieces f inv w :
  PyDict.values (_pieces (cube (turn f inv w))) =
    PyDict.values (_pieces (cube w)) /\
  length (heap (turn f inv w)) = length (heap w).
Proof.
  unfold turn. cbn [cube heap _pieces]. split.
  - apply values_turn_dict.
  - apply length_turn_heap.
Qed.

Lemma move_effect_same_pieces m w :
  PyDict.values (_pieces (cube (move_effect m w))) =
    PyDict.values (_pieces (cube w)) /\
  length (heap (move_effect m w)) = length (heap w).
Proof.
  destruct m as [f []]; cbn [move_effect];
    try apply turn_same_pieces.
  destruct (turn_same_pieces f false (turn f false w)) as [V2 L2].
  destruct (turn_same_pieces f false w) as [V1 L1].
  split; congruence.
Qed.

Lemma length_bind_same {A B} (k : A -> list B) (n : nat) (l : list A) :
  (forall a, length (k a) = n) -> length (l ≫= k) = (length l * n)%nat.
Proof.
  intros Hk. induction l as [|a l IH]; [reflexivity|].
  rewrite bind_cons, length_app, Hk, IH. reflexivity.
Qed.

Lemma length_cube_positions l :
  length (cube_positions l) = (Z.to_nat (2 * l + 1) ^ 3)%nat.
Proof.
  unfold cube_positions, py_range. cbv zeta.
  replace (l + 1 - - l) with (2 * l + 1) by lia.
  set (n := Z.to_nat (2 * l + 1)).
  rewrite (length_bind_same _ (n * n)%nat).
  - rewrite length_seqZ. fold n. cbn [Nat.pow]. lia.
  - intros x. rewrite (length_bind_same _ n).
    + rewrite length_seqZ. reflexivity.
    + intros y. rewrite (length_bind_same _ 1%nat).
      * rewrite length_seqZ. fold n. lia.
      * intros z. reflexivity.
Qed.

Lemma odd_positive_limit size : odd_positive size -> 2 * (size / 2) + 1 = size.
Proof.
  intros [Hpos Hodd]. apply Z.odd_spec in Hodd as [k ->].
  replace (2 * k + 1) with (1 + k * 2) by lia.
  rewrite Z.div_add by lia. change (1 / 2) with 0. lia.
Qed.

(** X8.  No move creates, drops or replaces a piece.  In every
    reachable world of a cube of odd positive size the dictionary has
    [size^3] entries and the store [size^3] pieces, and the entries
    refer, in their order, to the pieces in the order they were built:
    a move changes keys, never the values or their order. *)
Theorem pieces_are_the_ones_built (size : Z) (w : World) :
  odd_positive size ->
  reachable size w ->
  length (_pieces (cube w)) = Z.to_nat (size ^ 3) /\
  length (heap w) = Z.to_nat (size ^ 3) /\
  PyDict.values (_pieces (cube w)) = seq 0 (Z.to_nat (size ^ 3)).
Proof.
  intros Hodd Hr.
  assert (Hn : length (cube_positions (limit_of size)) = Z.to_nat (size ^ 3)).
  { rewrite length_cube_positions. unfold limit_of.
    rewrite (odd_positive_limit size Hodd).
    destruct Hodd as [Hpos _].
    replace (size ^ 3) with (size * size * size) by lia.
    rewrite !Z2Nat.inj_mul by lia. cbn [Nat.pow]. lia. }
  assert (Hinv :
    PyDict.values (_pieces (cube w)) =
      seq 0 (length (cube_positions (limit_of size))) /\
    length (heap w) = length (cube_positions (limit_of size))).
  { clear Hn. induction Hr as [w Hnew|w m w' Hr IH Hm].
    - rewrite new_cube_built in Hnew. injection Hnew as <-.
      split; [apply built_values|].
      cbn [built heap]. apply length_fmap.
    - pose proof (reachable_well_formed _ _ Hr) as Hwf.
      rewrite (method_effect size m w Hwf) in Hm. injection Hm as <-.
      destruct (move_effect_same_pieces m w) as [V L].
      destruct IH as [V0 L0]. split; congruence. }
  destruct Hinv as [Hvals Hlen]. rewrite Hn in Hvals, Hlen.
  split; [|split; assumption].
  rewrite <- (length_fmap snd). fold (PyDict.values (_pieces (cube w))).
  rewrite Hvals. apply length_seq.
Qed.

Lemma pieces_are_the_ones_built_witness :
  length (_pieces (cube (move_effect (fR, quarter) (built 3))))
    = Z.to_nat (3 ^ 3) /\
  length (heap (move_effect (fR, quarter) (built 3))) = Z.to_nat (3 ^ 3) /\
  PyDict.values (_pieces (cube (move_effect (fR, quarter) (built 3))))
    = seq 0 (Z.to_nat (3 ^ 3)).
Proof.
  apply (pieces_are_the_ones_built 3).
  - split; [lia|reflexivity].
  - apply (reach_move 3 (built 3) (fR, quarter)).
    + apply reach_new. vm_compute. reflexivity.
    + vm_compute. reflexivity.
Defined.

(** ** The colors of a piece *)

Lemma same_colors_rotate axis pc : same_colors pc (Piece.rotate axis pc).
Proof.
  unfold same_colors. destruct pc as [lx ly lz].
  destruct axis; cbn [Piece.rotate Piece.x Piece.y Piece.z].
  - apply perm_skip, perm_swap.
  - etransitivity; [apply perm_swap|].
    etransitivity; [apply perm_skip, perm_swap|].
    apply perm_swap.
  - apply perm_swap.
Qed.

Lemma turn_heap_same_colors axis c d h0 : forall h,
  Forall2 same_colors h0 h ->
  Forall2 same_colors h0 (turn_heap axis c d h).
Proof.
  induction d as [|e d IH]; intros h Hh; [exact Hh|].
  rewrite turn_heap_cons. apply IH.
  destruct (selected axis c (fst e)); [|exact Hh].
  apply Forall2_alter_r; [exact Hh|].
  intros pc pc' _ _ Hsame. unfold same_colors in *.
  etransitivity; [exact Hsame|]. apply same_colors_rotate.
Qed.

Lemma move_effect_same_colors m w h0 :
  Forall2 same_colors h0 (heap w) ->
  Forall2 same_colors h0 (heap (move_effect m w)).
Proof.
  intros Hh. destruct m as [f []]; cbn [move_effect]; unfold turn;
    cbn [heap cube _pieces _coord_limit];
    repeat apply turn_heap_same_colors; exact Hh.
Qed.

(** X9.  A piece keeps its colors.  In every reachable world each piece
    object carries the three labels it was built with, absent ones
    included, in some order: moves only exchange the labels of a
    piece. *)
Theorem pieces_keep_their_colors (size : Z) (w : World) :
  reachable size w ->
  exists w0,
    new_cube size = (Ok tt, w0) /\
    Forall2 same_colors (heap w0) (heap w).
Proof.
  intros Hr. exists (built size). split; [apply new_cube_built|].
  induction Hr as [w Hnew|w m w' Hr IH Hm].
  - rewrite new_cube_built in Hnew. injection Hnew as <-.
    apply Forall_Forall2_diag, Forall_forall. intros pc _.
    unfold same_colors. reflexivity.
  - pose proof (reachable_well_formed _ _ Hr) as Hwf.
    rewrite (method_effect size m w Hwf) in Hm. injection Hm as <-.
    apply move_effect_same_colors, IH.
Qed.

Lemma pieces_keep_their_colors_witness :
  exists w0,
    new_cube 3 = (Ok tt, w0) /\
    Forall2 same_colors (heap w0) (heap (move_effect (fF, inverse) (built 3))).
Proof.
  apply (pieces_keep_their_colors 3).
  apply (reach_move 3 (built 3) (fF, inverse)).
  - apply reach_new. vm_compute. reflexivity.
  - vm_compute. reflexivity.
Defined.

(** ** A rotation that raises *)

Lemma new_position_for_None direction p q :
  Rubik.new_position_for direction p = None ->
  Rubik.new_position_for direction q = None.
Proof.
  destruct p as [[x y] z], q as [[x' y'] z']. unfold Rubik.new_position_for.
  repeat match goal with
         | |- context [Rubik.triple_eqb direction ?v] =>
             destruct (Rubik.triple_eqb direction v); [discriminate|]
         end.
  reflexivity.
Qed.

Section RotationLoop.
Variables (axis : config.Axis) (sign : Z) (rotation : Z * Z * Z)
          (inverse : bool).

Lemma rotation_step_run p r acc w :
  Rubik.rotation_step axis sign rotation inverse (p, r) acc w =
  if Position.__getattr__ p axis =? sign * _coord_limit (cube w)
  then match Rubik.new_position_for (direction_of rotation inverse) p with
       | Some new_position =>
           (Ok (PyDict.setitem acc new_position r),
            mkWorld (alter (Piece.rotate axis) r (heap w)) (cube w) (logged w))
       | None => (Raise UnboundLocalError, w)
       end
  else (Ok (PyDict.setitem acc p r), w).
Proof.
  unfold Rubik.rotation_step. unfold bind at 1. rewrite coord_limit_run.
  cbv beta iota.
  destruct (Position.__getattr__ p axis =? sign * _coord_limit (cube w));
    [|reflexivity].
  unfold direction_of. destruct rotation as [[rx ry] rz].
  destruct (Rubik.new_position_for _ p); reflexivity.
Qed.

Lemma rotation_step_unbound item acc w :
  (forall p, Rubik.new_position_for (direction_of rotation inverse) p = None) ->
  Rubik.rotation_step axis sign rotation inverse item acc w =
    (Raise UnboundLocalError, w) \/
  exists acc',
    Rubik.rotation_step axis sign rotation inverse item acc w = (Ok acc', w).
Proof.
  intros Hnone. destruct item as [p r]. rewrite rotation_step_run, Hnone.
  destruct (Position.__getattr__ p axis =? sign * _coord_limit (cube w)).
  - left. reflexivity.
  - right. eexists. reflexivity.
Qed.

Lemma rotation_step_bound item acc w :
  (forall p, Rubik.new_position_for (direction_of rotation inverse) p <> None) ->
  exists acc' w',
    Rubik.rotation_step axis sign rotation inverse item acc w = (Ok acc', w').
Proof.
  intros Hsome. destruct item as [p r]. rewrite rotation_step_run.
  specialize (Hsome p).
  destruct (Position.__getattr__ p axis =? sign * _coord_limit (cube w)).
  - destruct (Rubik.new_position_for (direction_of rotation inverse) p) as [np|]; [|contradiction].
    eexists. eexists. reflexivity.
  - eexists. eexists. reflexivity.
Qed.

Lemma rotation_loop_unbound items :
  (forall p, Rubik.new_position_for (direction_of rotation inverse) p = None) ->
  forall acc w,
    for_in items (Rubik.rotation_step axis sign rotation inverse) acc w =
      (Raise UnboundLocalError, w) \/
    exists acc',
      for_in items (Rubik.rotation_step axis sign rotation inverse) acc w =
        (Ok acc', w).
Proof.
  intros Hnone. induction items as [|item items IH]; intros acc w.
  - right. eexists. reflexivity.
  - cbn [for_in]. unfold bind.
    destruct (rotation_step_unbound item acc w Hnone) as [->|[acc' ->]].
    + left. reflexivity.
    + apply IH.
Qed.

Lemma rotation_loop_bound items :
  (forall p, Rubik.new_position_for (direction_of rotation inverse) p <> None) ->
  forall acc w,
    exists acc' w',
      for_in items (Rubik.rotation_step axis sign rotation inverse) acc w =
        (Ok acc', w').
Proof.
  intros Hsome. induction items as [|item items IH]; intros acc w.
  - eexists. eexists. reflexivity.
  - cbn [for_in]. unfold bind.
    destruct (rotation_step_bound item acc w Hsome) as (acc' & w' & ->).
    apply IH.
Qed.

Lemma rotation_loop_raise items acc w e w' :
  for_in items (Rubik.rotation_step axis sign rotation inverse) acc w =
    (Raise e, w') ->
  w' = w /\ e = UnboundLocalError.
Proof.
  intros Hrun.
  destruct (Rubik.new_position_for (direction_of rotation inverse) (0, 0, 0)) eqn:Hd.
  - destruct (rotation_loop_bound items) with (acc := acc) (w := w)
      as (acc' & w'' & Hok).
    + intros p Hp. apply (new_position_for_None _ _ (0, 0, 0)) in Hp.
      congruence.
    + congruence.
  - destruct (rotation_loop_unbound items) with (acc := acc) (w := w)
      as [Hraise|[acc' Hok]].
    + intros p. apply (new_position_for_None _ (0, 0, 0)), Hd.
    + rewrite Hraise in Hrun. injection Hrun as <- <-. split; reflexivity.
    + congruence.
Qed.

End RotationLoop.

(** X10.  [_make_rotation] is all or nothing.  For every rotation
    vector, every flag and every world, a call that raises leaves the
    world exactly as it was: no piece rotated, the dictionary not
    replaced; and what it raises is [ValueError] (no component of
    magnitude 1) or [UnboundLocalError] (a piece selected and no branch
    for the direction). *)
Theorem make_rotation_all_or_nothing
        (rotation : Z * Z * Z) (inverse : bool) (w w' : World) (e : PyExn) :
  Rubik._make_rotation rotation inverse w = (Raise e, w') ->
  w' = w /\ (e = ValueError \/ e = UnboundLocalError).
Proof.
  destruct rotation as [[rx ry] rz]. unfold Rubik._make_rotation.
  destruct (Rubik.index [Z.abs rx; Z.abs ry; Z.abs rz] 1) as [i|].
  - unfold bind at 1. rewrite pieces_run. cbv beta iota.
    unfold bind at 1.
    destruct (for_in _ _ _ w) as [[d'|e'] w''] eqn:Hloop.
    + discriminate.
    + intros [= <- <-].
      apply rotation_loop_raise in Hloop as [-> ->]. auto.
  - intros [= <- <-]. auto.
Qed.

Lemma make_rotation_all_or_nothing_witness :
  (built 3 = built 3 /\
   (UnboundLocalError = ValueError \/ UnboundLocalError = UnboundLocalError))
  /\
  (built 3 = built 3 /\
   (ValueError = ValueError \/ ValueError = UnboundLocalError)).
Proof.
  split.
  - apply (make_rotation_all_or_nothing (1, -1, 0) false (built 3)).
    vm_compute. reflexivity.
  - apply (make_rotation_all_or_nothing (0, 2, 0) true (built 3)).
    vm_compute. reflexivity.
Defined.

(** ** The callback of the session *)

Lemma turn_with_log f inv w lg :
  turn f inv (with_log w lg) = with_log (turn f inv w) lg.
Proof. reflexivity. Qed.

Lemma move_effect_with_log m w lg :
  move_effect m (with_log w lg) = with_log (move_effect m w) lg.
Proof. destruct m as [f []]; reflexivity. Qed.

Lemma well_formed_with_log size w lg :
  well_formed size w -> well_formed size (with_log w lg).
Proof. intros [H1 H2 H3 H4 H5 H6]. constructor; assumption. Qed.

(** Every named move returns, on any world at all. *)
Lemma method_returns m w : exists w', method m w = (Ok tt, w').
Proof.
  destruct m as [f []].
  - rewrite method_quarter, make_rotation_vec. eexists. reflexivity.
  - rewrite method_inverse, make_rotation_vec. eexists. reflexivity.
  - rewrite method_double. unfold bind.
    rewrite method_quarter, make_rotation_vec. cbv beta iota zeta.
    rewrite make_rotation_vec. eexists. reflexivity.
Qed.

Lemma callback_run size m w :
  well_formed size w ->
  Controller.make_move_callback (name m) w = (Ok true, moved m w).
Proof.
  intros Hwf. unfold Controller.make_move_callback, try_except.
  unfold bind at 1. unfold log_line at 1. cbv beta iota.
  unfold bind at 1. rewrite getattr_move. unfold ret at 1. cbv beta iota.
  unfold bind at 1. cbn [call0].
  set (lg := logged w ++ _).
  change (mkWorld (heap w) (cube w) lg) with (with_log w lg).
  rewrite (method_effect size m _ (well_formed_with_log size w lg Hwf)).
  rewrite move_effect_with_log. reflexivity.
Qed.

Lemma moved_well_formed size m w :
  well_formed size w -> well_formed size (moved m w).
Proof.
  intros Hwf. apply well_formed_with_log, move_effect_well_formed, Hwf.
Qed.

Lemma moved_with_log m w lg :
  moved m (with_log w lg) =
  with_log (move_effect m w)
    (lg ++ [(INFO, String.append "Calling instruction: " (name m))]).
Proof. unfold moved. rewrite move_effect_with_log. reflexivity. Qed.

(** X11.  At any point of a session, the pieces and the cube being what
    some moves have made of a new cube and the log holding whatever it
    holds by then, [make_move_callback] with the name of one of the
    eighteen moves logs the instruction, makes the move and answers
    [True]: the pieces and the cube are what the method of that name
    leaves, again reachable, and the log has one more INFO line. *)
Theorem callback_makes_the_move
        (size : Z) (w : World) (m : Move) (lg : list (Level * string)) :
  reachable size w ->
  exists w1,
    method m w = (Ok tt, w1) /\
    reachable size w1 /\
    Controller.make_move_callback (name m) (with_log w lg) =
      (Ok true,
       with_log w1
         (lg ++ [(INFO, String.append "Calling instruction: " (name m))])).
Proof.
  intros Hr. pose proof (reachable_well_formed _ _ Hr) as Hwf.
  assert (Hm : method m w = (Ok tt, move_effect m w))
    by (apply (method_effect size), Hwf).
  exists (move_effect m w). split; [exact Hm|].
  split; [apply (reach_move size w m _ Hr Hm)|].
  rewrite (callback_run size m _ (well_formed_with_log size w lg Hwf)).
  rewrite moved_with_log. reflexivity.
Qed.

Lemma callback_makes_the_move_witness :
  exists w1,
    method (fL, double) (move_effect (fR, quarter) (built 3)) = (Ok tt, w1) /\
    reachable 3 w1 /\
    Controller.make_move_callback (name (fL, double))
      (with_log (move_effect (fR, quarter) (built 3))
         [(INFO, "Starting new session.");
          (INFO, "Calling instruction: R")]) =
      (Ok true,
       with_log w1
         ([(INFO, "Starting new session.");
           (INFO, "Calling instruction: R")] ++
          [(INFO, String.append "Calling instruction: " (name (fL, double)))])).
Proof.
  apply (callback_makes_the_move 3 (move_effect (fR, quarter) (built 3))
           (fL, double)).
  apply (reach_move 3 (built 3) (fR, quarter)).
  - apply reach_new. vm_compute. reflexivity.
  - vm_compute. reflexivity.
Defined.

Lemma assoc_Forall (P : Attr -> Prop) table token a :
  Forall (fun e => P (snd e)) table ->
  assoc token table = Some a -> P a.
Proof.
  induction 1 as [|[n a'] table Hhead _ IH]; cbn [assoc]; [discriminate|].
  destruct (String.eqb n token); [|exact IH].
  intros [= <-]. exact Hhead.
Qed.

Lemma generate_init_pieces_returns w :
  exists w', Rubik._generate_init_pieces w = (Ok tt, w').
Proof. rewrite generate_init_pieces_run. eexists. reflexivity. Qed.

Lemma attributes_return_or_refuse :
  Forall (fun e => returns_or_refuses (snd e)) (Rubik_attrs ++ object_attrs).
Proof.
  unfold Rubik_attrs, object_attrs. cbn [app].
  repeat (apply Forall_cons; split;
    [cbn [snd returns_or_refuses];
     first [ exact I
           | exact generate_init_pieces_returns
           | exact (fun w => ex_intro _ w eq_refl)
           | exact (method_returns (fR, quarter))
           | exact (method_returns (fR, inverse))
           | exact (method_returns (fR, double))
           | exact (method_returns (fL, quarter))
           | exact (method_returns (fL, inverse))
           | exact (method_returns (fL, double))
           | exact (method_returns (fU, quarter))
           | exact (method_returns (fU, inverse))
           | exact (method_returns (fU, double))
           | exact (method_returns (fD, quarter))
           | exact (method_returns (fD, inverse))
           | exact (method_returns (fD, double))
           | exact (method_returns (fF, quarter))
           | exact (method_returns (fF, inverse))
           | exact (method_returns (fF, double))
           | exact (method_returns (fB, quarter))
           | exact (method_returns (fB, inverse))
           | exact (method_returns (fB, double)) ]
    |]).
  apply Forall_nil. exact I.
Qed.

(** X12.  Whenever [make_move_callback] does not answer [True] (it
    answers [False], or the call raises) the pieces and the cube are
    exactly as they were, whatever the token and the world: only a
    call that reports success can have changed the cube. *)
Theorem callback_failure_leaves_the_cube
        (token : string) (w w' : World) (r : Outcome bool) :
  Controller.make_move_callback token w = (r, w') ->
  r <> Ok true ->
  heap w' = heap w /\ cube w' = cube w.
Proof.
  unfold Controller.make_move_callback, try_except.
  unfold bind at 1. unfold log_line at 1. cbv beta iota.
  unfold bind at 1. unfold getattr.
  destruct (assoc token (Rubik_attrs ++ object_attrs)) as [a|] eqn:Ha.
  - unfold ret at 1. cbv beta iota. unfold bind at 1.
    pose proof (assoc_Forall _ _ _ _ attributes_return_or_refuse Ha) as Hret.
    destruct a as [f| |]; cbn [call0 returns_or_refuses] in *.
    + destruct (Hret (mkWorld (heap w) (cube w)
                        (logged w ++
                         [(INFO, String.append "Calling instruction: " token)])))
        as [w1 ->].
      cbv beta iota. unfold ret. intros [= <- <-] Hne. contradiction.
    + unfold raise. cbv beta iota.
      destruct (decide (TypeError = AttributeError)); [discriminate|].
      intros [= <- <-] _. split; reflexivity.
    + unfold raise. cbv beta iota.
      destruct (decide (TypeError = AttributeError)); [discriminate|].
      intros [= <- <-] _. split; reflexivity.
  - unfold raise. cbv beta iota.
    destruct (decide (AttributeError = AttributeError)); [|contradiction].
    unfold bind, log_line, ret. intros [= <- <-] _. split; reflexivity.
Qed.

Lemma callback_failure_leaves_the_cube_witness :
  heap (with_log (move_effect (fR, quarter) (built 3))
          [(INFO, "Calling instruction: pieces")])
    = heap (move_effect (fR, quarter) (built 3)) /\
  cube (with_log (move_effect (fR, quarter) (built 3))
          [(INFO, "Calling instruction: pieces")])
    = cube (move_effect (fR, quarter) (built 3)).
Proof.
  apply (callback_failure_leaves_the_cube "pieces" _ _ (Raise TypeError)).
  - vm_compute. reflexivity.
  - discriminate.
Defined.

(** ** Notations *)

Lemma split_single m : split (name m) = [name m].
Proof. destruct m as [[] []]; reflexivity. Qed.

Lemma split_from_name_blank m s :
  split_from (String.append (name m) (String " " s)) "" =
  name m :: split_from s "".
Proof. destruct m as [[] []]; reflexivity. Qed.

Lemma split_joined ms : split (joined ms) = name <$> ms.
Proof.
  unfold split. induction ms as [|m ms IH]; [reflexivity|].
  destruct ms as [|m' ms].
  - apply split_single.
  - change (joined (m :: m' :: ms))
      with (String.append (name m) (String " " (joined (m' :: ms)))).
    rewrite split_from_name_blank, IH. reflexivity.
Qed.

(** X13.  [apply_notation] of the names of moves written one after the
    other with a blank in between makes those moves, in that order, and
    does nothing else: on every world it returns or raises what the
    sequence of method calls returns or raises, and leaves the same
    world. *)
Theorem apply_notation_of_move_names (ms : list Move) (w : World) :
  Controller.apply_notation (joined ms) w = apply_moves ms w.
Proof.
  rewrite apply_notation_tokens, split_joined. apply apply_tokens_moves.
Qed.

Lemma split_from_blank s : blank s = true -> split_from s "" = [].
Proof.
  induction s as [|c s IH]; [reflexivity|].
  cbn [blank split_from]. intros [Hc Hs]%andb_true_iff.
  rewrite Hc. cbn. apply IH, Hs.
Qed.

(** X14.  [apply_notation] of the empty string, or of a string of
    white space only (of code points below 256: 9 to 13, 28 to 32,
    U+0085, U+00A0), makes no move: it returns and the world is as it
    was. *)
Theorem apply_notation_of_blank (notation : string) (w : World) :
  blank notation = true ->
  Controller.apply_notation notation w = (Ok tt, w).
Proof.
  intros Hb. rewrite apply_notation_tokens. unfold split.
  rewrite (split_from_blank _ Hb). reflexivity.
Qed.

Lemma apply_notation_of_blank_witness :
  Controller.apply_notation
    (String " " (String (ascii_of_nat 160) (String (ascii_of_nat 9)
       (String (ascii_of_nat 133) (String (ascii_of_nat 10) EmptyString)))))
    (built 3) = (Ok tt, built 3) /\
  Controller.apply_notation "" (built 3) = (Ok tt, built 3).
Proof.
  split.
  - apply (apply_notation_of_blank
             (String " " (String (ascii_of_nat 160) (String (ascii_of_nat 9)
                (String (ascii_of_nat 133)
                   (String (ascii_of_nat 10) EmptyString)))))).
    reflexivity.
  - apply (apply_notation_of_blank ""). reflexivity.
Defined.

(** ** Even sizes *)

(** X15.  An even size builds the cube of the next odd size.  For every
    integer [k], [Rubik(2k)] and [Rubik(2k + 1)] both return, with the
    same limit [k], the same pieces and the same dictionary; only the
    attribute [_size] tells them apart. *)
Theorem even_size_builds_the_next_odd_cube (k : Z) :
  exists w0 w1,
    new_cube (2 * k) = (Ok tt, w0) /\
    new_cube (2 * k + 1) = (Ok tt, w1) /\
    _size (cube w0) = 2 * k /\
    _size (cube w1) = 2 * k + 1 /\
    _coord_limit (cube w0) = k /\
    _coord_limit (cube w1) = k /\
    heap w0 = heap w1 /\
    _pieces (cube w0) = _pieces (cube w1).
Proof.
  exists (built (2 * k)), (built (2 * k + 1)).
  assert (H0 : limit_of (2 * k) = k).
  { unfold limit_of. rewrite Z.mul_comm. apply Z.div_mul. lia. }
  assert (H1 : limit_of (2 * k + 1) = k).
  { unfold limit_of. replace (2 * k + 1) with (1 + k * 2) by lia.
    rewrite Z.div_add by lia. reflexivity. }
  split; [apply new_cube_built|]. split; [apply new_cube_built|].
  unfold built. cbn [cube heap _size _coord_limit _pieces].
  rewrite H0, H1. repeat split; reflexivity.
Qed.

(** ** The terminal view *)

Lemma py_index_inside n i :
  0 <= i < Z.of_nat n -> py_index n i = Some (Z.to_nat i).
Proof.
  intros Hi. unfold py_index.
  destruct (Z.leb_spec 0 i); [|lia].
  destruct (Z.ltb_spec i (Z.of_nat n)); [|lia]. reflexivity.
Qed.

Lemma py_index_beyond n i : Z.of_nat n <= i -> py_index n i = None.
Proof.
  intros Hi. unfold py_index.
  destruct (Z.ltb_spec i (Z.of_nat n)); [lia|].
  rewrite andb_false_r.
  destruct (Z.ltb_spec i 0); [lia|]. rewrite andb_false_r. reflexivity.
Qed.

Lemma shape_line rows cols m i line :
  shape rows cols m -> m !! i = Some line -> length line = cols.
Proof.
  intros [_ Hlines] Hi.
  apply (proj1 (Forall_lookup _ _) Hlines i line Hi).
Qed.

Lemma get_cell_inside rows cols m row col :
  shape rows cols m ->
  0 <= row < Z.of_nat rows -> 0 <= col < Z.of_nat cols ->
  get_cell m row col = cell_at m (Z.to_nat row) (Z.to_nat col).
Proof.
  intros Hshape Hrow Hcol. unfold get_cell, cell_at.
  destruct Hshape as [Hlen Hlines].
  rewrite Hlen, (py_index_inside rows row Hrow). cbn [mbind option_bind].
  destruct (m !! Z.to_nat row) as [line|] eqn:Hline; [|reflexivity].
  cbn [mbind option_bind].
  rewrite (shape_line rows cols m _ line (conj Hlen Hlines) Hline).
  rewrite (py_index_inside cols col Hcol). reflexivity.
Qed.

Lemma set_cell_inside rows cols m row col v :
  shape rows cols m ->
  0 <= row < Z.of_nat rows -> 0 <= col < Z.of_nat cols ->
  exists m',
    set_cell m row col v = Some m' /\
    shape rows cols m' /\
    forall i j,
      cell_at m' i j =
      if decide (i = Z.to_nat row /\ j = Z.to_nat col)
      then Some v else cell_at m i j.
Proof.
  intros Hshape Hrow Hcol. pose proof Hshape as [Hlen Hlines].
  assert (Hi : (Z.to_nat row < length m)%nat) by lia.
  destruct (lookup_lt_is_Some_2 m _ Hi) as [line Hline].
  pose proof (shape_line _ _ _ _ _ Hshape Hline) as Hll.
  exists (<[Z.to_nat row := <[Z.to_nat col := v]> line]> m).
  split; [|split].
  - unfold set_cell. rewrite Hlen, (py_index_inside rows row Hrow).
    cbn [mbind option_bind]. rewrite Hline. cbn [mbind option_bind].
    rewrite Hll, (py_index_inside cols col Hcol). reflexivity.
  - split; [rewrite length_insert; exact Hlen|].
    apply Forall_insert; [exact Hlines|].
    rewrite length_insert. exact Hll.
  - intros i j. unfold cell_at.
    destruct (decide (i = Z.to_nat row)) as [->|Hne].
    + rewrite list_lookup_insert_eq by exact Hi. cbn [mbind option_bind].
      rewrite Hline. cbn [mbind option_bind].
      destruct (decide (j = Z.to_nat col)) as [->|Hnej].
      * rewrite decide_True by auto.
        apply list_lookup_insert_eq. lia.
      * rewrite decide_False by tauto.
        apply list_lookup_insert_ne. congruence.
    + rewrite list_lookup_insert_ne by congruence.
      rewrite decide_False by tauto. reflexivity.
Qed.

Lemma set_cell_beyond rows cols m row col v :
  shape rows cols m ->
  0 <= row -> 0 <= col ->
  Z.of_nat rows <= row \/ Z.of_nat cols <= col ->
  set_cell m row col v = None.
Proof.
  intros Hshape Hrow Hcol Hout. pose proof Hshape as [Hlen Hlines].
  unfold set_cell. rewrite Hlen.
  destruct (Z.le_gt_cases (Z.of_nat rows) row) as [Hr|Hr].
  - rewrite (py_index_beyond _ _ Hr). reflexivity.
  - rewrite (py_index_inside rows row) by lia. cbn [mbind option_bind].
    destruct (m !! Z.to_nat row) as [line|] eqn:Hline; [|reflexivity].
    cbn [mbind option_bind].
    rewrite (shape_line _ _ _ _ _ Hshape Hline).
    rewrite py_index_beyond by lia. reflexivity.
Qed.

Lemma apply_writes_cons m wr ws :
  apply_writes m (wr :: ws) =
  match set_cell m (fst (fst wr)) (snd (fst wr)) (snd wr) with
  | Some m' => apply_writes m' ws
  | None => inl IndexError
  end.
Proof.
  unfold apply_writes. cbn [foldl and_then].
  destruct (set_cell m _ _ _); [reflexivity|].
  induction ws as [|wr' ws IH]; [reflexivity|]. exact IH.
Qed.

Lemma apply_writes_app m ws ws' :
  apply_writes m (ws ++ ws') = (m' <~ apply_writes m ws ;; apply_writes m' ws').
Proof.
  revert m. induction ws as [|wr ws IH]; intros m; [reflexivity|].
  cbn [app]. rewrite !apply_writes_cons.
  destruct (set_cell m _ _ _); [apply IH|reflexivity].
Qed.

(** Writes inside the matrix all succeed; afterwards a cell holds what
    was last written to it, or what it held. *)
Lemma apply_writes_inside rows cols ws : forall m,
  shape rows cols m ->
  Forall (inside rows cols) ws ->
  exists m',
    apply_writes m ws = inr m' /\
    shape rows cols m' /\
    (forall i j,
        (forall wr, wr ∈ ws ->
                    ~ (i = Z.to_nat (fst (fst wr)) /\
                       j = Z.to_nat (snd (fst wr)))) ->
        cell_at m' i j = cell_at m i j) /\
    (forall wr,
        wr ∈ ws ->
        (forall wr', wr' ∈ ws -> fst wr' = fst wr -> snd wr' = snd wr) ->
        cell_at m' (Z.to_nat (fst (fst wr))) (Z.to_nat (snd (fst wr)))
          = Some (snd wr)).
Proof.
  induction ws as [|wr0 ws IH]; intros m Hshape Hin.
  - exists m. split; [reflexivity|]. split; [exact Hshape|].
    split; [reflexivity|]. intros wr Hwr. inversion Hwr.
  - apply Forall_cons in Hin as [[Hrow Hcol] Hin].
    destruct (set_cell_inside rows cols m _ _ (snd wr0) Hshape Hrow Hcol)
      as (m1 & Hset & Hshape1 & Hcell1).
    destruct (IH m1 Hshape1 Hin) as (m' & Hrun & Hshape' & Hkeep & Hlast).
    exists m'. split; [rewrite apply_writes_cons, Hset; exact Hrun|].
    split; [exact Hshape'|]. split.
    + intros i j Hfree. rewrite Hkeep.
      * rewrite Hcell1. rewrite decide_False; [reflexivity|].
        apply Hfree. left.
      * intros wr Hwr. apply Hfree. right. exact Hwr.
    + intros wr Hwr Hfun.
      destruct (decide (Exists (fun wr' => fst wr' = fst wr) ws)) as [Hex|Hnex].
      * apply Exists_exists in Hex as (wr' & Hwr' & Hkey).
        assert (Hval : snd wr' = snd wr) by (apply Hfun; [right|]; assumption).
        rewrite <- Hkey, <- Hval. apply Hlast; [exact Hwr'|].
        intros wr'' Hwr'' Hkey''. rewrite Hval.
        apply Hfun; [right; exact Hwr''|congruence].
      * rewrite Hkeep.
        -- apply elem_of_cons in Hwr as [->|Hwr].
           ++ rewrite Hcell1. rewrite decide_True by auto. reflexivity.
           ++ exfalso. apply Hnex, Exists_exists. exists wr. auto.
        -- intros wr' Hwr' [Hi Hj]. apply Hnex, Exists_exists.
           exists wr'. split; [exact Hwr'|].
           apply Forall_forall with (x := wr') in Hin; [|exact Hwr'].
           destruct Hin as [Hr' Hc'].
           assert (Hwr0 : inside rows cols wr).
           { apply elem_of_cons in Hwr as [->|Hwr]; [split; assumption|].
             exfalso. apply Hnex, Exists_exists. exists wr. auto. }
           destruct Hwr0 as [Hr0 Hc0].
           destruct wr' as [[r' c'] v'], wr as [[r c] v]. cbn in *.
           f_equal; lia.
Qed.

(** Writes at indices that are not negative: the first one beyond the
    matrix raises [IndexError]. *)
Lemma apply_writes_beyond rows cols ws : forall m,
  shape rows cols m ->
  Forall (fun wr => 0 <= fst (fst wr) /\ 0 <= snd (fst wr)) ws ->
  Exists (fun wr => Z.of_nat rows <= fst (fst wr) \/
                    Z.of_nat cols <= snd (fst wr)) ws ->
  apply_writes m ws = inl IndexError.
Proof.
  induction ws as [|wr ws IH]; intros m Hshape Hpos Hex.
  - inversion Hex.
  - apply Forall_cons in Hpos as [[Hrow Hcol] Hpos].
    rewrite apply_writes_cons.
    destruct (decide (Z.of_nat rows <= fst (fst wr) \/
                      Z.of_nat cols <= snd (fst wr))) as [Hout|Hin].
    + rewrite (set_cell_beyond rows cols m _ _ _ Hshape Hrow Hcol Hout).
      reflexivity.
    + destruct (set_cell_inside rows cols m (fst (fst wr)) (snd (fst wr))
                  (snd wr) Hshape) as (m1 & -> & Hshape1 & _); [lia|lia|].
      apply IH; [exact Hshape1|exact Hpos|].
      apply Exists_cons in Hex as [Hhere|Hlater]; [contradiction|exact Hlater].
Qed.

Section CliFacts.
Context {Side : Type} {sides : Sides Side}.
Hypothesis Hsides : distinct_sides.

Lemma sides_differ :
  FRONT <> BACK /\ FRONT <> UP /\ FRONT <> DOWN /\ FRONT <> LEFT /\
  FRONT <> RIGHT /\ BACK <> UP /\ BACK <> DOWN /\ BACK <> LEFT /\
  BACK <> RIGHT /\ UP <> DOWN /\ UP <> LEFT /\ UP <> RIGHT /\
  DOWN <> LEFT /\ DOWN <> RIGHT /\ LEFT <> RIGHT.
Proof.
  pose proof Hsides as Hnd. unfold distinct_sides in Hnd.
  rewrite !NoDup_cons, !not_elem_of_cons in Hnd. tauto.
Qed.

Ltac settle_sides :=
  pose proof sides_differ as Hd; unfold Cli._get_piece_position_in_matrix;
  repeat match goal with
         | |- context [decide (?a = ?a)] => rewrite (decide_True (P := a = a)) by reflexivity
         | |- context [decide (?a = ?b)] =>
             rewrite (decide_False (P := a = b)) by (intros Heq; symmetry in Heq; tauto)
         | |- context [decide (?a = ?b)] =>
             rewrite (decide_False (P := a = b)) by tauto
         end;
  reflexivity.

Lemma position_FRONT w x y :
  Cli._get_piece_position_in_matrix w FRONT x y =
  Some (_size (cube w) + x + _coord_limit (cube w),
        _size (cube w) + y + _coord_limit (cube w)).
Proof. settle_sides. Qed.

Lemma position_BACK w x y :
  Cli._get_piece_position_in_matrix w BACK x y =
  Some (_size (cube w) + x + _coord_limit (cube w),
        _size (cube w) * 3 + y + _coord_limit (cube w)).
Proof. settle_sides. Qed.

Lemma position_UP w x y :
  Cli._get_piece_position_in_matrix w UP x y =
  Some (_size (cube w) + x + _coord_limit (cube w),
        0 + y + _coord_limit (cube w)).
Proof. settle_sides. Qed.

Lemma position_DOWN w x y :
  Cli._get_piece_position_in_matrix w DOWN x y =
  Some (_size (cube w) + x + _coord_limit (cube w),
        _size (cube w) * 2 + y + _coord_limit (cube w)).
Proof. settle_sides. Qed.

Lemma position_LEFT w x y :
  Cli._get_piece_position_in_matrix w LEFT x y =
  Some (0 + x + _coord_limit (cube w),
        _size (cube w) + y + _coord_limit (cube w)).
Proof. settle_sides. Qed.

Lemma position_RIGHT w x y :
  Cli._get_piece_position_in_matrix w RIGHT x y =
  Some (_size (cube w) * 2 + x + _coord_limit (cube w),
        _size (cube w) + y + _coord_limit (cube w)).
Proof. settle_sides. Qed.

Lemma paint_as_writes w cond side x y col row label m :
  Cli._get_piece_position_in_matrix w side x y = Some (col, row) ->
  Cli.paint w cond side x y label m =
  apply_writes m (if cond then [(row, col, Shown label)] else []).
Proof.
  intros Hpos. unfold Cli.paint. rewrite Hpos.
  destruct cond; [|reflexivity].
  rewrite apply_writes_cons. cbn [fst snd].
  destruct (set_cell m row col (Shown label)); reflexivity.
Qed.

Lemma refresh_step_as_writes w m p r pc :
  heap w !! r = Some pc ->
  Cli.refresh_step w m (p, r) =
  apply_writes m (writes_of (_size (cube w)) (_coord_limit (cube w)) p pc).
Proof.
  intros Hpc. destruct p as [[x y] z]. unfold Cli.refresh_step, writes_of.
  rewrite Hpc.
  rewrite (paint_as_writes w _ FRONT _ _ _ _ _ _ (position_FRONT w _ _)).
  rewrite apply_writes_app.
  destruct (apply_writes m _) as [e|m1]; [reflexivity|]. cbn [and_then].
  rewrite (paint_as_writes w _ BACK _ _ _ _ _ _ (position_BACK w _ _)).
  rewrite apply_writes_app.
  destruct (apply_writes m1 _) as [e|m2]; [reflexivity|]. cbn [and_then].
  rewrite (paint_as_writes w _ UP _ _ _ _ _ _ (position_UP w _ _)).
  rewrite apply_writes_app.
  destruct (apply_writes m2 _) as [e|m3]; [reflexivity|]. cbn [and_then].
  rewrite (paint_as_writes w _ DOWN _ _ _ _ _ _ (position_DOWN w _ _)).
  rewrite apply_writes_app.
  destruct (apply_writes m3 _) as [e|m4]; [reflexivity|]. cbn [and_then].
  rewrite (paint_as_writes w _ LEFT _ _ _ _ _ _ (position_LEFT w _ _)).
  rewrite apply_writes_app.
  destruct (apply_writes m4 _) as [e|m5]; [reflexivity|]. cbn [and_then].
  rewrite (paint_as_writes w _ RIGHT _ _ _ _ _ _ (position_RIGHT w _ _)).
  reflexivity.
Qed.

Lemma refresh_loop_as_writes w d : forall acc,
  (forall p r, (p, r) ∈ d -> is_Some (heap w !! r)) ->
  foldl (fun acc item => m <~ acc ;; Cli.refresh_step w m item) acc d =
  (m <~ acc ;;
   apply_writes m
     (e ← d;
      match heap w !! snd e with
      | Some pc =>
          writes_of (_size (cube w)) (_coord_limit (cube w)) (fst e) pc
      | None => []
      end)).
Proof.
  induction d as [|[p r] d IH]; intros acc Hrefs.
  - destruct acc; reflexivity.
  - cbn [foldl]. rewrite IH by (intros p' r' Hin; apply (Hrefs p' r'); right; exact Hin).
    rewrite bind_cons. cbn [fst snd].
    destruct (Hrefs p r) as [pc Hpc]; [left|]. rewrite Hpc.
    destruct acc as [e|m]; [reflexivity|]. cbn [and_then].
    rewrite (refresh_step_as_writes w m p r pc Hpc).
    rewrite apply_writes_app. reflexivity.
Qed.

Lemma refresh_cube_as_writes size w :
  well_formed size w ->
  Cli.refresh_cube w = apply_writes (Cli.empty_matrix w) (all_writes w).
Proof.
  intros Hwf. unfold Cli.refresh_cube.
  rewrite refresh_loop_as_writes; [reflexivity|].
  intros p r Hin. destruct (wf_shell _ _ Hwf p r Hin) as (pc & Hpc & _).
  eexists. exact Hpc.
Qed.


Lemma elem_of_if_singleton (c d : Z) (wr v : Write) :
  wr ∈ (if c =? d then [v] else []) <-> c = d /\ wr = v.
Proof.
  destruct (Z.eqb_spec c d) as [Heq|Hne].
  - rewrite list_elem_of_singleton. tauto.
  - split; [intros Hin; inversion Hin|tauto].
Qed.

Lemma elem_of_writes_of size l x y z pc wr :
  wr ∈ writes_of size l (x, y, z) pc <->
  (z = l /\ wr = (size + - y + l, size + x + l, Shown (Piece.z pc))) \/
  (z = - l /\ wr = (size * 3 + y + l, size + x + l, Shown (Piece.z pc))) \/
  (y = l /\ wr = (0 + z + l, size + x + l, Shown (Piece.y pc))) \/
  (y = - l /\ wr = (size * 2 + - z + l, size + x + l, Shown (Piece.y pc))) \/
  (x = - l /\ wr = (size + - y + l, 0 + z + l, Shown (Piece.x pc))) \/
  (x = l /\ wr = (size + - y + l, size * 2 + - z + l, Shown (Piece.x pc))).
Proof.
  unfold writes_of. rewrite !elem_of_app, !elem_of_if_singleton. tauto.
Qed.

Lemma elem_of_all_writes w wr :
  wr ∈ all_writes w <->
  exists p r pc,
    (p, r) ∈ _pieces (cube w) /\ heap w !! r = Some pc /\
    wr ∈ writes_of (_size (cube w)) (_coord_limit (cube w)) p pc.
Proof.
  unfold all_writes. rewrite list_elem_of_bind. split.
  - intros ([p r] & Hwr & Hin). cbn [fst snd] in Hwr.
    destruct (heap w !! r) as [pc|] eqn:Hpc; [|inversion Hwr].
    exists p, r, pc. auto.
  - intros (p & r & pc & Hin & Hpc & Hwr). exists (p, r).
    cbn [fst snd]. rewrite Hpc. auto.
Qed.

Lemma in_cube_bounds l x y z :
  in_cube l (x, y, z) = true ->
  - l <= x <= l /\ - l <= y <= l /\ - l <= z <= l.
Proof.
  unfold in_cube. rewrite !andb_true_iff, !Z.leb_le. lia.
Qed.

Lemma writes_of_inside size l p pc wr :
  size = 2 * l + 1 ->
  in_cube l p = true ->
  wr ∈ writes_of size l p pc ->
  inside (Z.to_nat (size * 4)) (Z.to_nat (size * 3)) wr.
Proof.
  intros Hsize Hp Hwr. destruct p as [[x y] z].
  apply in_cube_bounds in Hp.
  apply elem_of_writes_of in Hwr.
  unfold inside.
  destruct Hwr as [[? ->]|[[? ->]|[[? ->]|[[? ->]|[[? ->]|[? ->]]]]]];
    cbn [fst snd]; lia.
Qed.

Lemma writes_of_same_key size l p p' pc pc' wr wr' :
  size = 2 * l + 1 ->
  in_cube l p = true -> in_cube l p' = true ->
  wr ∈ writes_of size l p pc ->
  wr' ∈ writes_of size l p' pc' ->
  fst wr' = fst wr ->
  p' = p /\ (pc' = pc -> snd wr' = snd wr).
Proof.
  intros Hsize Hp Hp' Hwr Hwr' Hkey.
  destruct p as [[x y] z], p' as [[x' y'] z'].
  apply in_cube_bounds in Hp, Hp'.
  apply elem_of_writes_of in Hwr, Hwr'.
  destruct Hwr as [[? ->]|[[? ->]|[[? ->]|[[? ->]|[[? ->]|[? ->]]]]]];
    destruct Hwr' as [[? ->]|[[? ->]|[[? ->]|[[? ->]|[[? ->]|[? ->]]]]]];
    cbn [fst snd] in Hkey; injection Hkey as Hrow Hcol;
    (split; [f_equal; [f_equal|]; lia | intros ->; try reflexivity; exfalso; lia]).
Qed.

Lemma empty_matrix_shape w :
  shape (Z.to_nat (_size (cube w) * 4)) (Z.to_nat (_size (cube w) * 3))
        (Cli.empty_matrix w).
Proof.
  unfold Cli.empty_matrix, py_range, shape. split.
  - rewrite length_fmap, length_seqZ. f_equal. lia.
  - apply Forall_fmap, Forall_forall. intros i _. cbn.
    rewrite length_fmap, length_seqZ. f_equal. lia.
Qed.

Lemma empty_matrix_cell w i j :
  (i < Z.to_nat (_size (cube w) * 4))%nat ->
  (j < Z.to_nat (_size (cube w) * 3))%nat ->
  cell_at (Cli.empty_matrix w) i j = Some BLACK.
Proof.
  intros Hi Hj. unfold cell_at, Cli.empty_matrix, py_range.
  rewrite list_lookup_fmap.
  rewrite (lookup_seqZ_lt 0 _ i) by lia. cbn [fmap option_fmap option_map mbind option_bind].
  rewrite list_lookup_fmap.
  rewrite (lookup_seqZ_lt 0 _ j) by lia. reflexivity.
Qed.

(** The facts about the matrix of a well-formed world of odd size. *)
Lemma refresh_cube_facts size w :
  odd_positive size ->
  well_formed size w ->
  exists m,
    Cli.refresh_cube w = inr m /\
    shape (Z.to_nat (size * 4)) (Z.to_nat (size * 3)) m /\
    (forall wr, wr ∈ all_writes w ->
       get_cell m (fst (fst wr)) (snd (fst wr)) = Some (snd wr)) /\
    (forall row col,
       0 <= row < size * 4 -> 0 <= col < size * 3 ->
       (forall wr, wr ∈ all_writes w -> fst wr <> (row, col)) ->
       get_cell m row col = Some BLACK).
Proof.
  intros Hodd Hwf.
  pose proof (odd_positive_limit size Hodd) as Hsize.
  pose proof (wf_size _ _ Hwf) as Hs. pose proof (wf_limit _ _ Hwf) as Hl.
  unfold limit_of in Hl.
  assert (Hinside : Forall (inside (Z.to_nat (size * 4)) (Z.to_nat (size * 3)))
                           (all_writes w)).
  { apply Forall_forall. intros wr (p & r & pc & Hin & Hpc & Hwr)%elem_of_all_writes.
    rewrite Hs, Hl in Hwr.
    apply (writes_of_inside size (size / 2) p pc); [lia| |exact Hwr].
    apply (wf_range _ _ Hwf). apply (list_elem_of_fmap_2 fst _ _ Hin). }
  assert (Hfun : forall wr wr', wr ∈ all_writes w -> wr' ∈ all_writes w ->
                                fst wr' = fst wr -> snd wr' = snd wr).
  { intros wr wr' (p & r & pc & Hin & Hpc & Hwr)%elem_of_all_writes
           (p' & r' & pc' & Hin' & Hpc' & Hwr')%elem_of_all_writes Hkey.
    rewrite Hs, Hl in Hwr, Hwr'.
    destruct (writes_of_same_key size (size / 2) p p' pc pc' wr wr')
      as [Hpp Hval]; try assumption; try lia.
    - apply (wf_range _ _ Hwf). apply (list_elem_of_fmap_2 fst _ _ Hin).
    - apply (wf_range _ _ Hwf). apply (list_elem_of_fmap_2 fst _ _ Hin').
    - apply Hval. subst p'.
      pose proof (getitem_elem_of _ _ _ (wf_keys _ _ Hwf) Hin) as G.
      pose proof (getitem_elem_of _ _ _ (wf_keys _ _ Hwf) Hin') as G'.
      congruence. }
  pose proof (empty_matrix_shape w) as Hshape0. rewrite Hs in Hshape0.
  destruct (apply_writes_inside _ _ (all_writes w) _ Hshape0 Hinside)
    as (m & Hrun & Hshape & Hkeep & Hlast).
  exists m. split; [rewrite (refresh_cube_as_writes size w Hwf); exact Hrun|].
  split; [exact Hshape|]. split.
  - intros wr Hwr.
    apply Forall_forall with (x := wr) in Hinside as [Hr Hc]; [|exact Hwr].
    rewrite (get_cell_inside _ _ m _ _ Hshape Hr Hc).
    apply Hlast; [exact Hwr|]. intros wr' Hwr' Hkey.
    apply (Hfun wr wr' Hwr Hwr' Hkey).
  - intros row col Hrow Hcol Hfree.
    rewrite (get_cell_inside _ _ m row col Hshape) by lia.
    rewrite Hkeep.
    + apply empty_matrix_cell; rewrite Hs; lia.
    + intros wr Hwr [Hi Hj]. apply (Hfree wr Hwr).
      apply Forall_forall with (x := wr) in Hinside as [Hr Hc]; [|exact Hwr].
      destruct wr as [[r c] v]. cbn [fst snd] in *. f_equal; lia.
Qed.


Lemma piece_at_entry size w p pc :
  well_formed size w ->
  piece_at w p = Some pc ->
  exists r, (p, r) ∈ _pieces (cube w) /\ heap w !! r = Some pc.
Proof.
  intros Hwf. unfold piece_at.
  destruct (PyDict.getitem (_pieces (cube w)) p) as [r|] eqn:Hr;
    [|discriminate].
  cbn [mbind option_bind]. intros Hpc. exists r.
  split; [apply getitem_Some, Hr|exact Hpc].
Qed.

Lemma entry_of_position size w p :
  well_formed size w ->
  in_cube (limit_of size) p = true ->
  exists r pc,
    (p, r) ∈ _pieces (cube w) /\ heap w !! r = Some pc /\
    shell_labels (limit_of size) p pc.
Proof.
  intros Hwf Hp. apply (wf_range _ _ Hwf) in Hp.
  apply list_elem_of_fmap in Hp as ([p' r] & -> & Hin). cbn [fst].
  destruct (wf_shell _ _ Hwf _ _ Hin) as (pc & Hpc & Hlab).
  exists r, pc. auto.
Qed.

(** X16.  On every reachable world of a cube of odd positive size the
    terminal view raises nothing and prints [4 * size] rows of
    [3 * size] cells in which every sticker is at its place of the
    cross: the z label of a piece with [z = limit] in the front block,
    with [z = -limit] in the back block, its y label in the up or the
    down block, its x label in the left or the right block. *)
Theorem cli_shows_every_sticker
        (size : Z) (w : World) (x y z : Z) (pc : Piece.t) :
  odd_positive size ->
  reachable size w ->
  piece_at w (x, y, z) = Some pc ->
  exists m,
    Cli.refresh_cube w = inr m /\
    shape (Z.to_nat (size * 4)) (Z.to_nat (size * 3)) m /\
    (z = size / 2 ->
     get_cell m (size - y + size / 2) (size + x + size / 2)
       = Some (Shown (Piece.z pc))) /\
    (z = - (size / 2) ->
     get_cell m (size * 3 + y + size / 2) (size + x + size / 2)
       = Some (Shown (Piece.z pc))) /\
    (y = size / 2 ->
     get_cell m (z + size / 2) (size + x + size / 2)
       = Some (Shown (Piece.y pc))) /\
    (y = - (size / 2) ->
     get_cell m (size * 2 - z + size / 2) (size + x + size / 2)
       = Some (Shown (Piece.y pc))) /\
    (x = - (size / 2) ->
     get_cell m (size - y + size / 2) (z + size / 2)
       = Some (Shown (Piece.x pc))) /\
    (x = size / 2 ->
     get_cell m (size - y + size / 2) (size * 2 - z + size / 2)
       = Some (Shown (Piece.x pc))).
Proof.
  intros Hodd Hr Hat. pose proof (reachable_well_formed _ _ Hr) as Hwf.
  destruct (refresh_cube_facts size w Hodd Hwf)
    as (m & Hrun & Hshape & Hshown & _).
  destruct (piece_at_entry size w _ pc Hwf Hat) as (r & Hin & Hpc).
  pose proof (wf_size _ _ Hwf) as Hs. pose proof (wf_limit _ _ Hwf) as Hl.
  unfold limit_of in Hl.
  assert (Hwrite : forall wr,
            wr ∈ writes_of size (size / 2) (x, y, z) pc ->
            get_cell m (fst (fst wr)) (snd (fst wr)) = Some (snd wr)).
  { intros wr Hwr. apply Hshown, elem_of_all_writes.
    exists (x, y, z), r, pc. rewrite Hs, Hl. auto. }
  exists m. split; [exact Hrun|]. split; [exact Hshape|].
  repeat split; intros Hface.
  - replace (size - y + size / 2) with (size + - y + size / 2) by lia.
    apply (Hwrite (_, _, _)), elem_of_writes_of. auto.
  - apply (Hwrite (_, _, _)), elem_of_writes_of. auto.
  - replace (z + size / 2) with (0 + z + size / 2) by lia.
    apply (Hwrite (_, _, _)), elem_of_writes_of. auto.
  - replace (size * 2 - z + size / 2) with (size * 2 + - z + size / 2) by lia.
    apply (Hwrite (_, _, _)), elem_of_writes_of. auto 6.
  - replace (size - y + size / 2) with (size + - y + size / 2) by lia.
    replace (z + size / 2) with (0 + z + size / 2) by lia.
    apply (Hwrite (_, _, _)), elem_of_writes_of. auto 7.
  - replace (size - y + size / 2) with (size + - y + size / 2) by lia.
    replace (size * 2 - z + size / 2) with (size * 2 + - z + size / 2) by lia.
    apply (Hwrite (_, _, _)), elem_of_writes_of. auto 8.
Qed.

Lemma shown_label_present l (lab : option config.Color) c :
  (is_Some lab <-> on_shell l c) -> c = l \/ c = - l ->
  exists col, lab = Some col.
Proof. intros Hiff Hc. apply Hiff. exact Hc. Qed.

(** X17.  On every reachable world of a cube of odd positive size the
    matrix of the terminal view shows a color in every cell of the
    cross (the middle band of columns, and the middle band of the rows
    of the second block), never an absent label, and [config.BLACK] in
    every other cell. *)
Theorem cli_cross_and_background (size : Z) (w : World) (row col : Z) :
  odd_positive size ->
  reachable size w ->
  0 <= row < size * 4 ->
  0 <= col < size * 3 ->
  exists m,
    Cli.refresh_cube w = inr m /\
    if (size <=? col) && (col <? size * 2)
       || (size <=? row) && (row <? size * 2)
    then exists color, get_cell m row col = Some (Shown (Some color))
    else get_cell m row col = Some BLACK.
Proof.
  intros Hodd Hr Hrow Hcol. pose proof (reachable_well_formed _ _ Hr) as Hwf.
  destruct (refresh_cube_facts size w Hodd Hwf)
    as (m & Hrun & Hshape & Hshown & Hblack).
  pose proof (odd_positive_limit size Hodd) as Hsize.
  pose proof (wf_size _ _ Hwf) as Hs. pose proof (wf_limit _ _ Hwf) as Hl.
  unfold limit_of in Hl.
  exists m. split; [exact Hrun|].
  assert (Hcell : forall p wr lab,
            in_cube (size / 2) p = true ->
            (forall pc, shell_labels (size / 2) p pc ->
                        wr pc ∈ writes_of size (size / 2) p pc /\
                        fst (wr pc) = (row, col) /\
                        snd (wr pc) = Shown (lab pc) /\
                        exists color, lab pc = Some color) ->
            exists color, get_cell m row col = Some (Shown (Some color))).
  { intros p wr lab Hp Hwr.
    destruct (entry_of_position size w p Hwf Hp) as (r & pc & Hin & Hpc & Hlab).
    destruct (Hwr pc Hlab) as (Hmem & Hkey & Hval & color & Hcolor).
    exists color. rewrite <- Hcolor, <- Hval.
    replace row with (fst (fst (wr pc))) by (rewrite Hkey; reflexivity).
    replace col with (snd (fst (wr pc))) at 2 by (rewrite Hkey; reflexivity).
    replace col with (snd (fst (wr pc))) by (rewrite Hkey; reflexivity).
    apply Hshown, elem_of_all_writes. exists p, r, pc.
    rewrite Hs, Hl. auto. }
  set (l := size / 2) in *.
  destruct ((size <=? col) && (col <? size * 2)
            || (size <=? row) && (row <? size * 2)) eqn:Hcross.
  - apply orb_true_iff in Hcross.
    rewrite !andb_true_iff, !Z.leb_le, !Z.ltb_lt in Hcross.
    destruct (Z.lt_ge_cases row size) as [Hup|Hnup];
      [|destruct (Z.lt_ge_cases row (size * 2)) as [Hmid|Hnmid];
        [|destruct (Z.lt_ge_cases row (size * 3)) as [Hdown|Hback]]].
    + (* the up block *)
      apply (Hcell (col - size - l, l, row - l)
               (fun pc => (0 + (row - l) + l, size + (col - size - l) + l,
                           Shown (Piece.y pc))) Piece.y).
      * unfold in_cube. rewrite !andb_true_iff, !Z.leb_le. lia.
      * intros pc (_ & Hy & _). split; [apply elem_of_writes_of; auto|].
        split; [cbn [fst]; f_equal; lia|]. split; [reflexivity|].
        apply (shown_label_present l _ l Hy). auto.
    + destruct (Z.lt_ge_cases col size) as [Hleft|Hnleft];
        [|destruct (Z.lt_ge_cases col (size * 2)) as [Hfront|Hright]].
      * (* the left block *)
        apply (Hcell (- l, size + l - row, col - l)
                 (fun pc => (size + - (size + l - row) + l, 0 + (col - l) + l,
                             Shown (Piece.x pc))) Piece.x).
        -- unfold in_cube. rewrite !andb_true_iff, !Z.leb_le. lia.
        -- intros pc (Hx & _ & _). split; [apply elem_of_writes_of; auto 7|].
           split; [cbn [fst]; f_equal; lia|]. split; [reflexivity|].
           apply (shown_label_present l _ (- l) Hx). auto.
      * (* the front block *)
        apply (Hcell (col - size - l, size + l - row, l)
                 (fun pc => (size + - (size + l - row) + l,
                             size + (col - size - l) + l,
                             Shown (Piece.z pc))) Piece.z).
        -- unfold in_cube. rewrite !andb_true_iff, !Z.leb_le. lia.
        -- intros pc (_ & _ & Hz). split; [apply elem_of_writes_of; auto|].
           split; [cbn [fst]; f_equal; lia|]. split; [reflexivity|].
           apply (shown_label_present l _ l Hz). auto.
      * (* the right block *)
        apply (Hcell (l, size + l - row, size * 2 + l - col)
                 (fun pc => (size + - (size + l - row) + l,
                             size * 2 + - (size * 2 + l - col) + l,
                             Shown (Piece.x pc))) Piece.x).
        -- unfold in_cube. rewrite !andb_true_iff, !Z.leb_le. lia.
        -- intros pc (Hx & _ & _). split; [apply elem_of_writes_of; auto 8|].
           split; [cbn [fst]; f_equal; lia|]. split; [reflexivity|].
           apply (shown_label_present l _ l Hx). auto.
    + (* the down block *)
      apply (Hcell (col - size - l, - l, size * 2 + l - row)
               (fun pc => (size * 2 + - (size * 2 + l - row) + l,
                           size + (col - size - l) + l,
                           Shown (Piece.y pc))) Piece.y).
      * unfold in_cube. rewrite !andb_true_iff, !Z.leb_le. lia.
      * intros pc (_ & Hy & _). split; [apply elem_of_writes_of; auto 6|].
        split; [cbn [fst]; f_equal; lia|]. split; [reflexivity|].
        apply (shown_label_present l _ (- l) Hy). auto.
    + (* the back block *)
      apply (Hcell (col - size - l, row - size * 3 - l, - l)
               (fun pc => (size * 3 + (row - size * 3 - l) + l,
                           size + (col - size - l) + l,
                           Shown (Piece.z pc))) Piece.z).
      * unfold in_cube. rewrite !andb_true_iff, !Z.leb_le. lia.
      * intros pc (_ & _ & Hz). split; [apply elem_of_writes_of; auto|].
        split; [cbn [fst]; f_equal; lia|]. split; [reflexivity|].
        apply (shown_label_present l _ (- l) Hz). auto.
  - apply orb_false_iff in Hcross.
    rewrite !andb_false_iff, !Z.leb_gt, !Z.ltb_ge in Hcross.
    apply Hblack; [exact Hrow|exact Hcol|].
    intros wr (p & r & pc & Hin & Hpc & Hwr)%elem_of_all_writes Hkey.
    rewrite Hs, Hl in Hwr. destruct p as [[x y] z].
    assert (Hp : in_cube l (x, y, z) = true).
    { apply (wf_range _ _ Hwf). apply (list_elem_of_fmap_2 fst _ _ Hin). }
    apply in_cube_bounds in Hp.
    apply elem_of_writes_of in Hwr.
    destruct Hwr as [[? ->]|[[? ->]|[[? ->]|[[? ->]|[[? ->]|[? ->]]]]]];
      cbn [fst] in Hkey; injection Hkey as Hk1 Hk2; lia.
Qed.

(** X18.  For an even size that is not negative the terminal view
    raises [IndexError] on every reachable world: the limit [size // 2]
    puts the last row of the back block one row below the matrix. *)
Theorem cli_even_size_raises (size : Z) (w : World) :
  0 <= size ->
  Z.even size = true ->
  reachable size w ->
  Cli.refresh_cube w = inl IndexError.
Proof.
  intros Hpos Heven Hr. pose proof (reachable_well_formed _ _ Hr) as Hwf.
  assert (Hsize : size = 2 * (size / 2)).
  { apply Z.even_spec in Heven as [k ->].
    rewrite Z.mul_comm, Z.div_mul by lia. lia. }
  pose proof (wf_size _ _ Hwf) as Hs. pose proof (wf_limit _ _ Hwf) as Hl.
  unfold limit_of in Hl. set (l := size / 2) in *.
  rewrite (refresh_cube_as_writes size w Hwf).
  pose proof (empty_matrix_shape w) as Hshape0. rewrite Hs in Hshape0.
  apply (apply_writes_beyond _ _ _ _ Hshape0).
  - apply Forall_forall.
    intros wr (p & r & pc & Hin & Hpc & Hwr)%elem_of_all_writes.
    rewrite Hs, Hl in Hwr. destruct p as [[x y] z].
    assert (Hp : in_cube l (x, y, z) = true).
    { apply (wf_range _ _ Hwf). apply (list_elem_of_fmap_2 fst _ _ Hin). }
    apply in_cube_bounds in Hp. apply elem_of_writes_of in Hwr.
    destruct Hwr as [[? ->]|[[? ->]|[[? ->]|[[? ->]|[[? ->]|[? ->]]]]]];
      cbn [fst snd]; lia.
  - apply Exists_exists.
    destruct (entry_of_position size w (0, l, - l) Hwf)
      as (r & pc & Hin & Hpc & _).
    { unfold in_cube, limit_of. fold l.
      rewrite !andb_true_iff, !Z.leb_le. lia. }
    exists (size * 3 + l + l, size + 0 + l, Shown (Piece.z pc)). split.
    + apply elem_of_all_writes. exists (0, l, - l), r, pc.
      rewrite Hs, Hl. split; [exact Hin|]. split; [exact Hpc|].
      apply elem_of_writes_of. auto.
    + left. cbn [fst]. lia.
Qed.

End CliFacts.

Lemma numbered_sides_distinct : @distinct_sides nat numbered_sides.
Proof. unfold distinct_sides. by_evaluation. Qed.

Lemma cli_shows_every_sticker_witness :
  exists m,
    Cli.refresh_cube (sides := numbered_sides) (built 3) = inr m /\
    shape (Z.to_nat (3 * 4)) (Z.to_nat (3 * 3)) m /\
    (1 = 3 / 2 ->
     get_cell m (3 - -1 + 3 / 2) (3 + 1 + 3 / 2) = Some (Shown (Some config.GREEN))) /\
    (1 = - (3 / 2) ->
     get_cell m (3 * 3 + -1 + 3 / 2) (3 + 1 + 3 / 2)
       = Some (Shown (Some config.GREEN))) /\
    (-1 = 3 / 2 ->
     get_cell m (1 + 3 / 2) (3 + 1 + 3 / 2) = Some (Shown (Some config.WHITE))) /\
    (-1 = - (3 / 2) ->
     get_cell m (3 * 2 - 1 + 3 / 2) (3 + 1 + 3 / 2)
       = Some (Shown (Some config.WHITE))) /\
    (1 = - (3 / 2) ->
     get_cell m (3 - -1 + 3 / 2) (1 + 3 / 2) = Some (Shown (Some config.ORANGE))) /\
    (1 = 3 / 2 ->
     get_cell m (3 - -1 + 3 / 2) (3 * 2 - 1 + 3 / 2)
       = Some (Shown (Some config.ORANGE))).
Proof.
  apply (cli_shows_every_sticker numbered_sides_distinct 3 (built 3) 1 (-1) 1
           (Piece.mk (Some config.ORANGE) (Some config.WHITE)
                     (Some config.GREEN))).
  - split; [lia|reflexivity].
  - apply reach_new. vm_compute. reflexivity.
  - vm_compute. reflexivity.
Defined.

Lemma cli_cross_and_background_witness :
  (exists m,
     Cli.refresh_cube (sides := numbered_sides) (built 3) = inr m /\
     if (3 <=? 4) && (4 <? 3 * 2) || (3 <=? 10) && (10 <? 3 * 2)
     then exists color, get_cell m 10 4 = Some (Shown (Some color))
     else get_cell m 10 4 = Some BLACK) /\
  (exists m,
     Cli.refresh_cube (sides := numbered_sides) (built 3) = inr m /\
     if (3 <=? 7) && (7 <? 3 * 2) || (3 <=? 0) && (0 <? 3 * 2)
     then exists color, get_cell m 0 7 = Some (Shown (Some color))
     else get_cell m 0 7 = Some BLACK).
Proof.
  split.
  - apply (cli_cross_and_background numbered_sides_distinct 3 (built 3) 10 4).
    + split; [lia|reflexivity].
    + apply reach_new. vm_compute. reflexivity.
    + lia.
    + lia.
  - apply (cli_cross_and_background numbered_sides_distinct 3 (built 3) 0 7).
    + split; [lia|reflexivity].
    + apply reach_new. vm_compute. reflexivity.
    + lia.
    + lia.
Defined.

Lemma cli_even_size_raises_witness :
  Cli.refresh_cube (sides := numbered_sides) (built 2) = inl IndexError.
Proof.
  apply (cli_even_size_raises numbered_sides_distinct 2 (built 2)).
  - lia.
  - reflexivity.
  - apply reach_new. vm_compute. reflexivity.
Defined.

(** ** The window view *)

Lemma first_return_sound {A B} (xs : list A) (body : A -> option B) b :
  Gui.first_return xs body = Some b -> exists a, a ∈ xs /\ body a = Some b.
Proof.
  induction xs as [|a xs IH]; cbn [Gui.first_return]; [discriminate|].
  destruct (body a) as [b'|] eqn:Ha.
  - intros [= ->]. exists a. split; [left|exact Ha].
  - intros Hrest. destruct (IH Hrest) as (a' & Hin & Ha').
    exists a'. split; [right; exact Hin|exact Ha'].
Qed.

Lemma first_return_complete {A B} (xs : list A) (body : A -> option B) a b :
  a ∈ xs -> body a = Some b -> exists b', Gui.first_return xs body = Some b'.
Proof.
  induction xs as [|a0 xs IH]; intros Hin Ha; [inversion Hin|].
  cbn [Gui.first_return]. destruct (body a0) as [b0|] eqn:Ha0.
  - exists b0. reflexivity.
  - apply elem_of_cons in Hin as [->|Hin]; [congruence|]. apply IH; assumption.
Qed.

Section GuiFacts.
Context {Side : Type} {sides : Sides Side}.

Lemma tile_hit_spec x y tx ty :
  Gui.tile_hit x y tx ty = true <->
  80 * tx < x < 80 * tx + 80 /\ 80 * ty < y < 80 * ty + 80.
Proof.
  unfold Gui.tile_hit, Gui.TILE_SIZE.
  rewrite !andb_true_iff, !Z.ltb_lt. lia.
Qed.

(** X19.  [_get_tile_at_position] never raises and changes nothing; it
    returns the tile [(tile_x, tile_y)] exactly when both indices are
    in [0 .. size - 1] and the point lies strictly inside the square of
    80 by 80 of that tile, and [None] for every other point: outside
    the grid, or on a line between two tiles. *)
Theorem tile_at_position (g : Gui.t (Side := Side)) (w : World) (x y : Z) :
  exists r,
    Gui._get_tile_at_position x y g w = (inr r, g, w) /\
    forall tx ty,
      r = Some (tx, ty) <->
      0 <= tx < _size (cube w) /\ 0 <= ty < _size (cube w) /\
      80 * tx < x < 80 * tx + 80 /\ 80 * ty < y < 80 * ty + 80.
Proof.
  eexists. split; [reflexivity|].
  set (size := _size (cube w)). unfold py_range.
  replace (size - 0) with size by lia.
  intros tx ty. split.
  - intros (tx' & Hx & (ty' & Hy & Hbody)%first_return_sound)%first_return_sound.
    destruct (Gui.tile_hit x y tx' ty') eqn:Hhit; [|discriminate].
    injection Hbody as -> ->.
    apply elem_of_seqZ in Hx, Hy. apply tile_hit_spec in Hhit. lia.
  - intros (Hx & Hy & Hhx & Hhy).
    assert (Hhit : Gui.tile_hit x y tx ty = true)
      by (apply tile_hit_spec; lia).
    destruct (first_return_complete (seqZ 0 size)
                (fun tile_y => if Gui.tile_hit x y tx tile_y
                               then Some (tx, tile_y) else None) ty (tx, ty))
      as [t Ht]; [apply elem_of_seqZ; lia|rewrite Hhit; reflexivity|].
    destruct (first_return_complete (seqZ 0 size)
                (fun tile_x => Gui.first_return (seqZ 0 size)
                   (fun tile_y => if Gui.tile_hit x y tile_x tile_y
                                  then Some (tile_x, tile_y) else None))
                tx t) as [t' Ht']; [apply elem_of_seqZ; lia|exact Ht|].
    rewrite Ht'. f_equal.
    apply first_return_sound in Ht' as (tx' & _ & Ht').
    apply first_return_sound in Ht' as (ty' & _ & Ht').
    destruct (Gui.tile_hit x y tx' ty') eqn:Hhit'; [|discriminate].
    injection Ht' as <-. apply tile_hit_spec in Hhit'.
    f_equal; lia.
Qed.

(** X20.  A drag that starts on the tile [(2, 1)] and ends anywhere but
    on the tile [(2, 2)] raises [NameError]: the last condition of
    [_on_mouse_up] compares with [(2, o)], and [o] is no name.  No
    callback has been called, nothing redrawn, and the remembered tile
    is not reset. *)
Theorem drag_from_right_middle_raises
        (cb : string -> M bool) (g : Gui.t (Side := Side)) (w : World)
        (event_x event_y : Z) (this_tile : option (Z * Z)) :
  Gui._last_tile g = Some (2, 1) ->
  Gui._get_tile_at_position event_x event_y g w = (inr this_tile, g, w) ->
  this_tile <> Some (2, 2) ->
  Gui._on_mouse_up cb event_x event_y g w = (inl NameError, g, w).
Proof.
  intros Hlast Htile Hthis. unfold Gui._on_mouse_up.
  unfold Gui.gbind at 1. unfold Gui.self_view at 1. rewrite Hlast.
  unfold Gui.gbind at 1. rewrite Htile.
  unfold Gui.gbind at 1. unfold Gui.self_view at 1. rewrite Hlast.
  unfold Gui.then_ at 1. unfold Gui.gbind at 1.
  assert (Hdrag : Gui.drag cb (Some (2, 1)) this_tile = Gui.graise NameError).
  { unfold Gui.drag.
    assert (H22 : Gui.tile_is this_tile 2 2 = false).
    { unfold Gui.tile_is. apply bool_decide_eq_false. exact Hthis. }
    rewrite H22.
    change (Gui.tile_is (Some (2, 1)) 0 0) with false.
    change (Gui.tile_is (Some (2, 1)) 1 0) with false.
    change (Gui.tile_is (Some (2, 1)) 2 0) with false.
    change (Gui.tile_is (Some (2, 1)) 0 1) with false.
    change (Gui.tile_is (Some (2, 1)) 0 2) with false.
    change (Gui.tile_is (Some (2, 1)) 1 2) with false.
    change (Gui.tile_is (Some (2, 1)) 2 2) with false.
    change (Gui.tile_is (Some (2, 1)) 2 1) with true.
    cbn [andb orb]. reflexivity. }
  rewrite Hdrag. reflexivity.
Qed.

End GuiFacts.

Lemma drag_from_right_middle_raises_witness :
  Gui._on_mouse_up (sides := numbered_sides) Controller.make_move_callback
    200 40 (Gui.mk (Some (2, 1)) 0%nat []) (built 3) =
  (inl NameError, Gui.mk (Some (2, 1)) 0%nat [], built 3).
Proof.
  apply (drag_from_right_middle_raises (sides := numbered_sides)
           Controller.make_move_callback _ _ 200 40 (Some (2, 0))).
  - reflexivity.
  - vm_compute. reflexivity.
  - discriminate.
Defined.

Lemma add_rects_nil {Side} (g : Gui.t (Side := Side)) : add_rects g [] = g.
Proof. destruct g. unfold add_rects. cbn. rewrite app_nil_r. reflexivity. Qed.

Lemma add_rects_app {Side} (g : Gui.t (Side := Side)) rs rs' :
  add_rects (add_rects g rs) rs' = add_rects g (rs ++ rs').
Proof. unfold add_rects. cbn. rewrite app_assoc. reflexivity. Qed.

Section GuiDraw.
Context {Side : Type} {sides : Sides Side}.
Hypothesis Hsides : distinct_sides.

Lemma side_of_inj f f' : side_of f = side_of f' -> f = f'.
Proof.
  pose proof (sides_differ Hsides) as Hd.
  destruct f, f'; cbn [side_of]; intros Heq; try reflexivity;
    exfalso; first [tauto | symmetry in Heq; tauto].
Qed.

Lemma side_test f f' :
  bool_decide (side_of f = side_of f') = bool_decide (f = f').
Proof.
  apply bool_decide_ext. split; [apply side_of_inj|intros ->; reflexivity].
Qed.

Lemma shown_color l (lab : option config.Color) c :
  (is_Some lab <-> on_shell l c) -> c = l \/ c = - l ->
  exists color, Gui.COLOR_MAP lab = Some color.
Proof.
  intros Hiff Hc. apply Hiff in Hc as [col ->].
  destruct col; eexists; reflexivity.
Qed.

Lemma refresh_step_run f p r pc (g : Gui.t (Side := Side)) w :
  Gui._side g = side_of f ->
  heap w !! r = Some pc ->
  shell_labels (_coord_limit (cube w)) p pc ->
  Gui.refresh_step (p, r) g w =
    (inr tt, add_rects g (drawn (_coord_limit (cube w)) f (heap w) (p, r)), w).
Proof.
  intros Hside Hpc Hlab. destruct p as [[x y] z].
  destruct Hlab as (Hx & Hy & Hz).
  unfold Gui.refresh_step. rewrite Hpc, Hside.
  change FRONT with (side_of fF). change BACK with (side_of fB).
  change UP with (side_of fU). change DOWN with (side_of fD).
  change LEFT with (side_of fL). change RIGHT with (side_of fR).
  rewrite !side_test. unfold drawn. cbn [fst snd]. rewrite Hpc.
  set (l := _coord_limit (cube w)) in *.
  destruct f; cbn [on_face tile_on label_on fst snd];
    repeat match goal with
           | |- context [bool_decide (?a = ?a)] =>
               rewrite (bool_decide_eq_true_2 (a = a)) by reflexivity
           | |- context [bool_decide (?a = ?b)] =>
               rewrite (bool_decide_eq_false_2 (a = b)) by discriminate
           end;
    cbn [andb Gui.first_taken Gui.draw_if];
    match goal with
    | |- context [if ?c =? ?d then _ else _] =>
        destruct (Z.eqb_spec c d) as [Heq|Hne]
    end;
    cbn [andb Gui.first_taken Gui.draw_if];
    try (rewrite add_rects_nil; reflexivity).
  all: match goal with
       | H : (is_Some ?lab <-> on_shell ?l0 ?c) |- context [Gui.COLOR_MAP ?lab] =>
           destruct (shown_color l0 lab c H) as [color Hcol];
           [unfold on_shell; lia|rewrite Hcol]
       end.
  all: reflexivity.
Qed.

Lemma for_each_refresh_step f (d : list (Position.t * Ref))
      (g : Gui.t (Side := Side)) w :
  Gui._side g = side_of f ->
  (forall p r, (p, r) ∈ d ->
     exists pc, heap w !! r = Some pc /\
                shell_labels (_coord_limit (cube w)) p pc) ->
  Gui.for_each d Gui.refresh_step g w =
    (inr tt,
     add_rects g (d ≫= drawn (_coord_limit (cube w)) f (heap w)), w).
Proof.
  revert g. induction d as [|[p r] d IH]; intros g Hside Hd.
  - cbn. rewrite add_rects_nil. reflexivity.
  - cbn [Gui.for_each]. unfold Gui.gbind at 1.
    destruct (Hd p r) as (pc & Hpc & Hlab); [left|].
    rewrite (refresh_step_run f p r pc g w Hside Hpc Hlab).
    rewrite IH; [|exact Hside|intros p' r' Hin; apply Hd; right; exact Hin].
    rewrite add_rects_app. reflexivity.
Qed.

Lemma refresh_cube_run size f (g : Gui.t (Side := Side)) w :
  well_formed size w ->
  Gui._side g = side_of f ->
  Gui.refresh_cube g w =
    (inr tt,
     add_rects g (_pieces (cube w) ≫= drawn (limit_of size) f (heap w)), w).
Proof.
  intros Hwf Hside. unfold Gui.refresh_cube, Gui.gbind, Gui.call.
  rewrite pieces_run. cbv beta iota.
  rewrite (for_each_refresh_step f); [rewrite (wf_limit _ _ Hwf); reflexivity
                                     |exact Hside|].
  intros p r Hin. rewrite (wf_limit _ _ Hwf). apply (wf_shell _ _ Hwf), Hin.
Qed.

End GuiDraw.

(** *** The faces as the window shows them *)

Lemma elem_of_drawn l f hp p r rect :
  rect ∈ drawn l f hp (p, r) <->
  on_face l f p = true /\
  exists pc color,
    hp !! r = Some pc /\ Gui.COLOR_MAP (label_on f pc) = Some color /\
    rect = square (fst (tile_on f p) + l) (snd (tile_on f p) + l) color.
Proof.
  unfold drawn. cbn [fst snd]. destruct (on_face l f p).
  - destruct (hp !! r) as [pc|].
    + destruct (Gui.COLOR_MAP (label_on f pc)) as [color|] eqn:Hcol.
      * rewrite list_elem_of_singleton. split.
        -- intros ->. split; [reflexivity|]. exists pc, color.
           repeat split; [exact Hcol].
        -- intros (_ & pc' & color' & [= <-] & Hcol' & ->). congruence.
      * split; [intros H; inversion H|].
        intros (_ & pc' & color' & [= <-] & Hc & _). congruence.
    + split; [intros H; inversion H|].
      intros (_ & pc' & color' & Hpc & _). discriminate.
  - split; [intros H; inversion H|]. intros [Hf _]. discriminate.
Qed.

Lemma tile_on_range l f p :
  in_cube l p = true -> on_face l f p = true ->
  - l <= fst (tile_on f p) <= l /\ - l <= snd (tile_on f p) <= l.
Proof.
  destruct p as [[x y] z]. intros Hin%in_cube_bounds _.
  destruct f; cbn [tile_on fst snd]; lia.
Qed.

Lemma tile_on_inj l f p q :
  on_face l f p = true -> on_face l f q = true ->
  tile_on f p = tile_on f q -> p = q.
Proof.
  destruct p as [[x y] z], q as [[x' y'] z'].
  destruct f; cbn [on_face tile_on]; rewrite !Z.eqb_eq;
    intros -> -> [= H1 H2]; repeat f_equal; lia.
Qed.

Lemma position_on_face l f t :
  0 <= l -> - l <= fst t <= l -> - l <= snd t <= l ->
  in_cube l (position_on l f t) = true /\
  on_face l f (position_on l f t) = true /\
  tile_on f (position_on l f t) = t.
Proof.
  destruct t as [u v]. cbn [fst snd]. intros Hl Hu Hv.
  destruct f; cbn [position_on on_face tile_on in_cube];
    rewrite ?Z.opp_involutive, ?Z.eqb_refl, !andb_true_iff, !Z.leb_le;
    (split; [lia|split; reflexivity]).
Qed.

Lemma label_on_face l f p pc :
  shell_labels l p pc -> on_face l f p = true ->
  exists color, Gui.COLOR_MAP (label_on f pc) = Some color.
Proof.
  destruct p as [[x y] z]. intros (Hx & Hy & Hz).
  destruct f; cbn [on_face label_on]; rewrite Z.eqb_eq; intros ->;
    eapply shown_color; eauto.
Qed.

Lemma elem_of_tiles size tx ty :
  0 < size ->
  (tx, ty) ∈ tiles size <-> 0 <= tx < size /\ 0 <= ty < size.
Proof.
  intros Hs. unfold tiles. rewrite list_elem_of_fmap. split.
  - intros (i & [= -> ->] & Hi%elem_of_seqZ).
    pose proof (Z.mod_pos_bound i size Hs).
    split; [|lia]. split; [apply Z.div_pos; lia|].
    apply Z.div_lt_upper_bound; lia.
  - intros [Hx Hy]. exists (tx * size + ty). split.
    + f_equal.
      * rewrite Z.div_add_l by lia. rewrite Z.div_small by lia. lia.
      * rewrite Z.add_comm, Z.mod_add by lia. rewrite Z.mod_small by lia.
        reflexivity.
    + apply elem_of_seqZ. nia.
Qed.

Lemma NoDup_tiles size : 0 < size -> NoDup (tiles size).
Proof.
  intros Hs. unfold tiles. apply NoDup_fmap_2_strong; [|apply NoDup_seqZ].
  intros i j _ _ [= Hd Hm].
  rewrite (Z.div_mod i size), (Z.div_mod j size) by lia. congruence.
Qed.

Lemma length_tiles size : length (tiles size) = Z.to_nat (size * size).
Proof. unfold tiles. rewrite length_fmap, length_seqZ. reflexivity. Qed.

Lemma same_key_same_value (d : PyDict.t Ref) p r r' :
  NoDup (PyDict.keys d) -> (p, r) ∈ d -> (p, r') ∈ d -> r = r'.
Proof.
  intros Hnd H1 H2.
  apply (getitem_elem_of d p r Hnd) in H1.
  apply (getitem_elem_of d p r' Hnd) in H2. congruence.
Qed.

Lemma fmap_of_bind {A B C} (f : B -> C) (g : A -> list B) (l : list A) :
  f <$> (l ≫= g) = l ≫= (fun a => f <$> g a).
Proof.
  induction l as [|a l IH]; [reflexivity|].
  rewrite !bind_cons, fmap_app, IH. reflexivity.
Qed.

(** The tile a rectangle covers. *)
Lemma square_tile tx ty color :
  (rect_x0 (square tx ty color) / 80, rect_y0 (square tx ty color) / 80)
  = (tx, ty).
Proof. cbn. rewrite !Z.div_mul by lia. reflexivity. Qed.

Lemma face_new_facts size f w :
  odd_positive size -> well_formed size w ->
  let new := _pieces (cube w) ≫= drawn (limit_of size) f (heap w) in
  (forall rect, rect ∈ new ->
     exists tx ty color,
       0 <= tx < size /\ 0 <= ty < size /\ rect = square tx ty color) /\
  (forall tx ty, 0 <= tx < size -> 0 <= ty < size ->
     exists color, square tx ty color ∈ new) /\
  length new = Z.to_nat (size * size).
Proof.
  intros Hodd Hwf new. pose proof (odd_positive_limit size Hodd) as Hsz.
  fold (limit_of size) in Hsz. set (l := limit_of size) in *.
  assert (Hl : 0 <= l) by (destruct Hodd; lia).
  assert (Hfrom : forall rect, rect ∈ new ->
            exists p r pc color,
              (p, r) ∈ _pieces (cube w) /\ in_cube l p = true /\
              on_face l f p = true /\ heap w !! r = Some pc /\
              Gui.COLOR_MAP (label_on f pc) = Some color /\
              rect = square (fst (tile_on f p) + l) (snd (tile_on f p) + l)
                            color).
  { intros rect Hin. apply list_elem_of_bind in Hin as ([p r] & Hdr & Hin).
    apply elem_of_drawn in Hdr as (Hf & pc & color & Hpc & Hcol & ->).
    exists p, r, pc, color. repeat split; try assumption.
    apply (wf_range _ _ Hwf), list_elem_of_fmap. exists (p, r). auto. }
  assert (Hto : forall tx ty, 0 <= tx < size -> 0 <= ty < size ->
            exists color, square tx ty color ∈ new).
  { intros tx ty Hx Hy.
    destruct (position_on_face l f (tx - l, ty - l) Hl)
      as (Hcube & Hface & Htile); cbn [fst snd]; [lia|lia|].
    destruct (entry_of_position size w _ Hwf Hcube) as (r & pc & Hin & Hpc & Hlab).
    destruct (label_on_face l f _ pc Hlab Hface) as [color Hcol].
    exists color. apply list_elem_of_bind. exists (position_on l f (tx - l, ty - l), r).
    split; [|exact Hin]. apply elem_of_drawn. split; [exact Hface|].
    exists pc, color. repeat split; try assumption.
    rewrite Htile. cbn [fst snd]. f_equal; lia. }
  split; [|split; [exact Hto|]].
  - intros rect (p & r & pc & color & _ & Hcube & Hface & _ & _ & ->)%Hfrom.
    destruct (tile_on_range l f p Hcube Hface) as [Hu Hv].
    eexists _, _, color. split; [|split; [|reflexivity]]; lia.
  - rewrite <- length_tiles.
    rewrite <- (length_fmap (fun rect => (rect_x0 rect / 80, rect_y0 rect / 80)) new).
    apply Permutation_length, NoDup_Permutation.
    + unfold new. rewrite fmap_of_bind. apply NoDup_bind.
      * intros [p r] [p' r'] t Hin Hin' Ht Ht'.
        apply list_elem_of_fmap in Ht as (rect & -> & Hr).
        apply list_elem_of_fmap in Ht' as (rect' & Heq & Hr').
        apply elem_of_drawn in Hr as (Hf & pc & color & _ & _ & ->).
        apply elem_of_drawn in Hr' as (Hf' & pc' & color' & _ & _ & ->).
        rewrite !square_tile in Heq. injection Heq as Hu Hv.
        assert (p = p') as <-.
        { apply (tile_on_inj l f); [assumption|assumption|].
          destruct (tile_on f p), (tile_on f p'). cbn [fst snd] in *.
          f_equal; lia. }
        f_equal.
        apply (same_key_same_value (_pieces (cube w)) p);
          [apply (wf_keys _ _ Hwf)|assumption|assumption].
      * intros [p r] _. unfold drawn. cbn [fst snd].
        destruct (on_face l f p); [|apply NoDup_nil_2].
        destruct (heap w !! r) as [pc|]; [|apply NoDup_nil_2].
        destruct (Gui.COLOR_MAP (label_on f pc)); [|apply NoDup_nil_2].
        apply NoDup_singleton.
      * apply (NoDup_fmap_1 fst), (wf_keys _ _ Hwf).
    + apply NoDup_tiles. lia.
    + intros [tx ty]. rewrite elem_of_tiles by lia.
      rewrite list_elem_of_fmap. split.
      * intros (rect & Heq & (p & r & pc & color & _ & Hcube & Hface & _ & _ & ->)%Hfrom).
        rewrite square_tile in Heq. injection Heq as -> ->.
        destruct (tile_on_range l f p Hcube Hface) as [Hu Hv]. lia.
      * intros [Hx Hy]. destruct (Hto tx ty Hx Hy) as [color Hin].
        exists (square tx ty color). split; [|exact Hin].
        rewrite square_tile. reflexivity.
Qed.

Section GuiView.
Context {Side : Type} {sides : Sides Side}.
Hypothesis Hsides : distinct_sides.

Lemma side_among (s : Side) :
  s ∈ [FRONT; BACK; UP; DOWN; LEFT; RIGHT] -> exists f, s = side_of f.
Proof.
  rewrite !elem_of_cons, elem_of_nil.
  intros [->|[->|[->|[->|[->|[->|[]]]]]]];
    [exists fF|exists fB|exists fU|exists fD|exists fL|exists fR]; reflexivity.
Qed.



(** X22.  For a cube of odd positive size [refresh_cube] of the window
    view adds exactly [size * size] rectangles: each is the square of
    80 by 80 of a tile [(tile_x, tile_y)] with both indices in
    [0 .. size - 1], and every such tile gets one. *)
Theorem gui_draws_one_square_per_tile
        (size : Z) (w : World) (g : Gui.t (Side := Side)) :
  odd_positive size ->
  reachable size w ->
  Gui._side g ∈ [FRONT; BACK; UP; DOWN; LEFT; RIGHT] ->
  exists new,
    Gui.refresh_cube g w =
      (inr tt,
       Gui.mk (Gui._last_tile g) (Gui._side g) (Gui._canvas g ++ new), w) /\
    length new = Z.to_nat (size * size) /\
    (forall rect, rect ∈ new ->
       exists tile_x tile_y color,
         0 <= tile_x < size /\ 0 <= tile_y < size /\
         rect = square tile_x tile_y color) /\
    (forall tile_x tile_y,
       0 <= tile_x < size -> 0 <= tile_y < size ->
       exists color, square tile_x tile_y color ∈ new).
Proof.
  intros Hodd Hr Hside. pose proof (reachable_well_formed _ _ Hr) as Hwf.
  destruct (side_among _ Hside) as [f Hf].
  destruct (face_new_facts size f w Hodd Hwf) as (Hall & Hevery & Hlen).
  exists (_pieces (cube w) ≫= drawn (limit_of size) f (heap w)).
  split; [apply (refresh_cube_run Hsides size f g w Hwf Hf)|].
  split; [exact Hlen|]. split; [exact Hall|exact Hevery].
Qed.

End GuiView.


Lemma gui_draws_one_square_per_tile_witness :
  exists new,
    Gui.refresh_cube (sides := numbered_sides)
      (Gui.mk None (UP (Sides := numbered_sides)) []) (built 3) =
      (inr tt, Gui.mk None (UP (Sides := numbered_sides)) ([] ++ new),
       built 3) /\
    length new = 9%nat.
Proof.
  destruct (gui_draws_one_square_per_tile numbered_sides_distinct 3 (built 3)
              (Gui.mk None (UP (Sides := numbered_sides)) []))
    as (new & Hrun & Hlen & _).
  - split; [lia|reflexivity].
  - apply reach_new. vm_compute. reflexivity.
  - by_evaluation.
  - exists new. split; [exact Hrun|exact Hlen].
Defined.

(** *** Gestures *)

Section Gestures.
Context {Side : Type} {sides : Sides Side}.
Hypothesis Hsides : distinct_sides.

Lemma side_in_list (g : Gui.t (Side := Side)) f faces :
  Gui._side g = side_of f ->
  existsb (fun v => bool_decide (Gui._side g = v)) (side_of <$> faces)
  = bool_decide (f ∈ faces).
Proof.
  intros ->. induction faces as [|f' faces IH].
  - cbn. symmetry. apply bool_decide_eq_false. apply not_elem_of_nil.
  - cbn [fmap list_fmap existsb]. rewrite IH, (side_test Hsides).
    destruct (decide (f = f')) as [->|Hne].
    + rewrite bool_decide_eq_true_2 by reflexivity.
      symmetry. apply bool_decide_eq_true. left.
    + rewrite (bool_decide_eq_false_2 (f = f')) by exact Hne. cbn [orb].
      apply bool_decide_ext. rewrite elem_of_cons. tauto.
Qed.

Lemma side_move_run size faces m f (g : Gui.t (Side := Side)) w :
  well_formed size w ->
  Gui._side g = side_of f ->
  Gui.side_move Controller.make_move_callback (side_of <$> faces) (name m) g w
  = (inr tt, g, if bool_decide (f ∈ faces) then moved m w else w).
Proof.
  intros Hwf Hf. unfold Gui.side_move, Gui.gbind at 1, Gui.self_view.
  rewrite (side_in_list g f faces Hf).
  destruct (bool_decide (f ∈ faces)); [|reflexivity].
  unfold Gui.gbind, Gui.call. rewrite (callback_run size m w Hwf). reflexivity.
Qed.

Lemma chain_cons b b' bs :
  side_moves Controller.make_move_callback (b :: b' :: bs) =
  Gui.then_ (Gui.side_move Controller.make_move_callback
               (side_of <$> fst b) (name (snd b)))
            (side_moves Controller.make_move_callback (b' :: bs)).
Proof. reflexivity. Qed.

Lemma chain_idle size f (g : Gui.t (Side := Side)) w bs :
  well_formed size w ->
  Gui._side g = side_of f ->
  (forall b, b ∈ bs -> f ∉ fst b) ->
  side_moves Controller.make_move_callback bs g w = (inr tt, g, w).
Proof.
  intros Hwf Hf. induction bs as [|b bs IH]; intros Hout; [reflexivity|].
  assert (Hb : bool_decide (f ∈ fst b) = false)
    by (apply bool_decide_eq_false, Hout; left).
  destruct bs as [|b' bs].
  - cbn [side_moves]. rewrite (side_move_run size _ _ f g w Hwf Hf), Hb.
    reflexivity.
  - rewrite chain_cons. unfold Gui.then_, Gui.gbind.
    rewrite (side_move_run size _ _ f g w Hwf Hf), Hb.
    apply IH. intros b0 Hin. apply Hout. right. exact Hin.
Qed.

Lemma chain_run size f (g : Gui.t (Side := Side)) w bs :
  well_formed size w ->
  Gui._side g = side_of f ->
  NoDup (bs ≫= fst) ->
  (forall b, b ∈ bs -> snd (snd b) <> double) ->
  exists w',
    side_moves Controller.make_move_callback bs g w = (inr tt, g, w') /\
    turned w w'.
Proof.
  intros Hwf Hf. induction bs as [|b bs IH]; intros Hnd Hsingle.
  - exists w. split; [reflexivity|left; reflexivity].
  - rewrite bind_cons in Hnd. apply NoDup_app in Hnd as (_ & Hdisj & Hnd).
    assert (Hrest : forall w1, well_formed size w1 -> f ∈ fst b ->
              side_moves Controller.make_move_callback bs g w1 = (inr tt, g, w1)).
    { intros w1 Hwf1 Hin. apply (chain_idle size f); [exact Hwf1|exact Hf|].
      intros b0 Hb0 Hin0. apply (Hdisj f Hin).
      apply list_elem_of_bind. exists b0. auto. }
    destruct bs as [|b' bs].
    + cbn [side_moves]. rewrite (side_move_run size _ _ f g w Hwf Hf).
      eexists. split; [reflexivity|].
      destruct (bool_decide (f ∈ fst b)); [|left; reflexivity].
      right. exists (snd b). split; [apply Hsingle; left|reflexivity].
    + rewrite chain_cons. unfold Gui.then_, Gui.gbind.
      rewrite (side_move_run size _ _ f g w Hwf Hf).
      destruct (bool_decide_reflect (f ∈ fst b)) as [Hin|Hout].
      * rewrite (Hrest _ (moved_well_formed size _ w Hwf) Hin).
        eexists. split; [reflexivity|].
        right. exists (snd b). split; [apply Hsingle; left|reflexivity].
      * apply IH; [exact Hnd|].
        intros b0 Hin. apply Hsingle. right. exact Hin.
Qed.

Ltac single_turns :=
  apply Forall_forall; repeat constructor; discriminate.

Lemma drag_run size f (g : Gui.t (Side := Side)) w last this_tile :
  well_formed size w ->
  Gui._side g = side_of f ->
  (last = Some (2, 1) -> this_tile = Some (2, 2)) ->
  exists w',
    Gui.drag Controller.make_move_callback last this_tile g w
    = (inr tt, g, w') /\ turned w w'.
Proof.
  intros Hwf Hf Hlast. unfold Gui.drag.
  repeat lazymatch goal with
  | |- exists w', (if Gui.tile_is _ _ _ then _ else _) g w = _ /\ _ => fail
  | |- exists w', (if ?c then _ else _) g w = _ /\ _ =>
      let H := fresh "Hc" in destruct c eqn:H
  end.
  9: { destruct (Gui.tile_is last 2 1) eqn:H21.
       - apply bool_decide_eq_true in H21. specialize (Hlast H21). subst.
         vm_compute in Hc5. discriminate.
       - exists w. split; [reflexivity|left; reflexivity]. }
  - apply (chain_run size f g w
             [([fF; fB; fL; fR], (fU, inverse)); ([fU], (fB, inverse));
              ([fD], (fF, inverse))] Hwf Hf); [by_evaluation|single_turns].
  - apply (chain_run size f g w
             [([fF; fB; fL; fR], (fU, quarter)); ([fU], (fB, quarter));
              ([fD], (fF, quarter))] Hwf Hf); [by_evaluation|single_turns].
  - apply (chain_run size f g w
             [([fF; fU; fB; fD], (fL, quarter)); ([fL], (fB, quarter));
              ([fR], (fF, quarter))] Hwf Hf); [by_evaluation|single_turns].
  - apply (chain_run size f g w
             [([fF; fU; fB; fD], (fL, inverse)); ([fL], (fB, inverse));
              ([fR], (fF, inverse))] Hwf Hf); [by_evaluation|single_turns].
  - apply (chain_run size f g w
             [([fF; fL; fR; fB], (fD, quarter)); ([fU], (fF, quarter));
              ([fD], (fB, quarter))] Hwf Hf); [by_evaluation|single_turns].
  - apply (chain_run size f g w
             [([fF; fL; fR; fB], (fD, inverse)); ([fU], (fF, inverse));
              ([fD], (fB, inverse))] Hwf Hf); [by_evaluation|single_turns].
  - apply (chain_run size f g w
             [([fF; fU; fD], (fR, inverse)); ([fB], (fL, inverse));
              ([fL], (fF, inverse)); ([fR], (fB, inverse))] Hwf Hf);
      [by_evaluation|single_turns].
  - apply (chain_run size f g w
             [([fF; fU; fD], (fR, quarter)); ([fB], (fL, quarter));
              ([fL], (fF, quarter)); ([fR], (fB, quarter))] Hwf Hf);
      [by_evaluation|single_turns].
Qed.

Lemma turned_well_formed size w w' :
  well_formed size w -> turned w w' -> well_formed size w'.
Proof.
  intros Hwf [->|(m & _ & ->)]; [exact Hwf|apply moved_well_formed, Hwf].
Qed.

(** X23.  At any point of a session (the pieces and the cube reachable
    by moves, the log whatever it holds by then): unless the drag
    started on the tile [(2, 1)] and ended off the tile [(2, 2)],
    releasing the button never raises.  When no tile was pressed the
    handler does nothing.  Otherwise it clears the pressed tile,
    redraws, and has asked [make_move_callback] for at most one move,
    which is never a double turn: the cube is left alone, or it is what
    one quarter turn (or its inverse) leaves, again reachable, with one
    more line in the log. *)
Theorem mouse_up_makes_at_most_one_turn
        (size : Z) (w : World) (lg : list (Level * string))
        (g : Gui.t (Side := Side))
        (event_x event_y : Z) (this_tile : option (Z * Z)) :
  reachable size w ->
  Gui._side g ∈ [FRONT; BACK; UP; DOWN; LEFT; RIGHT] ->
  Gui._get_tile_at_position event_x event_y g (with_log w lg)
    = (inr this_tile, g, with_log w lg) ->
  (Gui._last_tile g = Some (2, 1) -> this_tile = Some (2, 2)) ->
  exists new w',
    Gui._on_mouse_up Controller.make_move_callback event_x event_y g
      (with_log w lg) =
      (inr tt, Gui.mk None (Gui._side g) (Gui._canvas g ++ new), w') /\
    (w' = with_log w lg \/
     exists m w1,
       snd m <> double /\ method m w = (Ok tt, w1) /\ reachable size w1 /\
       w' = with_log w1
              (lg ++
               [(INFO, String.append "Calling instruction: " (name m))])) /\
    (Gui._last_tile g = None -> new = [] /\ w' = with_log w lg).
Proof.
  intros Hr Hside Htile Hlast. pose proof (reachable_well_formed _ _ Hr) as Hwf.
  pose proof (well_formed_with_log size w lg Hwf) as Hwf0.
  set (w0 := with_log w lg) in *.
  destruct (side_among _ Hside) as [f Hf].
  unfold Gui._on_mouse_up. unfold Gui.gbind at 1. unfold Gui.self_view at 1.
  destruct (Gui._last_tile g) as [last|] eqn:Hl.
  - unfold Gui.gbind at 1. rewrite Htile.
    unfold Gui.gbind at 1. unfold Gui.self_view at 1. rewrite Hl.
    destruct (drag_run size f g w0 (Some last) this_tile Hwf0 Hf Hlast)
      as (w' & Hrun & Hturn).
    unfold Gui.then_ at 1. unfold Gui.gbind at 1. rewrite Hrun.
    pose proof (turned_well_formed size w0 w' Hwf0 Hturn) as Hwf'.
    unfold Gui.then_ at 1. unfold Gui.gbind at 1.
    rewrite (refresh_cube_run Hsides size f g w' Hwf' Hf).
    exists (_pieces (cube w') ≫= drawn (limit_of size) f (heap w')), w'.
    split; [reflexivity|]. split; [|discriminate].
    destruct Hturn as [->|(m & Hm & ->)]; [left; reflexivity|right].
    assert (Hmove : method m w = (Ok tt, move_effect m w))
      by (apply (method_effect size), Hwf).
    exists m, (move_effect m w). split; [exact Hm|].
    split; [exact Hmove|].
    split; [apply (reach_move size w m _ Hr Hmove)|].
    unfold w0. apply moved_with_log.
  - exists [], w0. split; [|split; [left; reflexivity|auto]].
    destruct g as [lt sd cv]. cbn in Hl. subst lt. cbn.
    rewrite app_nil_r. reflexivity.
Qed.

End Gestures.

Lemma mouse_up_makes_at_most_one_turn_witness :
  exists new w',
    Gui._on_mouse_up (sides := numbered_sides) Controller.make_move_callback
      120 40 (Gui.mk (Some (0, 0)) (FRONT (Sides := numbered_sides)) [])
      (with_log (move_effect (fR, quarter) (built 3))
         [(INFO, "Starting new session.");
          (INFO, "Calling instruction: R")]) =
      (inr tt, Gui.mk None (FRONT (Sides := numbered_sides)) ([] ++ new), w') /\
    (w' = with_log (move_effect (fR, quarter) (built 3))
            [(INFO, "Starting new session.");
             (INFO, "Calling instruction: R")] \/
     exists m w1,
       snd m <> double /\
       method m (move_effect (fR, quarter) (built 3)) = (Ok tt, w1) /\
       reachable 3 w1 /\
       w' = with_log w1
              ([(INFO, "Starting new session.");
                (INFO, "Calling instruction: R")] ++
               [(INFO, String.append "Calling instruction: " (name m))])).
Proof.
  destruct (mouse_up_makes_at_most_one_turn numbered_sides_distinct 3
              (move_effect (fR, quarter) (built 3))
              [(INFO, "Starting new session.");
               (INFO, "Calling instruction: R")]
              (Gui.mk (Some (0, 0)) (FRONT (Sides := numbered_sides)) [])
              120 40 (Some (1, 0)))
    as (new & w' & Hrun & Hturn & _).
  - apply (reach_move 3 (built 3) (fR, quarter)).
    + apply reach_new. vm_compute. reflexivity.
    + vm_compute. reflexivity.
  - by_evaluation.
  - vm_compute. reflexivity.
  - discriminate.
  - exists new, w'. split; [exact Hrun|exact Hturn].
Defined.
